(** * Authentication, authorisation and rate limiting of the CMS platform API

    A shallow embedding of the TypeScript sources

      - packages/shared/src/utils.ts: [hasPermission], and the validators
        of the validation module that follows it;
      - apps/api/lib/auth.ts: tokens, [extractToken], [getPermissions], and
        the cache module that follows it ([SimpleCache], [RateLimiter]);
      - the validation middleware ([validateRegistration]) and the request
        middleware ([middleware]) of apps/api;
      - apps/api/app/api/auth/register/route.ts, and
        apps/api/app/api/auth/login/route.ts with the refresh handler that
        follows it;
      - of packages/shared/src/utils.ts also [slugify],
        [calculateReadingTime], [truncate] and the validators of articles,
        with [validateArticle] of the validation middleware;
      - the cache helpers [getCached] and [invalidateCache];
      - apps/api/app/api/content/route.ts, [POST] up to the choice of the
        slug, and apps/api/app/api/content/[id]/publish/route.ts, [POST] up
        to its permission check;

    followed by the properties of the specification that concern them
    (C1 to C10) and by further properties of the code (X1 to X26).

    Conventions of the embedding.
      - A JavaScript string is a [string]; its characters are taken to be
        7-bit ASCII code units (case mapping and the whitespace class are the
        ASCII ones).
      - A JavaScript number holding an integer is a [Z]; [Date.now()] is a [Z]
        of milliseconds and is an explicit argument [now] of whatever reads
        the clock.
      - A [Map] is a [gmap]; the Prisma tables are lists of rows.
      - A thrown exception is a constructor of the result type. *)

From Stdlib Require Import ZArith String Ascii List Bool Lia Decimal DecimalString DecimalN.
From stdpp Require Import gmap strings.
Import ListNotations.

Local Open Scope Z_scope.

(* ================================================================== *)
(** * JavaScript primitives used by the sources                        *)
(* ================================================================== *)

Module Js.

(** [s.length] *)
Definition length (s : string) : Z := Z.of_nat (String.length s).

(** [s.startsWith(p)] *)
Definition startsWith (s p : string) : bool := String.prefix p s.

(** [s.substring(n)] for [0 <= n] *)
Definition substring_from (n : nat) (s : string) : string :=
  String.substring n (String.length s - n) s.

(** [s.endsWith(p)] *)
Definition endsWith (s p : string) : bool :=
  (String.length p <=? String.length s)%nat &&
  String.eqb (substring_from (String.length s - String.length p) s) p.

(** [s.slice(0, -k)] *)
Definition slice_drop_last (k : nat) (s : string) : string :=
  String.substring 0 (String.length s - k) s.

(** [arr.includes(x)] on an array of strings *)
Definition includes (arr : list string) (x : string) : bool :=
  existsb (String.eqb x) arr.

(** [arr.some(f)] *)
Definition some {A} (f : A -> bool) (arr : list A) : bool := existsb f arr.

(** Truthiness of a string: only the empty string is falsy. *)
Definition truthy (s : string) : bool := negb (String.eqb s "").

(** Truthiness of a possibly absent ([undefined]/[null]) string. *)
Definition truthy_opt (o : option string) : bool :=
  match o with Some s => truthy s | None => false end.

Definition code (c : ascii) : nat := nat_of_ascii c.

Definition in_range (lo hi : nat) (c : ascii) : bool :=
  ((lo <=? code c) && (code c <=? hi))%nat.

Definition is_upper (c : ascii) : bool := in_range 65 90 c.
Definition is_lower (c : ascii) : bool := in_range 97 122 c.
Definition is_digit (c : ascii) : bool := in_range 48 57 c.

(** The class [\s] restricted to ASCII: TAB, LF, VT, FF, CR, SPACE. *)
Definition is_space (c : ascii) : bool := in_range 9 13 c || (code c =? 32)%nat.

Definition lower_char (c : ascii) : ascii :=
  if is_upper c then ascii_of_nat (code c + 32) else c.
Definition upper_char (c : ascii) : ascii :=
  if is_lower c then ascii_of_nat (code c - 32) else c.

Fixpoint map_string (f : ascii -> ascii) (s : string) : string :=
  match s with
  | EmptyString => EmptyString
  | String c s' => String (f c) (map_string f s')
  end.

(** [s.toLowerCase()] and [s.toUpperCase()] *)
Definition toLowerCase : string -> string := map_string lower_char.
Definition toUpperCase : string -> string := map_string upper_char.

Fixpoint exists_char (f : ascii -> bool) (s : string) : bool :=
  match s with
  | EmptyString => false
  | String c s' => f c || exists_char f s'
  end.

Fixpoint trimStart (s : string) : string :=
  match s with
  | String c s' => if is_space c then trimStart s' else s
  | EmptyString => EmptyString
  end.

(** Drops trailing whitespace: a character is kept when something that is
    not whitespace follows it or it is not whitespace itself. *)
Fixpoint trimEnd (s : string) : string :=
  match s with
  | EmptyString => EmptyString
  | String c s' =>
      match trimEnd s' with
      | EmptyString => if is_space c then EmptyString else String c EmptyString
      | t => String c t
      end
  end.

(** [s.trim()] *)
Definition trim (s : string) : string := trimEnd (trimStart s).

(** The names every object literal inherits from [Object.prototype]: a
    bracket lookup of one of them on a literal yields a truthy value that
    is not one of the literal's own entries. *)
Definition object_prototype_keys : list string :=
  [ "constructor"; "__defineGetter__"; "__defineSetter__"; "hasOwnProperty";
    "__lookupGetter__"; "__lookupSetter__"; "isPrototypeOf";
    "propertyIsEnumerable"; "toString"; "valueOf"; "__proto__";
    "toLocaleString" ]%string.

(** Result of [literal[key]]. *)
Inductive prop (A : Type) : Type :=
| Own (a : A)
| Inherited (key : string)
| Undefined.
Arguments Own {A} a.
Arguments Inherited {A} key.
Arguments Undefined {A}.

(** [literal[key]] for a literal given by its own entries. *)
Fixpoint get_own {A} (entries : list (string * A)) (key : string) : option A :=
  match entries with
  | [] => None
  | (k, v) :: rest => if String.eqb k key then Some v else get_own rest key
  end.

Definition get {A} (entries : list (string * A)) (key : string) : prop A :=
  match get_own entries key with
  | Some v => Own v
  | None => if includes object_prototype_keys key then Inherited key else Undefined
  end.

(** [n.toString()] for an integer: its decimal digits, after a minus sign
    when it is negative. *)
Definition toString (n : Z) : string :=
  match n with
  | Zneg p => String "-"%char (NilZero.string_of_uint (N.to_uint (Npos p)))
  | _ => NilZero.string_of_uint (N.to_uint (Z.to_N n))
  end.

Definition digit_of_char (c : ascii) : option (uint -> uint) :=
  match code c with
  | 48 => Some D0 | 49 => Some D1 | 50 => Some D2 | 51 => Some D3
  | 52 => Some D4 | 53 => Some D5 | 54 => Some D6 | 55 => Some D7
  | 56 => Some D8 | 57 => Some D9 | _ => None
  end%nat.

(** The longest prefix of decimal digits. *)
Fixpoint leading_digits (s : string) : uint :=
  match s with
  | EmptyString => Nil
  | String c s' =>
      match digit_of_char c with
      | Some d => d (leading_digits s')
      | None => Nil
      end
  end.

Definition parse_unsigned (s : string) : option Z :=
  match leading_digits s with
  | Nil => None
  | d => Some (Z.of_N (N.of_uint d))
  end.

(** [parseInt(s, 10)]: leading whitespace is skipped, one sign is
    accepted, the longest run of digits is read; [None] is [NaN]. *)
Definition parseInt (s : string) : option Z :=
  match trimStart s with
  | String "-"%char r => option_map Z.opp (parse_unsigned r)
  | String "+"%char r => parse_unsigned r
  | r => parse_unsigned r
  end.

End Js.

(* ================================================================== *)
(** * packages/shared: [hasPermission] and the validators              *)
(* ================================================================== *)

Module Shared.

(** The literal of [hasPermission]. *)
Definition rolePermissionsTable : list (string * list string) :=
  [ ("admin",  ["*"]);
    ("editor", ["content:*"; "media:*"; "comments:moderate"]);
    ("author", ["content:create"; "content:edit:own"; "media:upload"]);
    ("viewer", ["content:read"; "comments:create"]) ].

(** The callback given to [some]. *)
Definition permission_matches (permission p : string) : bool :=
  if Js.endsWith p ":*" then
    let prefix := Js.slice_drop_last 2 p in
    Js.startsWith permission prefix
  else String.eqb p permission.

(** [hasPermission(userRole, permission)]; [None] is the [TypeError]
    raised when [userRole] names a property inherited from
    [Object.prototype] (the value found there has no [includes]). *)
Definition hasPermission (userRole permission : string) : option bool :=
  match Js.get rolePermissionsTable userRole with
  | Js.Inherited _ => None
  | found =>
      let rolePermissions :=
        match found with Js.Own l => l | _ => [] end in
      if Js.includes rolePermissions "*" then Some true
      else Some (Js.some (permission_matches permission) rolePermissions)
  end.

(** ** Regular expressions

    The validators test their input against regular-expression literals.
    A literal is embedded as a value of [regex] and matched by
    derivatives; a literal anchored with [^] and [$] matches the whole
    input. *)
Inductive regex : Type :=
| Fail
| Eps
| Class (p : ascii -> bool)
| Seq (r1 r2 : regex)
| Alt (r1 r2 : regex)
| Star (r : regex).

(** [r+] *)
Definition Plus (r : regex) : regex := Seq r (Star r).

Fixpoint nullable (r : regex) : bool :=
  match r with
  | Fail => false
  | Eps => true
  | Class _ => false
  | Seq r1 r2 => nullable r1 && nullable r2
  | Alt r1 r2 => nullable r1 || nullable r2
  | Star _ => true
  end.

Fixpoint deriv (c : ascii) (r : regex) : regex :=
  match r with
  | Fail => Fail
  | Eps => Fail
  | Class p => if p c then Eps else Fail
  | Seq r1 r2 =>
      if nullable r1 then Alt (Seq (deriv c r1) r2) (deriv c r2)
      else Seq (deriv c r1) r2
  | Alt r1 r2 => Alt (deriv c r1) (deriv c r2)
  | Star r1 => Seq (deriv c r1) (Star r1)
  end.

(** [/^r$/.test(s)] *)
Fixpoint regex_test (r : regex) (s : string) : bool :=
  match s with
  | EmptyString => nullable r
  | String c s' => regex_test (deriv c r) s'
  end.

Definition is_char (c : ascii) : ascii -> bool := Ascii.eqb c.

(** The class [[^\s@]]. *)
Definition not_space_or_at (c : ascii) : bool :=
  negb (Js.is_space c || is_char "@" c).

(** [/^[^\s@]+@[^\s@]+\.[^\s@]+$/] *)
Definition emailRegex : regex :=
  Seq (Plus (Class not_space_or_at))
    (Seq (Class (is_char "@"))
       (Seq (Plus (Class not_space_or_at))
          (Seq (Class (is_char "."))
             (Plus (Class not_space_or_at))))).

Record ValidationResult : Type :=
  { valid : bool; errors : list string }.

(** The closing [return { valid: errors.length === 0, errors }]. *)
Definition result_of (errs : list string) : ValidationResult :=
  {| valid := (List.length errs =? 0)%nat; errors := errs |}.

(** [validateEmail(email)]; [None] is an absent field. *)
Definition validateEmail (email : option string) : ValidationResult :=
  let errors :=
    match email with
    | Some e =>
        if negb (Js.truthy e) then ["Email is required"]
        else if negb (regex_test emailRegex e) then ["Invalid email format"]
        else []
    | None => ["Email is required"]
    end in
  result_of errors.

(** [validatePassword(password)] *)
Definition validatePassword (password : option string) : ValidationResult :=
  let errors :=
    match password with
    | Some p =>
        if negb (Js.truthy p) then ["Password is required"]
        else
          (if (Js.length p <? 8)%Z
           then ["Password must be at least 8 characters long"] else [])
          ++ (if negb (Js.exists_char Js.is_upper p)
              then ["Password must contain at least one uppercase letter"] else [])
          ++ (if negb (Js.exists_char Js.is_lower p)
              then ["Password must contain at least one lowercase letter"] else [])
          ++ (if negb (Js.exists_char Js.is_digit p)
              then ["Password must contain at least one number"] else [])
    | None => ["Password is required"]
    end in
  result_of errors.

End Shared.

(* ================================================================== *)
(** * The validation module, [@/lib/validation]                        *)
(* ================================================================== *)

Module Validation.

Import Shared.
(** The fields [validateRegistration] reads from its argument. *)
Record RegistrationData : Type :=
  { reg_email : option string;
    reg_password : option string;
    reg_name : option string }.

(** [!data.name || data.name.trim().length < 2] *)
Definition name_too_short (name : option string) : bool :=
  match name with
  | Some n => negb (Js.truthy n) || (Js.length (Js.trim n) <? 2)%Z
  | None => true
  end.

(** [validateRegistration(data)] *)
Definition validateRegistration (data : RegistrationData) : ValidationResult :=
  let emailValidation := validateEmail (reg_email data) in
  let errors1 :=
    if negb (valid emailValidation) then errors emailValidation else [] in
  let passwordValidation := validatePassword (reg_password data) in
  let errors2 :=
    if negb (valid passwordValidation)
    then errors1 ++ errors passwordValidation else errors1 in
  let errors3 :=
    if name_too_short (reg_name data)
    then errors2 ++ ["Name must be at least 2 characters long"] else errors2 in
  result_of errors3.

End Validation.

(* ================================================================== *)
(** * apps/api/lib/auth.ts                                             *)
(* ================================================================== *)

Module Auth.

(** [process.env] as read at the top of the module; the two expiries are
    the spans ['15m'] and ['7d'] in seconds. *)
Record Env : Type :=
  { JWT_ACCESS_SECRET : string;
    JWT_REFRESH_SECRET : string;
    JWT_ACCESS_EXPIRY : Z;
    JWT_REFRESH_EXPIRY : Z }.

Definition default_env : Env :=
  {| JWT_ACCESS_SECRET := "access-secret";
     JWT_REFRESH_SECRET := "refresh-secret";
     JWT_ACCESS_EXPIRY := 15 * 60;
     JWT_REFRESH_EXPIRY := 7 * 24 * 60 * 60 |}.

Record TokenPayload : Type :=
  { userId : string; email : string; role : string }.

(** ** The [jsonwebtoken] library

    What a compact HS256 token carries: the secret its signature verifies
    under, the payload, and the [iat] and [exp] claims (seconds). [sign]
    draws no randomness: it sets [iat] to the clock in whole seconds and
    [exp] to [iat] plus the span, and the token is the encoding of header
    and payload followed by their HMAC. So the token is a function of
    these four, and it can be read back; the empty string is not a
    token. *)
Record Jwt : Type :=
  { jwt_secret : string;
    jwt_payload : TokenPayload;
    jwt_iat : Z;
    jwt_exp : Z }.

Class JsonWebToken : Type :=
  { jwt_encode : Jwt -> string;
    jwt_decode : string -> option Jwt;
    jwt_decode_encode : forall j, jwt_decode (jwt_encode j) = Some j;
    jwt_decode_empty : jwt_decode "" = None }.

(** ** The [bcryptjs] library; [salt] is the randomness [hash] draws. *)
Class Bcrypt : Type :=
  { bcrypt_hash : string -> Z -> string -> string;
    bcrypt_compare : string -> string -> bool }.

Inductive JwtError : Type := TokenExpiredError | JsonWebTokenError.

(** [Math.floor(Date.now() / 1000)] *)
Definition clockTimestamp (now : Z) : Z := now / 1000.

Section Tokens.
Context `{JsonWebToken} `{Bcrypt}.

(** [jwt.sign(payload, secret, { expiresIn })] at the instant [now]. *)
Definition jwt_sign (payload : TokenPayload) (secret : string)
    (expiresIn now : Z) : string :=
  jwt_encode {| jwt_secret := secret;
                jwt_payload := payload;
                jwt_iat := clockTimestamp now;
                jwt_exp := clockTimestamp now + expiresIn |}.

(** [jwt.verify(token, secret)] at the instant [now]. *)
Definition jwt_verify (token secret : string) (now : Z)
    : JwtError + TokenPayload :=
  match jwt_decode token with
  | Some j =>
      if String.eqb (jwt_secret j) secret then
        if jwt_exp j <=? clockTimestamp now then inl TokenExpiredError
        else inr (jwt_payload j)
      else inl JsonWebTokenError
  | None => inl JsonWebTokenError
  end.

(** [hashPassword(password)] *)
Definition hashPassword (password salt : string) : string :=
  bcrypt_hash password 12 salt.

(** [verifyPassword(password, hash)] *)
Definition verifyPassword (password hash : string) : bool :=
  bcrypt_compare password hash.

Definition generateAccessToken (env : Env) (payload : TokenPayload) (now : Z) : string :=
  jwt_sign payload (JWT_ACCESS_SECRET env) (JWT_ACCESS_EXPIRY env) now.

Definition generateRefreshToken (env : Env) (payload : TokenPayload) (now : Z) : string :=
  jwt_sign payload (JWT_REFRESH_SECRET env) (JWT_REFRESH_EXPIRY env) now.

Definition verifyAccessToken (env : Env) (token : string) (now : Z)
    : JwtError + TokenPayload :=
  jwt_verify token (JWT_ACCESS_SECRET env) now.

Definition verifyRefreshToken (env : Env) (token : string) (now : Z)
    : JwtError + TokenPayload :=
  jwt_verify token (JWT_REFRESH_SECRET env) now.
End Tokens.

(** [extractToken(authHeader)] *)
Definition extractToken (authHeader : option string) : option string :=
  match authHeader with
  | Some h =>
      if negb (Js.truthy h) || negb (Js.startsWith h "Bearer ") then None
      else Some (Js.substring_from 7 h)
  | None => None
  end.

(** The literal of [getPermissions]. *)
Definition permissions : list (string * list string) :=
  [ ("admin",  ["*"]);
    ("editor", ["content:*"; "media:*"; "comments:moderate"]);
    ("author", ["content:create"; "content:edit:own"; "media:upload"]);
    ("viewer", ["content:read"; "comments:create"]) ].

(** What [getPermissions] can return: an array of the table, the empty
    array, or the object a name inherited from [Object.prototype] yields. *)
Inductive Permissions : Type :=
| PermissionList (l : list string)
| PrototypeValue (key : string).

(** [getPermissions(role)]: [permissions[role.toLowerCase()] || []] *)
Definition getPermissions (role : string) : Permissions :=
  match Js.get permissions (Js.toLowerCase role) with
  | Js.Own l => PermissionList l
  | Js.Inherited k => PrototypeValue k
  | Js.Undefined => PermissionList []
  end.

End Auth.

(* ================================================================== *)
(** * The cache module, [@/lib/redis]                                  *)
(* ================================================================== *)

Module Redis.

(** An entry of [SimpleCache.cache]. *)
Record Item : Type := { value : string; expiry : Z }.

(** [SimpleCache.cache : Map<string, { value; expiry }>] *)
Abbreviation Cache := (gmap string Item).

(** [get(key)]: an entry past its expiry is deleted and reported absent. *)
Definition get (cache : Cache) (key : string) (now : Z) : option string * Cache :=
  match cache !! key with
  | None => (None, cache)
  | Some item =>
      if expiry item <? now then (None, delete key cache)
      else (Some (value item), cache)
  end.

(** [set(key, value, expirySeconds?)]; an absent or zero [expirySeconds]
    is falsy and selects the default of one hour. *)
Definition set (cache : Cache) (key val : string) (expirySeconds : option Z)
    (now : Z) : Cache :=
  let expiry :=
    match expirySeconds with
    | Some s => if s =? 0 then now + 3600 * 1000 else now + s * 1000
    | None => now + 3600 * 1000
    end in
  <[key := {| value := val; expiry := expiry |}]> cache.

Definition setex (cache : Cache) (key : string) (seconds : Z) (val : string)
    (now : Z) : Cache :=
  set cache key val (Some seconds) now.

Definition del (cache : Cache) (key : string) : Cache := delete key cache.

(** A number as [incr] handles it: [None] is [NaN]. *)
Definition number_toString (n : option Z) : string :=
  match n with Some z => Js.toString z | None => "NaN" end.

(** [incr(key)] *)
Definition incr (cache : Cache) (key : string) (now : Z) : option Z * Cache :=
  let '(current, cache1) := get cache key now in
  let shown :=
    match current with
    | Some s => if Js.truthy s then s else "0"
    | None => "0"
    end in
  let newValue := number_toString (option_map (fun n => n + 1) (Js.parseInt shown)) in
  let cache2 := set cache1 key newValue None now in
  (Js.parseInt newValue, cache2).

(** [expire(key, seconds)]: reads the map directly, without the expiry
    check of [get]. *)
Definition expire (cache : Cache) (key : string) (seconds now : Z) : Cache :=
  match cache !! key with
  | Some item =>
      <[key := {| value := value item; expiry := now + seconds * 1000 |}]> cache
  | None => cache
  end.

(** ** RateLimiter *)

Inductive LimitType : Type := anonymous | authenticated | api_key.

Definition type_name (t : LimitType) : string :=
  match t with
  | anonymous => "anonymous"
  | authenticated => "authenticated"
  | api_key => "api_key"
  end.

(** [this.limits[type]] *)
Definition limits (t : LimitType) : Z :=
  match t with
  | anonymous => 100
  | authenticated => 1000
  | api_key => 10000
  end.

Record LimitResult : Type :=
  { allowed : bool; remaining : option Z; resetAt : Z }.

(** [`rate_limit:${type}:${identifier}`] *)
Definition rate_key (identifier : string) (t : LimitType) : string :=
  "rate_limit:" +:+ type_name t +:+ ":" +:+ identifier.

Definition window : Z := 3600.

(** [checkLimit(identifier, type)] *)
Definition checkLimit (cache : Cache) (identifier : string) (t : LimitType)
    (now : Z) : LimitResult * Cache :=
  let key := rate_key identifier t in
  let limit := limits t in
  let '(current, cache1) := incr cache key now in
  let cache2 :=
    match current with
    | Some 1 => expire cache1 key window now
    | _ => cache1
    end in
  let remaining := option_map (fun c => Z.max 0 (limit - c)) current in
  let resetAt := now + window * 1000 in
  ({| allowed := match current with Some c => c <=? limit | None => false end;
      remaining := remaining;
      resetAt := resetAt |}, cache2).

(** [identifier]'s requests of type [t] arriving at the given instants,
    one after the other; the results in order, and the cache left behind. *)
Fixpoint serve (cache : Cache) (identifier : string) (t : LimitType)
    (times : list Z) : list LimitResult * Cache :=
  match times with
  | [] => ([], cache)
  | now :: rest =>
      let '(r, cache1) := checkLimit cache identifier t now in
      let '(rs, cache2) := serve cache1 identifier t rest in
      (r :: rs, cache2)
  end.

(** The instants lie in the hour that starts at [first]. *)
Definition in_window_of (first : Z) (times : list Z) : bool :=
  forallb (fun now => (first <=? now) && (now <=? first + window * 1000)) times.

(** One window in milliseconds. *)
Definition hour_ms : Z := window * 1000.

(** The entry a request leaves behind when it counts [n]. *)
Definition counted (n now : Z) : Item :=
  {| value := Js.toString n; expiry := now + hour_ms |}.

(** What a request that counts [count] is answered. *)
Definition result_of_count (t : LimitType) (count now : Z) : LimitResult :=
  {| allowed := count <=? limits t;
     remaining := Some (Z.max 0 (limits t - count));
     resetAt := now + hour_ms |}.

(** A cache in which the anonymous bucket of one client is used up. *)
Definition saturated : Cache :=
  {[ rate_key "203.0.113.7" anonymous := {| value := "100"; expiry := 3600000 |} ]}.

End Redis.

(* ================================================================== *)
(** * The request middleware                                           *)
(* ================================================================== *)

Module Middleware.

Import Auth Redis.

(** What the middleware reads of a [NextRequest]. Header names are in
    lower case, as [Headers] keeps them. *)
Record NextRequest : Type :=
  { pathname : string;
    ip : option string;
    headers : gmap string string }.

(** The [details] of the 429 body. *)
Record RateDetails : Type :=
  { details_remaining : option Z; details_resetAt : Z }.

Record ErrorBody : Type :=
  { error : string;
    message : string;
    statusCode : Z;
    details : option RateDetails;
    timestamp : Z }.

(** [NextResponse.next()], [NextResponse.next({ request: { headers } })]
    and [NextResponse.json(body, { status })]. With [next] the request
    goes on to the route handler; with [json] it is answered here. *)
Inductive NextResponse : Type :=
| next (requestHeaders : option (gmap string string))
| json (body : ErrorBody) (status : Z).

(** The calls the middleware makes to its collaborators, in program order. *)
Inductive Call : Type :=
| CheckLimit (identifier : string) (t : LimitType)
| VerifyAccessToken (token : string).

Record Outcome : Type :=
  { response : NextResponse;
    cache_after : Cache;
    calls : list Call }.

(** The condition of [// Skip middleware for public routes]. *)
Definition is_public (path : string) : bool :=
  Js.startsWith path "/_next"
  || Js.startsWith path "/static"
  || String.eqb path "/api/auth/login"
  || String.eqb path "/api/auth/register"
  || String.eqb path "/api/auth/refresh".

Definition too_many_requests (rateLimit : LimitResult) (now : Z) : NextResponse :=
  json {| error := "Too Many Requests";
          message := "Rate limit exceeded";
          statusCode := 429;
          details := Some {| details_remaining := remaining rateLimit;
                             details_resetAt := resetAt rateLimit |};
          timestamp := now |} 429.

Definition unauthorized (msg : string) (now : Z) : NextResponse :=
  json {| error := "Unauthorized";
          message := msg;
          statusCode := 401;
          details := None;
          timestamp := now |} 401.

(** The headers of the forwarded request. *)
Definition with_user (payload : TokenPayload) (h : gmap string string)
    : gmap string string :=
  <["x-user-role" := role payload]>
    (<["x-user-email" := email payload]>
       (<["x-user-id" := userId payload]> h)).

(** [req.ip || 'anonymous'] *)
Definition identifier_of (req : NextRequest) : string :=
  match ip req with
  | Some i => if Js.truthy i then i else "anonymous"
  | None => "anonymous"
  end.

(** [authHeader ? 'authenticated' : 'anonymous'] *)
Definition rateLimitType_of (authHeader : option string) : LimitType :=
  if Js.truthy_opt authHeader then authenticated else anonymous.

Definition status_of (r : NextResponse) : option Z :=
  match r with
  | json _ code => Some code
  | next _ => None
  end.

Section WithJwt.
Context `{JsonWebToken}.

(** [middleware(req)] at the instant [now], on the limiter's cache. *)
Definition middleware (env : Env) (cache : Cache) (req : NextRequest) (now : Z)
    : Outcome :=
  let path := pathname req in
  if is_public path then
    {| response := next None; cache_after := cache; calls := [] |}
  else
    let identifier := identifier_of req in
    let authHeader := headers req !! "authorization" in
    let rateLimitType := rateLimitType_of authHeader in
    let '(rateLimit, cache1) := checkLimit cache identifier rateLimitType now in
    let calls1 := [CheckLimit identifier rateLimitType] in
    if negb (allowed rateLimit) then
      {| response := too_many_requests rateLimit now;
         cache_after := cache1; calls := calls1 |}
    else if Js.startsWith path "/api" then
      match extractToken authHeader with
      | Some token =>
          if negb (Js.truthy token) then
            {| response := unauthorized "No authentication token provided" now;
               cache_after := cache1; calls := calls1 |}
          else
            match verifyAccessToken env token now with
            | inr payload =>
                {| response := next (Some (with_user payload (headers req)));
                   cache_after := cache1;
                   calls := calls1 ++ [VerifyAccessToken token] |}
            | inl _ =>
                {| response := unauthorized "Invalid or expired token" now;
                   cache_after := cache1;
                   calls := calls1 ++ [VerifyAccessToken token] |}
            end
      | None =>
          {| response := unauthorized "No authentication token provided" now;
             cache_after := cache1; calls := calls1 |}
      end
    else
      {| response := next None; cache_after := cache1; calls := calls1 |}.

End WithJwt.

End Middleware.

(* ================================================================== *)
(** * The Prisma client, as the route handlers use it                  *)
(* ================================================================== *)

Module Prisma.

(** A row of the [user] table. *)
Record User : Type :=
  { user_id : string;
    user_email : string;
    user_password : string;
    user_name : string;
    user_role : string;
    user_createdAt : Z }.

(** A row of the [refreshToken] table. *)
Record RefreshToken : Type :=
  { rt_id : string;
    rt_token : string;
    rt_userId : string;
    rt_expiresAt : Z }.

(** The calls made to the client, most recent last. *)
Inductive Query : Type :=
| UserFindUnique (email : string)
| UserCreate (email : string)
| RefreshTokenFindUnique (token : string)
| RefreshTokenDelete (id : string)
| RefreshTokenCreate (token : string).

Record Db : Type :=
  { users : list User;
    refreshTokens : list RefreshToken;
    queries : list Query }.

(** What a handler's [catch] can receive. *)
Inductive Exception : Type :=
| UniqueConstraintFailed (target : string)
| RecordNotFound
| TypeError.

Definition logged (q : Query) (db : Db) : Db :=
  {| users := users db; refreshTokens := refreshTokens db;
     queries := queries db ++ [q] |}.

Definition find_user_by_email (email : string) (l : list User) : option User :=
  List.find (fun u => String.eqb (user_email u) email) l.

Definition find_user_by_id (id : string) (l : list User) : option User :=
  List.find (fun u => String.eqb (user_id u) id) l.

Definition find_token (token : string) (l : list RefreshToken) : option RefreshToken :=
  List.find (fun r => String.eqb (rt_token r) token) l.

Definition find_token_by_id (id : string) (l : list RefreshToken) : option RefreshToken :=
  List.find (fun r => String.eqb (rt_id r) id) l.

(** [prisma.user.findUnique({ where: { email } })] *)
Definition user_findUnique (db : Db) (email : string) : option User * Db :=
  (find_user_by_email email (users db), logged (UserFindUnique email) db).

(** [prisma.user.create({ data })]; [id] is the key the database generates.
    The unique columns are [id] and [email]. *)
Definition user_create (db : Db) (email password name role : string)
    (id : string) (now : Z) : (Exception + User) * Db :=
  let db1 := logged (UserCreate email) db in
  match find_user_by_id id (users db), find_user_by_email email (users db) with
  | Some _, _ => (inl (UniqueConstraintFailed "id"), db1)
  | None, Some _ => (inl (UniqueConstraintFailed "email"), db1)
  | None, None =>
      let user := {| user_id := id; user_email := email;
                     user_password := password; user_name := name;
                     user_role := role; user_createdAt := now |} in
      (inr user,
       {| users := users db ++ [user];
          refreshTokens := refreshTokens db;
          queries := queries db1 |})
  end.

(** [prisma.refreshToken.findUnique({ where: { token }, include: { user: true } })] *)
Definition refreshToken_findUnique (db : Db) (token : string)
    : option (RefreshToken * option User) * Db :=
  (option_map (fun r => (r, find_user_by_id (rt_userId r) (users db)))
     (find_token token (refreshTokens db)),
   logged (RefreshTokenFindUnique token) db).

(** The rows left by [delete({ where: { id } })]. *)
Definition without (id : string) (rows : list RefreshToken) : list RefreshToken :=
  List.filter (fun r => negb (String.eqb (rt_id r) id)) rows.

(** [prisma.refreshToken.delete({ where: { id } })]: deleting a row that
    does not exist is an error of the client. *)
Definition refreshToken_delete (db : Db) (id : string) : (Exception + unit) * Db :=
  let db1 := logged (RefreshTokenDelete id) db in
  match find_token_by_id id (refreshTokens db) with
  | None => (inl RecordNotFound, db1)
  | Some _ =>
      (inr tt,
       {| users := users db;
          refreshTokens := without id (refreshTokens db);
          queries := queries db1 |})
  end.

(** [prisma.refreshToken.create({ data })]; [id] is the key the database
    generates. The unique columns are [id] and [token]. *)
Definition refreshToken_create (db : Db) (token userId : string) (expiresAt : Z)
    (id : string) : (Exception + RefreshToken) * Db :=
  let db1 := logged (RefreshTokenCreate token) db in
  match find_token_by_id id (refreshTokens db), find_token token (refreshTokens db) with
  | Some _, _ => (inl (UniqueConstraintFailed "id"), db1)
  | None, Some _ => (inl (UniqueConstraintFailed "token"), db1)
  | None, None =>
      let row := {| rt_id := id; rt_token := token;
                    rt_userId := userId; rt_expiresAt := expiresAt |} in
      (inr row,
       {| users := users db;
          refreshTokens := refreshTokens db ++ [row];
          queries := queries db1 |})
  end.

End Prisma.

(* ================================================================== *)
(** * The responses of the route handlers ([ApiResponse])              *)
(* ================================================================== *)

Module Api.

Import Auth Prisma.

Record AuthUser : Type :=
  { au_id : string;
    au_email : string;
    au_role : string;
    au_permissions : Permissions }.

Record AuthPayload : Type :=
  { user : AuthUser;
    accessToken : string;
    refreshToken : string }.

Inductive Details : Type :=
| NoDetails
| ValidationErrors (errs : list string)
| ErrorMessage (e : Exception).

Record ApiError : Type :=
  { error : string;
    message : string;
    statusCode : Z;
    details : Details }.

Inductive Body : Type :=
| failure (e : ApiError)
| success (data : AuthPayload).

(** [NextResponse.json(body, { status })], the body carrying [timestamp]. *)
Record Response : Type :=
  { body : Body;
    timestamp : Z;
    status : Z }.

Definition fail (label msg : string) (code : Z) (d : Details) (now : Z) : Response :=
  {| body := failure {| error := label; message := msg;
                        statusCode := code; details := d |};
     timestamp := now;
     status := code |}.

Definition ok (data : AuthPayload) (code : Z) (now : Z) : Response :=
  {| body := success data; timestamp := now; status := code |}.

(** [7 * 24 * 60 * 60 * 1000] *)
Definition seven_days_ms : Z := 7 * 24 * 60 * 60 * 1000.

End Api.

(* ================================================================== *)
(** * app/api/auth/register/route.ts                                   *)
(* ================================================================== *)

Module Register.

Import Auth Prisma Api.

(** The fields read from [await req.json()]; [None] is an absent field. *)
Record Body : Type :=
  { body_email : option string;
    body_password : option string;
    body_name : option string;
    body_role : option string }.

(** [const { email, password, name, role = 'viewer' } = body]: the role asked
    for, ['viewer'] when the body has none. *)
Definition requested_role (b : Body) : string :=
  match body_role b with Some r => r | None => "viewer" end.

(** The argument [{ email, password, name }] of [validateRegistration]. *)
Definition data_of (b : Body) : Validation.RegistrationData :=
  {| Validation.reg_email := body_email b;
     Validation.reg_password := body_password b;
     Validation.reg_name := body_name b |}.

(** The response to a body that fails validation. *)
Definition validation_error (b : Body) (now : Z) : Response :=
  fail "Validation Error" "Invalid input data" 400
    (ValidationErrors (Shared.errors (Validation.validateRegistration (data_of b)))) now.

Section Handler.
Context `{JsonWebToken} `{Bcrypt}.

(** The response of the [catch] block. *)
Definition internal_error (e : Exception) (now : Z) : Response :=
  fail "Internal Server Error" "Failed to register user" 500 (ErrorMessage e) now.

(** [POST(req)] at the instant [now]; [salt] is the salt bcrypt draws,
    [userRowId] and [tokenRowId] the keys the database generates. *)
Definition POST (env : Env) (db : Db) (b : Body) (now : Z)
    (salt userRowId tokenRowId : string) : Response * Db :=
  let role := requested_role b in
  let validation := Validation.validateRegistration (data_of b) in
  if negb (Shared.valid validation) then (validation_error b now, db)
  else
    match body_email b, body_password b, body_name b with
    | Some email, Some password, Some name =>
        let '(existingUser, db1) := user_findUnique db email in
        match existingUser with
        | Some _ =>
            (fail "Conflict" "User with this email already exists" 409 NoDetails now,
             db1)
        | None =>
            let hashedPassword := hashPassword password salt in
            let '(created, db2) :=
              user_create db1 email hashedPassword name (Js.toUpperCase role)
                userRowId now in
            match created with
            | inl e => (internal_error e now, db2)
            | inr user =>
                let tokenPayload :=
                  {| userId := user_id user;
                     Auth.email := user_email user;
                     Auth.role := Js.toLowerCase (user_role user) |} in
                let accessToken := generateAccessToken env tokenPayload now in
                let refreshToken := generateRefreshToken env tokenPayload now in
                let '(stored, db3) :=
                  refreshToken_create db2 refreshToken (user_id user)
                    (now + seven_days_ms) tokenRowId in
                match stored with
                | inl e => (internal_error e now, db3)
                | inr _ =>
                    let authPayload :=
                      {| user :=
                           {| au_id := user_id user;
                              au_email := user_email user;
                              au_role := Js.toLowerCase (user_role user);
                              au_permissions :=
                                getPermissions (Js.toLowerCase (user_role user)) |};
                         Api.accessToken := accessToken;
                         Api.refreshToken := refreshToken |} in
                    (ok authPayload 201 now, db3)
                end
            end
        end
    | _, _, _ =>
        (* not reached: the validators reject an absent field *)
        (internal_error TypeError now, db)
    end.

End Handler.

(** The payload put into the tokens of a new user. *)
Definition payload_for (id email : string) (b : Body) : TokenPayload :=
  {| userId := id;
     Auth.email := email;
     role := Js.toLowerCase (Js.toUpperCase (requested_role b)) |}.

(** The rules of the specification, read off a request body: the e-mail
    address has the required format, the password has at least 8
    characters, an upper-case letter, a lower-case letter and a digit, and
    the trimmed name has at least 2 characters. An absent field breaks its
    rule. *)
Definition email_ok (email : option string) : bool :=
  match email with
  | Some e => Shared.regex_test Shared.emailRegex e
  | None => false
  end.

Definition password_ok (password : option string) : bool :=
  match password with
  | Some p =>
      (8 <=? Js.length p) && Js.exists_char Js.is_upper p
      && Js.exists_char Js.is_lower p && Js.exists_char Js.is_digit p
  | None => false
  end.

Definition name_ok (name : option string) : bool :=
  match name with
  | Some n => 2 <=? Js.length (Js.trim n)
  | None => false
  end.

Definition meets_rules (b : Body) : bool :=
  email_ok (body_email b) && password_ok (body_password b) && name_ok (body_name b).

End Register.

(* ================================================================== *)
(** * app/api/auth/login/route.ts                                      *)
(* ================================================================== *)

Module Login.

Import Auth Prisma Api.

Record Body : Type :=
  { body_email : option string;
    body_password : option string }.

Section Handler.
Context `{JsonWebToken} `{Bcrypt}.

Definition internal_error (e : Exception) (now : Z) : Response :=
  fail "Internal Server Error" "Failed to login" 500 (ErrorMessage e) now.

Definition bad_request (now : Z) : Response :=
  fail "Bad Request" "Email and password are required" 400 NoDetails now.

Definition invalid_credentials (now : Z) : Response :=
  fail "Unauthorized" "Invalid credentials" 401 NoDetails now.

(** [POST(req)] at the instant [now]; [tokenRowId] is the key the
    database generates for the refresh-token row. *)
Definition POST (env : Env) (db : Db) (b : Body) (now : Z) (tokenRowId : string)
    : Response * Db :=
  match body_email b, body_password b with
  | Some email, Some password =>
      if negb (Js.truthy email) || negb (Js.truthy password) then
        (bad_request now, db)
      else
        let '(found, db1) := user_findUnique db email in
        match found with
        | None => (invalid_credentials now, db1)
        | Some user =>
            let isValidPassword := verifyPassword password (user_password user) in
            if negb isValidPassword then (invalid_credentials now, db1)
            else
              let tokenPayload :=
                {| userId := user_id user;
                   Auth.email := user_email user;
                   Auth.role := Js.toLowerCase (user_role user) |} in
              let accessToken := generateAccessToken env tokenPayload now in
              let refreshToken := generateRefreshToken env tokenPayload now in
              let '(stored, db2) :=
                refreshToken_create db1 refreshToken (user_id user)
                  (now + seven_days_ms) tokenRowId in
              match stored with
              | inl e => (internal_error e now, db2)
              | inr _ =>
                  let authPayload :=
                    {| user :=
                         {| au_id := user_id user;
                            au_email := user_email user;
                            au_role := Js.toLowerCase (user_role user);
                            au_permissions :=
                              getPermissions (Js.toLowerCase (user_role user)) |};
                       Api.accessToken := accessToken;
                       Api.refreshToken := refreshToken |} in
                  (ok authPayload 200 now, db2)
              end
        end
  | _, _ => (bad_request now, db)
  end.

End Handler.

End Login.

(* ================================================================== *)
(** * The refresh route handler                                        *)
(* ================================================================== *)

Module Refresh.

Import Auth Prisma Api.

Record Body : Type :=
  { body_refreshToken : option string }.

Definition internal_error (e : Exception) (now : Z) : Response :=
  fail "Internal Server Error" "Failed to refresh token" 500 (ErrorMessage e) now.

Definition bad_request (now : Z) : Response :=
  fail "Bad Request" "Refresh token is required" 400 NoDetails now.

Definition invalid_or_expired (now : Z) : Response :=
  fail "Unauthorized" "Invalid or expired refresh token" 401 NoDetails now.

(** [tokenPayload], built from the user joined to the stored row. *)
Definition payload_of (user : User) : TokenPayload :=
  {| userId := user_id user;
     Auth.email := user_email user;
     Auth.role := Js.toLowerCase (user_role user) |}.

(** What the handler holds between its [delete] and its [create]. *)
Record Rotation : Type :=
  { rot_user : User;
    rot_accessToken : string;
    rot_refreshToken : string }.

(** The body of a call that presents [token]. *)
Definition presenting (token : string) : Body :=
  {| body_refreshToken := Some token |}.

(** The row [create] inserts for a rotation. *)
Definition new_row (r : Rotation) (id : string) (now : Z) : RefreshToken :=
  {| rt_id := id;
     rt_token := rot_refreshToken r;
     rt_userId := user_id (rot_user r);
     rt_expiresAt := now + seven_days_ms |}.

(** The closing success response. *)
Definition rotated (r : Rotation) (now : Z) : Response :=
  let user := rot_user r in
  ok {| user :=
          {| au_id := user_id user;
             au_email := user_email user;
             au_role := Js.toLowerCase (user_role user);
             au_permissions := getPermissions (Js.toLowerCase (user_role user)) |};
        Api.accessToken := rot_accessToken r;
        Api.refreshToken := rot_refreshToken r |} 200 now.

Section Handler.
Context `{JsonWebToken}.

(** The new pair, [// Generate new tokens]. *)
Definition new_tokens (env : Env) (user : User) (now : Z) : Rotation :=
  let tokenPayload := payload_of user in
  {| rot_user := user;
     rot_accessToken := generateAccessToken env tokenPayload now;
     rot_refreshToken := generateRefreshToken env tokenPayload now |}.

(** [POST(req)] at the instant [now], run without interruption;
    [tokenRowId] is the key the database generates for the new row. *)
Definition POST (env : Env) (db : Db) (b : Body) (now : Z) (tokenRowId : string)
    : Response * Db :=
  match body_refreshToken b with
  | None => (bad_request now, db)
  | Some refreshToken =>
      if negb (Js.truthy refreshToken) then (bad_request now, db)
      else
        match verifyRefreshToken env refreshToken now with
        | inl _ => (invalid_or_expired now, db)
        | inr _ =>
            let '(storedToken, db1) := refreshToken_findUnique db refreshToken in
            match storedToken with
            | None => (invalid_or_expired now, db1)
            | Some (row, joined) =>
                if rt_expiresAt row <? now then (invalid_or_expired now, db1)
                else
                  match joined with
                  | None => (internal_error TypeError now, db1)
                  | Some user =>
                      let r := new_tokens env user now in
                      let '(deleted, db2) := refreshToken_delete db1 (rt_id row) in
                      match deleted with
                      | inl e => (internal_error e now, db2)
                      | inr _ =>
                          let '(stored, db3) :=
                            refreshToken_create db2 (rot_refreshToken r)
                              (user_id user) (now + seven_days_ms) tokenRowId in
                          match stored with
                          | inl e => (internal_error e now, db3)
                          | inr _ => (rotated r now, db3)
                          end
                      end
                  end
            end
        end
  end.

(** ** The handler as the event loop runs it

    The handler gives up control at each [await] of a Prisma call, and
    other requests run in between. A step is the code up to and including
    the next Prisma call (and, when that call throws, the [catch] block);
    the states are the points where the handler can be suspended. *)
Inductive State : Type :=
| Started (b : Body)
| Found (storedToken : option (RefreshToken * option User))
| Deleted (r : Rotation)
| Finished (resp : Response).

Record Handler : Type :=
  { h_state : State; h_rowId : string }.

Definition step_state (env : Env) (db : Db) (st : State) (tokenRowId : string)
    (now : Z) : State * Db :=
  match st with
  | Started b =>
      match body_refreshToken b with
      | None => (Finished (bad_request now), db)
      | Some refreshToken =>
          if negb (Js.truthy refreshToken) then (Finished (bad_request now), db)
          else
            match verifyRefreshToken env refreshToken now with
            | inl _ => (Finished (invalid_or_expired now), db)
            | inr _ =>
                let '(storedToken, db1) := refreshToken_findUnique db refreshToken in
                (Found storedToken, db1)
            end
      end
  | Found storedToken =>
      match storedToken with
      | None => (Finished (invalid_or_expired now), db)
      | Some (row, joined) =>
          if rt_expiresAt row <? now then (Finished (invalid_or_expired now), db)
          else
            match joined with
            | None => (Finished (internal_error TypeError now), db)
            | Some user =>
                let r := new_tokens env user now in
                let '(deleted, db2) := refreshToken_delete db (rt_id row) in
                match deleted with
                | inl e => (Finished (internal_error e now), db2)
                | inr _ => (Deleted r, db2)
                end
            end
      end
  | Deleted r =>
      let '(stored, db3) :=
        refreshToken_create db (rot_refreshToken r) (user_id (rot_user r))
          (now + seven_days_ms) tokenRowId in
      match stored with
      | inl e => (Finished (internal_error e now), db3)
      | inr _ => (Finished (rotated r now), db3)
      end
  | Finished resp => (Finished resp, db)
  end.

Definition step (env : Env) (db : Db) (h : Handler) (now : Z) : Handler * Db :=
  let '(st, db') := step_state env db (h_state h) (h_rowId h) now in
  ({| h_state := st; h_rowId := h_rowId h |}, db').

(** The server: the database and the handlers in flight. *)
Record Server : Type :=
  { db : Db; handlers : list Handler }.

(** The event loop resumes handler [i] at the instant [now]. *)
Definition resume (env : Env) (s : Server) (i : nat) (now : Z) : Server :=
  match handlers s !! i with
  | Some h =>
      let '(h', db') := step env (db s) h now in
      {| db := db'; handlers := <[i := h']> (handlers s) |}
  | None => s
  end.

(** A schedule: which handler is resumed, and when. *)
Fixpoint run (env : Env) (s : Server) (schedule : list (nat * Z)) : Server :=
  match schedule with
  | [] => s
  | (i, now) :: rest => run env (resume env s i now) rest
  end.

Definition response_of (h : Handler) : option Response :=
  match h_state h with Finished r => Some r | _ => None end.

Definition finished (h : Handler) : bool :=
  match h_state h with Finished _ => true | _ => false end.

Definition has_status (code : Z) (h : Handler) : bool :=
  match h_state h with Finished r => status r =? code | _ => false end.

(** How many steps a handler in state [st] can still take. *)
Definition rank (st : State) : nat :=
  match st with
  | Started _ => 3
  | Found _ => 2
  | Deleted _ => 1
  | Finished _ => 0
  end.

(** How often a schedule resumes handler [i]. *)
Definition resumed (i : nat) (schedule : list (nat * Z)) : nat :=
  List.length (List.filter (fun entry => Nat.eqb (fst entry) i) schedule).

(** [n] concurrent calls presenting the same token. *)
Definition concurrent_calls (token : string) (rowIds : list string) : list Handler :=
  List.map (fun id =>
              {| h_state := Started {| body_refreshToken := Some token |};
                 h_rowId := id |}) rowIds.

End Handler.

End Refresh.

(* ================================================================== *)
(** * Concurrent refresh calls on one token: the states of a run       *)
(* ================================================================== *)

Module Rotation.

Import Auth Prisma Api Refresh.

Section Invariant.
Context `{JsonWebToken}.
Variables (env : Env) (db0 : Db) (token : string) (row : RefreshToken) (user : User).

(** An instant at which the presented token still verifies, its row has
    not expired, and the token minted for the user is not stored yet. *)
Definition good_instant (now : Z) : Prop :=
  (exists payload, verifyRefreshToken env token now = inr payload)
  /\ (rt_expiresAt row <? now) = false
  /\ find_token (rot_refreshToken (new_tokens env user now)) (refreshTokens db0) = None.

(** A call that has not touched the row yet. *)
Inductive waiting : State -> Prop :=
| waiting_started : waiting (Started (presenting token))
| waiting_found : waiting (Found (Some (row, Some user))).

(** A call that cannot rotate any more, or has failed already. *)
Inductive losing : State -> Prop :=
| losing_waiting st : waiting st -> losing st
| losing_missed : losing (Found None)
| losing_401 now : losing (Finished (invalid_or_expired now))
| losing_500 e now : losing (Finished (internal_error e now)).

(** The call that has deleted the row and not yet inserted the new one. *)
Definition holding (st : State) : Prop :=
  exists now, good_instant now /\ st = Deleted (new_tokens env user now).

Definition won (st : State) : Prop :=
  exists r now, st = Finished (rotated r now).

Definition others_losing (i : nat) (hs : list Handler) : Prop :=
  forall j h, j <> i -> hs !! j = Some h -> losing (h_state h).

Inductive phase (s : Server) : Prop :=
| phase_live :
    refreshTokens (db s) = refreshTokens db0 ->
    Forall (fun h => waiting (h_state h)) (handlers s) ->
    phase s
| phase_rotating i h :
    refreshTokens (db s) = without (rt_id row) (refreshTokens db0) ->
    handlers s !! i = Some h ->
    holding (h_state h) ->
    others_losing i (handlers s) ->
    phase s
| phase_rotated i h new :
    refreshTokens (db s) = without (rt_id row) (refreshTokens db0) ++ [new] ->
    rt_token new <> token ->
    rt_id new <> rt_id row ->
    handlers s !! i = Some h ->
    won (h_state h) ->
    others_losing i (handlers s) ->
    phase s.

Definition key_unused (h : Handler) : Prop :=
  find_token_by_id (h_rowId h) (refreshTokens db0) = None.

Definition invariant (s : Server) : Prop :=
  users (db s) = users db0 /\ Forall key_unused (handlers s) /\ phase s.

End Invariant.

End Rotation.

(* ================================================================== *)
(** * A reference implementation of the two libraries                 *)
(* ================================================================== *)

(** The development is parametric in [JsonWebToken] and [Bcrypt]. To run
    the handlers on concrete requests an implementation is needed; this one
    writes the content of a token field by field, each field preceded by
    its length, so that it can be read back. *)
Module Reference.

Import Auth.

(** A field is written as its length in unary, a ["0"], and its text. *)
Fixpoint ones (n : nat) : string :=
  match n with
  | O => EmptyString
  | S n' => String "1" (ones n')
  end.

Definition encode_field (field : string) : string :=
  ones (String.length field) +:+ String "0" field.

Fixpoint encode_fields (fields : list string) : string :=
  match fields with
  | [] => EmptyString
  | field :: rest => encode_field field +:+ encode_fields rest
  end.

Fixpoint count_ones (s : string) : nat * string :=
  match s with
  | String c rest =>
      if Ascii.eqb c "1" then
        let '(n, rest') := count_ones rest in (S n, rest')
      else (O, s)
  | EmptyString => (O, s)
  end.

Fixpoint split_at (n : nat) (s : string) : option (string * string) :=
  match n with
  | O => Some (EmptyString, s)
  | S n' =>
      match s with
      | String c rest =>
          option_map (fun '(field, rest') => (String c field, rest')) (split_at n' rest)
      | EmptyString => None
      end
  end.

Definition decode_field (s : string) : option (string * string) :=
  let '(n, rest) := count_ones s in
  match rest with
  | String c rest' => if Ascii.eqb c "0" then split_at n rest' else None
  | EmptyString => None
  end.

Fixpoint decode_fields (n : nat) (s : string) : option (list string) :=
  match n with
  | O => match s with EmptyString => Some [] | _ => None end
  | S n' =>
      match decode_field s with
      | Some (field, rest) => option_map (cons field) (decode_fields n' rest)
      | None => None
      end
  end.

(** An integer is written as its sign and its binary digits, lowest first. *)
Fixpoint encode_positive (p : positive) : string :=
  match p with
  | xH => EmptyString
  | xO p' => String "0" (encode_positive p')
  | xI p' => String "1" (encode_positive p')
  end.

Fixpoint decode_positive (s : string) : positive :=
  match s with
  | EmptyString => xH
  | String c rest =>
      if Ascii.eqb c "1" then xI (decode_positive rest) else xO (decode_positive rest)
  end.

Definition encode_Z (z : Z) : string :=
  match z with
  | Z0 => "z"
  | Zpos p => String "p" (encode_positive p)
  | Zneg p => String "n" (encode_positive p)
  end.

Definition decode_Z (s : string) : option Z :=
  match s with
  | String c rest =>
      if Ascii.eqb c "z" then Some Z0
      else if Ascii.eqb c "p" then Some (Zpos (decode_positive rest))
      else if Ascii.eqb c "n" then Some (Zneg (decode_positive rest))
      else None
  | EmptyString => None
  end.

Definition encode_jwt (j : Jwt) : string :=
  encode_fields
    [ jwt_secret j;
      userId (jwt_payload j); email (jwt_payload j); role (jwt_payload j);
      encode_Z (jwt_iat j); encode_Z (jwt_exp j) ].

Definition decode_jwt (s : string) : option Jwt :=
  match decode_fields 6 s with
  | Some [secret; u; e; r; iat; exp] =>
      match decode_Z iat, decode_Z exp with
      | Some i, Some x =>
          Some {| jwt_secret := secret;
                  jwt_payload := {| userId := u; email := e; role := r |};
                  jwt_iat := i; jwt_exp := x |}
      | _, _ => None
      end
  | _ => None
  end.

Lemma append_nil (b : string) : EmptyString +:+ b = b.
Proof. reflexivity. Qed.

Lemma append_cons (c : ascii) (a b : string) :
  String c a +:+ b = String c (a +:+ b).
Proof. reflexivity. Qed.

Lemma append_assoc (a b c : string) : (a +:+ b) +:+ c = a +:+ (b +:+ c).
Proof.
  induction a as [| x a IH]; [reflexivity |].
  rewrite !append_cons, IH. reflexivity.
Qed.

Lemma count_ones_field (n : nat) (rest : string) :
  count_ones (ones n +:+ String "0" rest) = (n, String "0" rest).
Proof.
  induction n as [| n IH]; [reflexivity |].
  simpl ones. rewrite append_cons. simpl count_ones. rewrite IH. reflexivity.
Qed.

Lemma split_at_append (field rest : string) :
  split_at (String.length field) (field +:+ rest) = Some (field, rest).
Proof.
  induction field as [| c field IH]; [reflexivity |].
  rewrite append_cons. simpl. rewrite IH. reflexivity.
Qed.

Lemma decode_encode_field (field rest : string) :
  decode_field (encode_field field +:+ rest) = Some (field, rest).
Proof.
  unfold decode_field, encode_field.
  rewrite append_assoc, append_cons, count_ones_field.
  simpl. apply split_at_append.
Qed.

Lemma decode_encode_fields (fields : list string) :
  decode_fields (List.length fields) (encode_fields fields) = Some fields.
Proof.
  induction fields as [| field rest IH]; simpl; [reflexivity |].
  rewrite decode_encode_field, IH. reflexivity.
Qed.

Lemma decode_encode_positive (p : positive) :
  decode_positive (encode_positive p) = p.
Proof. induction p as [p IH | p IH |]; simpl; [rewrite IH .. |]; reflexivity. Qed.

Lemma decode_encode_Z (z : Z) : decode_Z (encode_Z z) = Some z.
Proof. destruct z; simpl; [| rewrite decode_encode_positive ..]; reflexivity. Qed.

Lemma decode_encode_jwt (j : Jwt) : decode_jwt (encode_jwt j) = Some j.
Proof.
  unfold decode_jwt, encode_jwt.
  rewrite (decode_encode_fields [_; _; _; _; _; _]), !decode_encode_Z.
  destruct j as [secret [u e r] iat exp]. reflexivity.
Qed.

#[export] Instance jsonwebtoken : JsonWebToken :=
  {| jwt_encode := encode_jwt;
     jwt_decode := decode_jwt;
     jwt_decode_encode := decode_encode_jwt;
     jwt_decode_empty := eq_refl |}.

(** A stand-in for bcrypt: the salt, a separator and the password. *)
#[export] Instance bcrypt : Bcrypt :=
  {| bcrypt_hash := fun password _ salt => salt +:+ "$" +:+ password;
     bcrypt_compare := fun password hash => Js.endsWith hash ("$" +:+ password) |}.

End Reference.

(* ================================================================== *)
(** * packages/shared: the text utilities                              *)
(* ================================================================== *)

Module Utils.

Import Shared.

(** The class [\w]. *)
Definition is_word (c : ascii) : bool :=
  Js.is_upper c || Js.is_lower c || Js.is_digit c || is_char "_" c.

(** The characters [[^\w\s-]] does not match. *)
Definition is_kept (c : ascii) : bool :=
  is_word c || Js.is_space c || is_char "-" c.

(** The class [[\s_-]]. *)
Definition is_separator (c : ascii) : bool :=
  Js.is_space c || is_char "_" c || is_char "-" c.

Fixpoint filter_string (keep : ascii -> bool) (s : string) : string :=
  match s with
  | EmptyString => EmptyString
  | String c s' =>
      if keep c then String c (filter_string keep s') else filter_string keep s'
  end.

(** [s.replace(/[^\w\s-]/g, '')] *)
Definition strip_symbols (s : string) : string := filter_string is_kept s.

(** [s.replace(/[\s_-]+/g, '-')]: every maximal run of separators becomes
    one hyphen; [in_run] tells that the character before [s] belongs to a
    run, whose hyphen is written already. *)
Fixpoint hyphenate (in_run : bool) (s : string) : string :=
  match s with
  | EmptyString => EmptyString
  | String c s' =>
      if is_separator c then
        if in_run then hyphenate true s' else String "-" (hyphenate true s')
      else String c (hyphenate false s')
  end.

Fixpoint drop_leading_hyphens (s : string) : string :=
  match s with
  | String c s' => if is_char "-" c then drop_leading_hyphens s' else s
  | EmptyString => EmptyString
  end.

Fixpoint drop_trailing_hyphens (s : string) : string :=
  match s with
  | EmptyString => EmptyString
  | String c s' =>
      match drop_trailing_hyphens s' with
      | EmptyString => if is_char "-" c then EmptyString else String c EmptyString
      | t => String c t
      end
  end.

(** [s.replace(/^-+|-+$/g, '')] *)
Definition trim_hyphens (s : string) : string :=
  drop_trailing_hyphens (drop_leading_hyphens s).

(** [slugify(text)] *)
Definition slugify (text : string) : string :=
  trim_hyphens (hyphenate false (strip_symbols (Js.trim (Js.toLowerCase text)))).

(** The number of maximal runs of whitespace in [s]; [in_run] as above. *)
Fixpoint whitespace_runs (in_run : bool) (s : string) : Z :=
  match s with
  | EmptyString => 0
  | String c s' =>
      if Js.is_space c then
        (if in_run then 0 else 1) + whitespace_runs true s'
      else whitespace_runs false s'
  end.

(** [s.split(/\s+/).length]: the pieces are one more than the separators
    found (the empty string gives the one piece [""]). *)
Definition split_length (s : string) : Z := 1 + whitespace_runs false s.

(** [Math.ceil(a / b)] for integers [a] and [0 < b]. *)
Definition ceil_div (a b : Z) : Z := - ((- a) / b).

(** [calculateReadingTime(content)] *)
Definition calculateReadingTime (content : string) : Z :=
  let wordsPerMinute := 200 in
  let wordCount := split_length (Js.trim content) in
  ceil_div wordCount wordsPerMinute.

(** [truncate(text, length)]; [substring] takes a negative end as 0. *)
Definition truncate (text : string) (length : Z) : string :=
  if Js.length text <=? length then text
  else Js.trim (String.substring 0 (Z.to_nat length) text) +:+ "...".

End Utils.

(* ================================================================== *)
(** * packages/shared: the validators of articles                      *)
(* ================================================================== *)

Module Validators.

Import Shared.

(** [validateTitle(title)]; [None] is an absent field. *)
Definition validateTitle (title : option string) : ValidationResult :=
  let errors :=
    match title with
    | Some t =>
        if negb (Js.truthy t) || (Js.length (Js.trim t) =? 0)
        then ["Title is required"]
        else if Js.length t <? 3
        then ["Title must be at least 3 characters long"]
        else if 200 <? Js.length t
        then ["Title must not exceed 200 characters"]
        else []
    | None => ["Title is required"]
    end in
  result_of errors.

(** [validateContent(content)] *)
Definition validateContent (content : option string) : ValidationResult :=
  let errors :=
    match content with
    | Some c =>
        if negb (Js.truthy c) || (Js.length (Js.trim c) =? 0)
        then ["Content is required"]
        else if Js.length c <? 10
        then ["Content must be at least 10 characters long"]
        else []
    | None => ["Content is required"]
    end in
  result_of errors.

(** The class [[a-z0-9]]. *)
Definition is_slug_char (c : ascii) : bool := Js.is_lower c || Js.is_digit c.

(** [/^[a-z0-9]+(?:-[a-z0-9]+)*$/] *)
Definition slugRegex : regex :=
  Seq (Plus (Class is_slug_char))
    (Star (Seq (Class (is_char "-")) (Plus (Class is_slug_char)))).

(** [validateSlug(slug)] *)
Definition validateSlug (slug : option string) : ValidationResult :=
  let errors :=
    match slug with
    | Some s =>
        if negb (Js.truthy s) then ["Slug is required"]
        else if negb (regex_test slugRegex s)
        then ["Slug must contain only lowercase letters, numbers, and hyphens"]
        else if 100 <? Js.length s
        then ["Slug must not exceed 100 characters"]
        else []
    | None => ["Slug is required"]
    end in
  result_of errors.

End Validators.

(* ================================================================== *)
(** * The validation module: [validateArticle]                         *)
(* ================================================================== *)

Module ArticleValidation.

Import Shared Validators.

(** The fields [validateArticle] reads from its argument. *)
Record ArticleData : Type :=
  { art_title : option string;
    art_content : option string;
    art_slug : option string }.

(** [validateArticle(data)] *)
Definition validateArticle (data : ArticleData) : ValidationResult :=
  let titleValidation := validateTitle (art_title data) in
  let errors1 :=
    if negb (valid titleValidation) then errors titleValidation else [] in
  let contentValidation := validateContent (art_content data) in
  let errors2 :=
    if negb (valid contentValidation)
    then errors1 ++ errors contentValidation else errors1 in
  let errors3 :=
    if Js.truthy_opt (art_slug data) then
      let slugValidation := validateSlug (art_slug data) in
      if negb (valid slugValidation)
      then errors2 ++ errors slugValidation else errors2
    else errors2 in
  result_of errors3.

End ArticleValidation.

(* ================================================================== *)
(** * What the regular expressions match                               *)
(* ================================================================== *)

Module RegexSemantics.

Import Shared.

(** The strings a regular expression denotes. *)
Inductive matches : regex -> string -> Prop :=
| matches_eps : matches Eps EmptyString
| matches_class p c : p c = true -> matches (Class p) (String c EmptyString)
| matches_seq r1 r2 s1 s2 :
    matches r1 s1 -> matches r2 s2 -> matches (Seq r1 r2) (s1 +:+ s2)
| matches_alt_l r1 r2 s : matches r1 s -> matches (Alt r1 r2) s
| matches_alt_r r1 r2 s : matches r2 s -> matches (Alt r1 r2) s
| matches_star_nil r : matches (Star r) EmptyString
| matches_star_cons r s1 s2 :
    matches r s1 -> matches (Star r) s2 -> matches (Star r) (s1 +:+ s2).

(** Every character of [s] is in the class [p]. *)
Fixpoint all_chars (p : ascii -> bool) (s : string) : bool :=
  match s with
  | EmptyString => true
  | String c s' => p c && all_chars p s'
  end.

(** A non-empty string of characters of the class [p]: what [[p]+] matches. *)
Definition word_of (p : ascii -> bool) (w : string) : Prop :=
  w <> EmptyString /\ all_chars p w = true.

End RegexSemantics.

(* ================================================================== *)
(** * The shape of a slug                                              *)
(* ================================================================== *)

Module SlugShape.

Import Shared Validators.

(** Letters and digits separated by single hyphens; [after_hyphen] tells
    that the character before [s] is a hyphen (or that [s] is the whole
    slug), so that a letter or digit has to come next. *)
Fixpoint well_formed_from (after_hyphen : bool) (s : string) : bool :=
  match s with
  | EmptyString => negb after_hyphen
  | String c s' =>
      if is_slug_char c then well_formed_from false s'
      else if is_char "-" c then negb after_hyphen && well_formed_from true s'
      else false
  end.

Definition well_formed (s : string) : bool := well_formed_from true s.

(** The same without the condition on the end of the string. *)
Fixpoint hyphenated (after_hyphen : bool) (s : string) : bool :=
  match s with
  | EmptyString => true
  | String c s' =>
      if is_slug_char c then hyphenated false s'
      else if is_char "-" c then negb after_hyphen && hyphenated true s'
      else false
  end.

(** A letter or a digit, of either case. *)
Definition is_alnum (c : ascii) : bool :=
  Js.is_upper c || Js.is_lower c || Js.is_digit c.

(** The classes of the characters along [slugify]: after [toLowerCase],
    and after the removal of the symbols. *)
Definition not_upper (c : ascii) : bool := negb (Js.is_upper c).
Definition plain (c : ascii) : bool := not_upper c && Utils.is_kept c.

(** [-[a-z0-9]+], the group [slugRegex] repeats. *)
Definition hyphen_word : regex :=
  Seq (Class (is_char "-")) (Plus (Class is_slug_char)).

End SlugShape.

(* ================================================================== *)
(** * The rules of an article                                          *)
(* ================================================================== *)

Module ArticleRules.

Import SlugShape.

(** Not a whitespace character. *)
Definition is_visible (c : ascii) : bool := negb (Js.is_space c).

(** The rules of an article, read off its fields: the title has a visible
    character and 3 to 200 characters in all; the content has a visible
    character and at least 10 characters in all; the slug, when one is
    given, is well formed and has at most 100 characters. *)
Definition title_ok (title : option string) : bool :=
  match title with
  | Some t =>
      Js.exists_char is_visible t && (3 <=? Js.length t) && (Js.length t <=? 200)
  | None => false
  end.

Definition content_ok (content : option string) : bool :=
  match content with
  | Some c => Js.exists_char is_visible c && (10 <=? Js.length c)
  | None => false
  end.

Definition slug_ok (slug : option string) : bool :=
  match slug with
  | Some s => String.eqb s "" || (well_formed s && (Js.length s <=? 100))
  | None => true
  end.

End ArticleRules.

(* ================================================================== *)
(** * app/api/content/route.ts: [POST] up to the choice of the slug    *)
(* ================================================================== *)

Module Content.

Import Shared Utils Validators ArticleValidation.

(** The fields of [await req.json()] that this part of the handler reads. *)
Record Body : Type :=
  { body_title : option string;
    body_content : option string;
    body_slug : option string }.

(** The loop [while (await prisma.article.findUnique({ where: { slug } }))],
    which only reads the table; [taken] is the [slug] column of the article
    table. [None]: the loop has not ended within [fuel] rounds. *)
Fixpoint ensure_unique (fuel : nat) (taken : list string) (baseSlug slug : string)
    (counter : Z) : option string :=
  match fuel with
  | O => None
  | S fuel' =>
      if Js.includes taken slug then
        ensure_unique fuel' taken baseSlug
          (baseSlug +:+ "-" +:+ Js.toString counter) (counter + 1)
      else Some slug
  end.

(** How far the handler has come when the slug is chosen. *)
Inductive Progress : Type :=
| Rejected (status : Z) (details : list string)
| SlugChosen (slug : string)
| Looping.

(** [body.slug || slugify(title)] *)
Definition baseSlug_of (b : Body) (title : string) : string :=
  match body_slug b with
  | Some s => if Js.truthy s then s else slugify title
  | None => slugify title
  end.

(** [POST(req)] from the start to the end of the loop; [userId] is the
    header [x-user-id]. What follows (tags, [article.create]) is not
    part of the embedding. *)
Definition POST_slug (fuel : nat) (taken : list string) (userId : option string)
    (b : Body) : Progress :=
  if negb (Js.truthy_opt userId) then Rejected 401 []
  else
    let validation :=
      validateArticle {| art_title := body_title b;
                         art_content := body_content b;
                         art_slug := None |} in
    if negb (valid validation) then Rejected 400 (errors validation)
    else
      match body_title b with
      | Some title =>
          let baseSlug := baseSlug_of b title in
          match ensure_unique fuel taken baseSlug baseSlug 1 with
          | Some slug => SlugChosen slug
          | None => Looping
          end
      | None =>
          (* not reached: [validateTitle] rejects an absent title *)
          Rejected 500 []
      end.

(** The slugs the loop tries, in order, from the state [(slug, counter)]. *)
Fixpoint candidates (n : nat) (baseSlug slug : string) (counter : Z) : list string :=
  match n with
  | O => []
  | S n' =>
      slug :: candidates n' baseSlug (baseSlug +:+ "-" +:+ Js.toString counter)
                (counter + 1)
  end.

End Content.

(* ================================================================== *)
(** * The cache module: the cache helper functions                     *)
(* ================================================================== *)

Module CacheHelpers.

Import Redis.

(** [JSON.stringify] and [JSON.parse] on the values of a type [T]: what is
    written can be read back, and is never the empty string. [None] is the
    [SyntaxError] of [JSON.parse]. *)
Class Json (T : Type) : Type :=
  { stringify : T -> string;
    parse : string -> option T;
    parse_stringify : forall x, parse (stringify x) = Some x;
    stringify_truthy : forall x, Js.truthy (stringify x) = true }.

(** What a call of [getCached] leaves: its result, the cache, and whether
    it has called the fetcher. *)
Record Fetch (T : Type) : Type :=
  { fetch_result : option T;
    fetch_cache : Cache;
    fetcher_called : bool }.
Arguments fetch_result {T} _.
Arguments fetch_cache {T} _.
Arguments fetcher_called {T} _.

(** [getCached(key, fetcher, ttl = 3600)]; [fetcher] is the value the
    fetcher resolves to when it is called, [now] the instant of the lookup
    and [stored] the instant at which the fetched value is stored. *)
Definition getCached {T} `{Json T} (cache : Cache) (key : string) (fetcher : T)
    (ttl : option Z) (now stored : Z) : Fetch T :=
  let '(cached, cache1) := get cache key now in
  let miss :=
    let data := fetcher in
    {| fetch_result := Some data;
       fetch_cache :=
         setex cache1 key (match ttl with Some s => s | None => 3600 end)
           (stringify data) stored;
       fetcher_called := true |} in
  match cached with
  | Some c =>
      if Js.truthy c then
        {| fetch_result := parse c; fetch_cache := cache1; fetcher_called := false |}
      else miss
  | None => miss
  end.

(** [invalidateCache(pattern)] *)
Definition invalidateCache (cache : Cache) (pattern : string) : Cache :=
  del cache pattern.

(** The seconds an entry stored with [ttl] lives: zero selects the default
    of [set], an hour. *)
Definition lifetime (ttl : option Z) : Z :=
  match ttl with
  | Some s => if s =? 0 then 3600 else s
  | None => 3600
  end.

(** A stand-in for JSON on strings: a marker, then the text. *)
Definition stringify_text (s : string) : string := String "s" s.

Definition parse_text (s : string) : option string :=
  match s with
  | String c rest => if Ascii.eqb c "s" then Some rest else None
  | EmptyString => None
  end.

#[export] Instance text_json : Json string :=
  {| stringify := stringify_text;
     parse := parse_text;
     parse_stringify := fun _ => eq_refl;
     stringify_truthy := fun _ => eq_refl |}.

End CacheHelpers.

(* ================================================================== *)
(** * Requests of several clients at the rate limiter                  *)
(* ================================================================== *)

Module Traffic.

Import Redis.

(** A call [checkLimit(identifier, type)] and its instant. *)
Record Request : Type :=
  { req_identifier : string; req_type : LimitType; req_time : Z }.

(** The cache after the calls [reqs], in order. *)
Fixpoint serve_all (cache : Cache) (reqs : list Request) : Cache :=
  match reqs with
  | [] => cache
  | r :: rest =>
      serve_all
        (snd (checkLimit cache (req_identifier r) (req_type r) (req_time r))) rest
  end.

(** [r] is a call for another bucket than that of [identifier] and [t]. *)
Definition other_bucket (identifier : string) (t : LimitType) (r : Request) : Prop :=
  req_identifier r <> identifier \/ req_type r <> t.

(** Each instant is at most an hour after the one before it, and the first
    is not after [e]. *)
Fixpoint paced (e : Z) (times : list Z) : bool :=
  match times with
  | [] => true
  | now :: rest => (now <=? e) && paced (now + hour_ms) rest
  end.

End Traffic.

(* ================================================================== *)
(** * app/api/content/[id]/publish/route.ts: [POST], its two checks    *)
(* ================================================================== *)

Module Publish.

(** Where the handler stands after its two checks of the request headers. *)
Inductive Gate : Type :=
| Refused (status : Z) (message : string)
| Passed.

(** [userRole !== name], for the result of [req.headers.get]. *)
Definition differs (userRole : option string) (name : string) : bool :=
  match userRole with
  | Some r => negb (String.eqb r name)
  | None => true
  end.

(** [POST(req, { params })] from the start to the permission check; what
    follows (the lookup and the update of the article) is not part of the
    embedding. *)
Definition gate (headers : gmap string string) : Gate :=
  let userId := headers !! "x-user-id" in
  let userRole := headers !! "x-user-role" in
  if negb (Js.truthy_opt userId) then Refused 401 "User not authenticated"
  else if differs userRole "admin" && differs userRole "editor"
  then Refused 403 "You do not have permission to publish articles"
  else Passed.

End Publish.

(* ================================================================== *)
(** * What a login or a registration hands out                         *)
(* ================================================================== *)

Module Sessions.

Import Auth Prisma Api.

Section WithJwt.
Context `{JsonWebToken}.

(** The row [login] and [register] store for a user at [now]. *)
Definition session_row (env : Env) (user : User) (id : string) (now : Z)
    : RefreshToken :=
  {| rt_id := id;
     rt_token := generateRefreshToken env (Refresh.payload_of user) now;
     rt_userId := user_id user;
     rt_expiresAt := now + seven_days_ms |}.

(** The body of a successful [login] or [register] for a user at [now]. *)
Definition session_of (env : Env) (user : User) (now : Z) : AuthPayload :=
  {| user := {| au_id := user_id user;
                au_email := user_email user;
                au_role := Js.toLowerCase (user_role user);
                au_permissions := getPermissions (Js.toLowerCase (user_role user)) |};
     accessToken := generateAccessToken env (Refresh.payload_of user) now;
     refreshToken := generateRefreshToken env (Refresh.payload_of user) now |}.

End WithJwt.

End Sessions.

(* ================================================================== *)
(** * Requests and databases of the examples                           *)
(* ================================================================== *)

Module Examples.

Import Auth Prisma Middleware Reference.

(** A registered user and a database that holds nobody else. *)
Definition alice : User :=
  {| user_id := "u1"; user_email := "alice@example.com";
     user_password := "salt$Passw0rd!"; user_name := "Alice";
     user_role := "VIEWER"; user_createdAt := 0 |}.

Definition only_alice : Db :=
  {| users := [alice]; refreshTokens := []; queries := [] |}.

Definition alice_login : Login.Body :=
  {| Login.body_email := Some "alice@example.com";
     Login.body_password := Some "Passw0rd!" |}.

Definition bob_registration : Register.Body :=
  {| Register.body_email := Some "bob@example.com";
     Register.body_password := Some "Passw0rd!";
     Register.body_name := Some "Bob";
     Register.body_role := Some "Editor" |}.

(** A viewer's request to publish that claims the role [admin] in a header
    of its own. *)
Definition forged : NextRequest :=
  {| pathname := "/api/content/42/publish";
     ip := Some "203.0.113.7";
     headers :=
       {[ "authorization" :=
            "Bearer " +:+ generateAccessToken default_env
                            {| userId := "u1"; email := "alice@example.com";
                               role := "viewer" |} 0;
          "x-user-role" := "admin" ]} |}.

(** The session [alice] is given by a login at instant 0, and a request
    that presents its access token. *)
Definition alice_session : Api.AuthPayload :=
  Sessions.session_of default_env alice 0.

Definition alice_request : NextRequest :=
  {| pathname := "/api/content";
     ip := Some "203.0.113.7";
     headers :=
       {[ "authorization" := "Bearer " +:+ Api.accessToken alice_session ]} |}.

(** [alice] after her role has been raised to editor, with the session of
    a login she made as a viewer. *)
Definition promoted : Db :=
  {| users :=
       [ {| user_id := "u1"; user_email := "alice@example.com";
            user_password := "salt$Passw0rd!"; user_name := "Alice";
            user_role := "EDITOR"; user_createdAt := 0 |} ];
     refreshTokens := [ Sessions.session_row default_env alice "r1" 0 ];
     queries := [] |}.

(** A body that asks for the address of [alice]. *)
Definition alice_again : Register.Body :=
  {| Register.body_email := Some "alice@example.com";
     Register.body_password := Some "An0therPassword";
     Register.body_name := Some "Alice B.";
     Register.body_role := None |}.

(** A new article, and the slugs that are taken. *)
Definition hello_world : Content.Body :=
  {| Content.body_title := Some "Hello, World!";
     Content.body_content := Some "A first article.";
     Content.body_slug := None |}.

Definition taken_slugs : list string := ["hello-world"; "hello-world-1"].

End Examples.

(* ================================================================== *)
(** * Properties                                                       *)
(* ================================================================== *)

(** ** Strings and lists *)

Module BasicFacts.

Lemma falsy_empty (s : string) : Js.truthy s = false -> s = "".
Proof.
  unfold Js.truthy. intros Hf. apply negb_false_iff in Hf.
  apply String.eqb_eq in Hf. exact Hf.
Qed.

Lemma truthy_nonempty (s : string) : s <> "" -> Js.truthy s = true.
Proof.
  intros Hs. unfold Js.truthy. apply negb_true_iff. apply String.eqb_neq. exact Hs.
Qed.

(** [find] on a list extended at its end. *)
Lemma find_app_last {A} (f : A -> bool) (l : list A) (x : A) :
  List.find f l = None ->
  List.find f (l ++ [x]) = if f x then Some x else None.
Proof.
  induction l as [| a l IH]; simpl; [reflexivity |].
  destruct (f a); [discriminate | exact IH].
Qed.

Lemma find_app_none {A} (f : A -> bool) (l : list A) (x : A) :
  List.find f l = None -> f x = false -> List.find f (l ++ [x]) = None.
Proof.
  intros Hl Hx. induction l as [| a l IH]; simpl in *.
  - rewrite Hx. reflexivity.
  - destruct (f a); [discriminate | apply IH; exact Hl].
Qed.

Lemma find_filter_none {A} (f g : A -> bool) (l : list A) :
  List.find f l = None -> List.find f (List.filter g l) = None.
Proof.
  induction l as [| a l IH]; simpl; [reflexivity |].
  destruct (f a) eqn:Hf; [discriminate |]. intros Hn.
  destruct (g a); simpl; [rewrite Hf |]; apply IH; exact Hn.
Qed.

End BasicFacts.

(** ** Permission check *)

Module PermissionFacts.

Import Shared.

Lemma editor_permissions :
  Js.get rolePermissionsTable "editor"
  = Js.Own ["content:*"; "media:*"; "comments:moderate"].
Proof. reflexivity. Qed.

Lemma append_length (a b : string) :
  String.length (a +:+ b) = (String.length a + String.length b)%nat.
Proof.
  induction a as [| c a IH]; [reflexivity |].
  rewrite Reference.append_cons. simpl. rewrite IH. reflexivity.
Qed.

Lemma substring_prefix (a b : string) :
  String.substring 0 (String.length a) (a +:+ b) = a.
Proof.
  induction a as [| c a IH].
  - rewrite Reference.append_nil. destruct b; reflexivity.
  - rewrite Reference.append_cons. simpl. rewrite IH. reflexivity.
Qed.

Lemma substring_suffix (a b : string) :
  String.substring (String.length a) (String.length b) (a +:+ b) = b.
Proof.
  induction a as [| c a IH].
  - rewrite Reference.append_nil. simpl String.length.
    induction b as [| c b IH]; simpl; [reflexivity | rewrite IH; reflexivity].
  - rewrite Reference.append_cons. simpl. exact IH.
Qed.

(** An entry [resource:*] compares the permission against [resource], the
    text before [":*"], without the colon. *)
Lemma wildcard_is_prefix_match (resource permission : string) :
  permission_matches permission (resource +:+ ":*")
  = Js.startsWith permission resource.
Proof.
  unfold permission_matches, Js.endsWith, Js.slice_drop_last, Js.substring_from.
  rewrite append_length. simpl String.length.
  replace (String.length resource + 2 - 2)%nat with (String.length resource) by lia.
  replace (String.length resource + 2 - String.length resource)%nat with 2%nat by lia.
  pose proof (substring_suffix resource ":*") as Hsuffix.
  simpl String.length in Hsuffix.
  rewrite Hsuffix, (substring_prefix resource ":*").
  replace (2 <=? String.length resource + 2)%nat with true
    by (symmetry; apply Nat.leb_le; lia).
  reflexivity.
Qed.

(** C8. For role [editor] the check grants [content:create] through the
    entry [content:*] and denies [comments:moderateAll], which no entry
    matches. An entry [resource:*] is a plain prefix match on [resource]:
    every permission string starting with [content], such as
    [contentx:read], is granted to [editor] too. *)
Theorem editor_wildcard_is_plain_prefix :
  hasPermission "editor" "content:create" = Some true
  /\ permission_matches "content:create" "content:*" = true
  /\ hasPermission "editor" "comments:moderateAll" = Some false
  /\ Forall (fun p => permission_matches "comments:moderateAll" p = false)
       ["content:*"; "media:*"; "comments:moderate"]
  /\ (forall resource permission : string,
        permission_matches permission (resource +:+ ":*")
        = Js.startsWith permission resource)
  /\ hasPermission "editor" "contentx:read" = Some true
  /\ forall permission : string,
       Js.startsWith permission "content" = true ->
       hasPermission "editor" permission = Some true.
Proof.
  split; [reflexivity |]. split; [reflexivity |]. split; [reflexivity |].
  split; [repeat constructor |]. split; [exact wildcard_is_prefix_match |].
  split; [reflexivity |].
  intros permission Hpre.
  unfold hasPermission. rewrite editor_permissions.
  change (Js.includes _ "*") with false. cbv iota.
  f_equal. unfold Js.some.
  change (existsb (permission_matches permission)
            ["content:*"; "media:*"; "comments:moderate"])
    with (permission_matches permission ("content" +:+ ":*")
          || existsb (permission_matches permission)
               ["media:*"; "comments:moderate"]).
  rewrite wildcard_is_prefix_match, Hpre. reflexivity.
Qed.

(** The prefix clause of C8 at [contentx:read]. *)
Lemma editor_wildcard_is_plain_prefix_witness :
  Js.startsWith "contentx:read" "content" = true
  /\ hasPermission "editor" "contentx:read" = Some true.
Proof.
  split; [reflexivity |].
  apply (proj2 (proj2 (proj2 (proj2 (proj2 (proj2 editor_wildcard_is_plain_prefix)))))).
  reflexivity.
Defined.

End PermissionFacts.

(** ** Decimal numerals *)

Module NumeralFacts.

Lemma leading_digits_string_of_uint (d : uint) :
  Js.leading_digits (NilEmpty.string_of_uint d) = d.
Proof. induction d; simpl; [reflexivity | rewrite IHd; reflexivity ..]. Qed.

Lemma string_of_uint_shape (d : uint) :
  d <> Nil ->
  exists c s, NilZero.string_of_uint d = String c s
              /\ Js.is_digit c = true.
Proof.
  destruct d; intros Hd; [contradiction | simpl; eauto ..].
Qed.

Lemma to_uint_nonnil (n : N) : N.to_uint n <> Nil.
Proof.
  destruct n; simpl; [discriminate | apply DecimalPos.Unsigned.to_uint_nonnil].
Qed.

Lemma digit_not_space (c : ascii) : Js.is_digit c = true -> Js.is_space c = false.
Proof.
  unfold Js.is_digit, Js.is_space, Js.in_range.
  intros Hd. apply andb_prop in Hd as [H1 H2].
  apply Nat.leb_le in H1. apply Nat.leb_le in H2.
  apply orb_false_intro.
  - apply andb_false_intro2. apply Nat.leb_gt. lia.
  - apply Nat.eqb_neq. lia.
Qed.

Lemma digit_not_sign (c : ascii) :
  Js.is_digit c = true -> c <> "-"%char /\ c <> "+"%char.
Proof. intros Hd; split; intros ->; discriminate Hd. Qed.

(** [parseInt] reads back what [toString] prints. *)
Lemma parseInt_toString (n : Z) : 0 <= n -> Js.parseInt (Js.toString n) = Some n.
Proof.
  intros Hn. unfold Js.toString.
  assert (Hs : Js.parseInt (NilZero.string_of_uint (N.to_uint (Z.to_N n))) = Some n).
  { destruct (string_of_uint_shape (N.to_uint (Z.to_N n)) (to_uint_nonnil _))
      as (c & s & Hcs & Hc).
    unfold Js.parseInt. rewrite Hcs. simpl Js.trimStart.
    rewrite (digit_not_space c Hc).
    destruct (digit_not_sign c Hc) as [Hm Hp].
    assert (Hu : Js.parse_unsigned (String c s) = Some n).
    { rewrite <- Hcs. unfold Js.parse_unsigned.
      assert (Hl : Js.leading_digits (NilZero.string_of_uint (N.to_uint (Z.to_N n)))
                   = N.to_uint (Z.to_N n)).
      { pose proof (to_uint_nonnil (Z.to_N n)) as Hnn.
        destruct (N.to_uint (Z.to_N n)) eqn:E; try contradiction;
          simpl; rewrite leading_digits_string_of_uint; reflexivity. }
      rewrite Hl.
      pose proof (to_uint_nonnil (Z.to_N n)) as Hnn.
      destruct (N.to_uint (Z.to_N n)) eqn:E; try contradiction;
        rewrite <- E, DecimalN.Unsigned.of_to, Z2N.id by lia; reflexivity. }
    destruct c as [b0 b1 b2 b3 b4 b5 b6 b7].
    destruct b0, b1, b2, b3, b4, b5, b6, b7;
      try exact Hu; try (exfalso; apply Hm; reflexivity);
      try (exfalso; apply Hp; reflexivity). }
  destruct n; try exact Hs. lia.
Qed.

Lemma truthy_toString (n : Z) : 0 <= n -> Js.truthy (Js.toString n) = true.
Proof.
  intros Hn. unfold Js.toString.
  assert (Hs : Js.truthy (NilZero.string_of_uint (N.to_uint (Z.to_N n))) = true).
  { destruct (string_of_uint_shape (N.to_uint (Z.to_N n)) (to_uint_nonnil _))
      as (c & s & Hcs & _).
    rewrite Hcs. reflexivity. }
  destruct n; exact Hs || reflexivity.
Qed.

End NumeralFacts.

(** ** Rate limiter *)

Module RateLimitFacts.

Import Redis NumeralFacts.

Lemma get_live (cache : Cache) (key : string) (item : Item) (now : Z) :
  cache !! key = Some item -> now <= expiry item ->
  get cache key now = (Some (value item), cache).
Proof.
  intros E Hle. unfold get. rewrite E.
  destruct (expiry item <? now) eqn:Hlt; [| reflexivity].
  apply Z.ltb_lt in Hlt. lia.
Qed.

(** [incr] when no live entry exists: the count restarts at 1. *)
Lemma incr_fresh (cache : Cache) (key : string) (now : Z) :
  fst (get cache key now) = None ->
  incr cache key now = (Some 1, <[key := counted 1 now]> (snd (get cache key now))).
Proof.
  intros Hnone. unfold incr.
  destruct (get cache key now) as [current cache1]. simpl in Hnone. subst current.
  reflexivity.
Qed.

(** [incr] on a live entry: the count goes up by one, and [set] gives the
    entry a new expiry, one hour from now. *)
Lemma incr_live (cache : Cache) (key : string) (n e now : Z) :
  cache !! key = Some {| value := Js.toString n; expiry := e |} ->
  0 <= n -> now <= e ->
  incr cache key now = (Some (n + 1), <[key := counted (n + 1) now]> cache).
Proof.
  intros E Hn Hle. unfold incr.
  rewrite (get_live cache key _ now E Hle). simpl value.
  rewrite truthy_toString by exact Hn.
  rewrite parseInt_toString by exact Hn. simpl option_map.
  unfold number_toString. rewrite parseInt_toString by lia.
  reflexivity.
Qed.

Lemma expire_same (cache : Cache) (key : string) (n now : Z) :
  expire (<[key := counted n now]> cache) key window now
  = <[key := counted n now]> cache.
Proof.
  unfold expire. rewrite lookup_insert_eq. simpl.
  rewrite insert_insert_eq. reflexivity.
Qed.

Lemma checkLimit_fresh (cache : Cache) (identifier : string) (t : LimitType) (now : Z) :
  fst (get cache (rate_key identifier t) now) = None ->
  checkLimit cache identifier t now
  = (result_of_count t 1 now,
     <[rate_key identifier t := counted 1 now]>
       (snd (get cache (rate_key identifier t) now))).
Proof.
  intros Hnone. unfold checkLimit. rewrite (incr_fresh _ _ _ Hnone).
  rewrite expire_same. reflexivity.
Qed.

Lemma checkLimit_live (cache : Cache) (identifier : string) (t : LimitType)
    (n e now : Z) :
  cache !! rate_key identifier t = Some {| value := Js.toString n; expiry := e |} ->
  0 <= n -> now <= e ->
  checkLimit cache identifier t now
  = (result_of_count t (n + 1) now,
     <[rate_key identifier t := counted (n + 1) now]> cache).
Proof.
  intros E Hn Hle. unfold checkLimit. rewrite (incr_live _ _ _ _ _ E Hn Hle).
  assert (Hc : (match n + 1 with
                | 1 => expire (<[rate_key identifier t := counted (n + 1) now]> cache)
                         (rate_key identifier t) window now
                | _ => <[rate_key identifier t := counted (n + 1) now]> cache
                end) = <[rate_key identifier t := counted (n + 1) now]> cache).
  { destruct (n + 1) as [| [p | p |] | p]; try reflexivity. apply expire_same. }
  rewrite Hc. reflexivity.
Qed.

(** Every request, first of its window or not, leaves the entry expiring
    one hour after itself. *)
Lemma checkLimit_sets_expiry (cache : Cache) (identifier : string)
    (t : LimitType) (now : Z) :
  expiry <$> snd (checkLimit cache identifier t now) !! rate_key identifier t
  = Some (now + hour_ms).
Proof.
  unfold checkLimit, incr.
  destruct (get cache (rate_key identifier t) now) as [current cache1].
  set (newValue := number_toString _).
  unfold set.
  destruct (Js.parseInt newValue) as [[| [p | p |] | p] |]; simpl;
    unfold expire; rewrite ?lookup_insert_eq; simpl;
    rewrite ?lookup_insert_eq; reflexivity.
Qed.

Lemma serve_length (times : list Z) (cache : Cache) (identifier : string)
    (t : LimitType) :
  List.length (fst (serve cache identifier t times)) = List.length times.
Proof.
  revert cache. induction times as [| now rest IH]; intros cache; simpl.
  - reflexivity.
  - destruct (checkLimit cache identifier t now) as [r cache1].
    specialize (IH cache1).
    destruct (serve cache1 identifier t rest) as [rs cache2].
    simpl in *. rewrite IH. reflexivity.
Qed.

(** Requests that find a live entry counting [n]: the one at position [k]
    (from 0) counts [n + k + 1]. *)
Lemma serve_live (times : list Z) :
  forall (cache : Cache) (identifier : string) (t : LimitType) (n e first : Z),
    cache !! rate_key identifier t = Some {| value := Js.toString n; expiry := e |} ->
    0 <= n -> first + hour_ms <= e ->
    in_window_of first times = true ->
    forall (k : nat) (r : LimitResult),
      nth_error (fst (serve cache identifier t times)) k = Some r ->
      exists now, r = result_of_count t (n + Z.of_nat (S k)) now.
Proof.
  induction times as [| now rest IH]; intros cache identifier t n e first E Hn He Hw k r Hk.
  - destruct k; discriminate Hk.
  - simpl in Hw. apply andb_prop in Hw as [Hnow Hrest].
    apply andb_prop in Hnow as [Hlo Hhi].
    apply Z.leb_le in Hlo. apply Z.leb_le in Hhi. fold hour_ms in Hhi.
    simpl in Hk.
    rewrite (checkLimit_live cache identifier t n e now E Hn) in Hk by lia.
    destruct (serve (<[rate_key identifier t := counted (n + 1) now]> cache)
                identifier t rest) as [rs cache2] eqn:Es.
    destruct k as [| k]; simpl in Hk.
    + injection Hk as <-. exists now. f_equal; lia.
    + assert (Hk' : nth_error
                      (fst (serve (<[rate_key identifier t := counted (n + 1) now]> cache)
                              identifier t rest)) k = Some r)
        by (rewrite Es; exact Hk).
      destruct (IH _ identifier t (n + 1) (now + hour_ms) first
                  (lookup_insert_eq _ _ _) ltac:(lia) ltac:(lia) Hrest k r Hk')
        as [now' Hr].
      exists now'. rewrite Hr. f_equal; lia.
Qed.

(** Requests of one window, the first of which finds no live entry: the
    one at position [k] (from 0) counts [k + 1]. *)
Lemma serve_window (cache : Cache) (identifier : string) (t : LimitType)
    (first : Z) (later : list Z) :
  fst (get cache (rate_key identifier t) first) = None ->
  in_window_of first later = true ->
  forall (k : nat) (r : LimitResult),
    nth_error (fst (serve cache identifier t (first :: later))) k = Some r ->
    exists now, r = result_of_count t (Z.of_nat (S k)) now.
Proof.
  intros Hnone Hw k r Hk. simpl in Hk.
  rewrite (checkLimit_fresh _ _ _ _ Hnone) in Hk.
  destruct (serve _ identifier t later) as [rs cache2] eqn:Es.
  destruct k as [| k]; simpl in Hk.
  - injection Hk as <-. exists first. reflexivity.
  - match type of Es with serve ?c _ _ _ = _ =>
      assert (Hk' : nth_error (fst (serve c identifier t later)) k = Some r)
        by (rewrite Es; exact Hk);
      destruct (serve_live later c identifier t 1 (first + hour_ms) first
                  (lookup_insert_eq _ _ _) ltac:(lia) ltac:(lia) Hw k r Hk')
        as [now' Hr]
    end.
    exists now'. rewrite Hr. f_equal; lia.
Qed.

(** C6. Within one window (the first request finds no live entry, the
    later ones arrive within the hour that follows it) the k-th request is
    allowed exactly when k is at most the ceiling of its bucket, and the
    remaining quota it reports is max(0, ceiling - k): request number
    ceiling is allowed, request number ceiling + 1 is rejected; for the
    anonymous ceiling of 100, requests 1 to 100 are allowed and request
    101 is rejected. *)
Theorem kth_request_allowed_iff_within_ceiling
    (t : LimitType) (identifier : string) (cache : Cache)
    (first : Z) (later : list Z)
    (Hfresh : fst (get cache (rate_key identifier t) first) = None)
    (Hwindow : in_window_of first later = true) :
  let results := fst (serve cache identifier t (first :: later)) in
  List.length results = S (List.length later)
  /\ forall (k : nat) (r : LimitResult),
       nth_error results k = Some r ->
       let count := Z.of_nat (S k) in
       allowed r = (count <=? limits t)
       /\ remaining r = Some (Z.max 0 (limits t - count))
       /\ (count <= limits t -> allowed r = true)
       /\ (count = limits t + 1 -> allowed r = false)
       /\ (t = anonymous ->
           (count <= 100 -> allowed r = true) /\ (count = 101 -> allowed r = false)).
Proof.
  intros results. split.
  - apply (serve_length (first :: later)).
  - intros k r Hk count.
    destruct (serve_window cache identifier t first later Hfresh Hwindow k r Hk)
      as [now ->].
    fold count. simpl allowed. simpl remaining.
    repeat split.
    + intros Hle. apply Z.leb_le. exact Hle.
    + intros Heq. apply Z.leb_gt. lia.
    + subst t. intros Hle. apply Z.leb_le. simpl. exact Hle.
    + subst t. intros Heq. apply Z.leb_gt. simpl. lia.
Qed.

(** C6 on 101 anonymous requests one second apart, from an empty cache. *)
Lemma kth_request_allowed_iff_within_ceiling_witness :
  let times := List.map (fun i => Z.of_nat i * 1000) (seq 1 100) in
  let results := fst (serve ∅ "203.0.113.7" anonymous (0 :: times)) in
  fst (get ∅ (rate_key "203.0.113.7" anonymous) 0) = None
  /\ in_window_of 0 times = true
  /\ List.length results = 101%nat
  /\ forall (k : nat) (r : LimitResult),
       nth_error results k = Some r ->
       let count := Z.of_nat (S k) in
       allowed r = (count <=? 100)
       /\ remaining r = Some (Z.max 0 (100 - count))
       /\ (count <= 100 -> allowed r = true)
       /\ (count = 100 + 1 -> allowed r = false)
       /\ (anonymous = anonymous ->
           (count <= 100 -> allowed r = true) /\ (count = 101 -> allowed r = false)).
Proof.
  intros times results.
  split; [reflexivity |]. split; [reflexivity |].
  apply (kth_request_allowed_iff_within_ceiling anonymous "203.0.113.7" ∅ 0 times);
    reflexivity.
Defined.

(** C5, evaluated. Three anonymous requests of one client, at 0 s, 1 s and
    3600.5 s, from an empty cache. The first sets the expiry to 3600 s; the
    second, inside that window, moves it to 3601 s; the third arrives after
    the expiry the first one set and still continues the count (it is
    request 3 with 97 remaining, not request 1 of a fresh window). *)
Theorem later_request_moves_window_expiry :
  let key := rate_key "203.0.113.7" anonymous in
  let step1 := checkLimit ∅ "203.0.113.7" anonymous 0 in
  let step2 := checkLimit (snd step1) "203.0.113.7" anonymous 1000 in
  let step3 := checkLimit (snd step2) "203.0.113.7" anonymous 3600500 in
  snd step1 !! key = Some {| value := "1"; expiry := 3600000 |}
  /\ resetAt (fst step1) = 3600000
  /\ snd step2 !! key = Some {| value := "2"; expiry := 3601000 |}
  /\ snd step3 !! key = Some {| value := "3"; expiry := 7200500 |}
  /\ remaining (fst step3) = Some 97.
Proof. vm_compute. repeat split; reflexivity. Qed.

End RateLimitFacts.

(** ** Middleware *)

Module MiddlewareFacts.

Import Auth Redis Middleware.

Lemma substring_all (s : string) : String.substring 0 (String.length s) s = s.
Proof. induction s as [| c s IH]; simpl; [reflexivity | rewrite IH; reflexivity]. Qed.

(** [extractToken] returns what follows the prefix. *)
Lemma extractToken_bearer (token : string) :
  extractToken (Some ("Bearer " +:+ token)) = Some token.
Proof.
  unfold extractToken, Js.substring_from. simpl.
  change ("" +:+ token) with token.
  replace (Js.startsWith token "") with true by (destruct token; reflexivity).
  simpl. rewrite Nat.sub_0_r, substring_all. reflexivity.
Qed.

Lemma extractToken_not_bearer (h : string) :
  Js.startsWith h "Bearer " = false -> extractToken (Some h) = None.
Proof.
  intros Hp. unfold extractToken. rewrite Hp, orb_true_r. reflexivity.
Qed.

(** Closes the clauses about one outcome of the middleware. *)
Ltac settle_outcome :=
  simpl; repeat split;
  try (eexists; split; [reflexivity |]);
  intros; try reflexivity; try discriminate.

Section WithJwt.
Context `{JsonWebToken}.

Lemma verify_empty (env : Env) (now : Z) :
  verifyAccessToken env "" now = inl JsonWebTokenError.
Proof.
  unfold verifyAccessToken, jwt_verify. rewrite jwt_decode_empty. reflexivity.
Qed.

(** C7, as the code has it. A request to a public route (a path that
    starts with [/_next] or [/static], or one of the login, register and
    refresh endpoints) is forwarded without any call to the rate limiter. For every other request
    the call to the rate limiter comes first and its cache update is kept;
    when the limiter rejects, the answer is the 429 response and no token
    is verified; the request is forwarded only when the limiter admits. *)
Theorem limiter_runs_first_except_public_routes
    (env : Env) (cache : Cache) (req : NextRequest) (now : Z) :
  let o := middleware env cache req now in
  let identifier := identifier_of req in
  let t := rateLimitType_of (headers req !! "authorization") in
  let limit := checkLimit cache identifier t now in
  if is_public (pathname req) then
    response o = next None /\ calls o = [] /\ cache_after o = cache
  else
    (exists rest, calls o = CheckLimit identifier t :: rest
                  /\ (allowed (fst limit) = false -> rest = []))
    /\ cache_after o = snd limit
    /\ (allowed (fst limit) = false -> response o = too_many_requests (fst limit) now)
    /\ (forall h, response o = next h -> allowed (fst limit) = true).
Proof.
  intros o identifier t limit. subst o. unfold middleware.
  destruct (is_public (pathname req)); [repeat split |].
  fold identifier. fold t. fold limit.
  destruct limit as [rateLimit cache1]. simpl fst. simpl snd.
  destruct (allowed rateLimit) eqn:Ha; simpl negb; cbv iota.
  - destruct (Js.startsWith (pathname req) "/api").
    + destruct (extractToken (headers req !! "authorization")) as [token |].
      * destruct (negb (Js.truthy token)); [settle_outcome |].
        destruct (verifyAccessToken env token now); settle_outcome.
      * settle_outcome.
    + settle_outcome.
  - settle_outcome.
Qed.


End WithJwt.

Import Reference.

(** C7 fails for the public routes: a login request of a client whose
    bucket is used up is forwarded, and the limiter is neither consulted
    nor charged. *)
Lemma login_request_bypasses_limiter :
  let req := {| pathname := "/api/auth/login";
                ip := Some "203.0.113.7"; headers := ∅ |} in
  allowed (fst (checkLimit saturated (identifier_of req)
                  (rateLimitType_of (headers req !! "authorization")) 1000)) = false
  /\ middleware default_env saturated req 1000
     = {| response := next None; cache_after := saturated; calls := [] |}.
Proof. split; reflexivity. Qed.



End MiddlewareFacts.

(** ** Registration *)

Module RegisterFacts.

Import BasicFacts Auth Prisma Api Shared Validation Register.

Lemma validateEmail_valid (email : option string) :
  valid (validateEmail email) = email_ok email.
Proof.
  destruct email as [e |]; [| reflexivity].
  unfold validateEmail, email_ok.
  destruct (Js.truthy e) eqn:Ht; simpl.
  - destruct (regex_test emailRegex e); reflexivity.
  - apply falsy_empty in Ht. subst e. reflexivity.
Qed.

Lemma validatePassword_valid (password : option string) :
  valid (validatePassword password) = password_ok password.
Proof.
  destruct password as [p |]; [| reflexivity].
  unfold validatePassword, password_ok.
  destruct (Js.truthy p) eqn:Ht; simpl.
  - rewrite (Z.leb_antisym (Js.length p) 8).
    destruct (Js.length p <? 8), (Js.exists_char Js.is_upper p),
      (Js.exists_char Js.is_lower p), (Js.exists_char Js.is_digit p);
      reflexivity.
  - apply falsy_empty in Ht. subst p. reflexivity.
Qed.

Lemma name_too_short_spec (name : option string) :
  name_too_short name = negb (name_ok name).
Proof.
  destruct name as [n |]; [| reflexivity].
  unfold name_too_short, name_ok.
  rewrite (Z.leb_antisym (Js.length (Js.trim n)) 2), negb_involutive.
  destruct (Js.truthy n) eqn:Ht; simpl; [reflexivity |].
  apply falsy_empty in Ht. subst n. reflexivity.
Qed.

Lemma result_of_valid (errs : list string) :
  valid (result_of errs) = match errs with [] => true | _ => false end.
Proof. destruct errs; reflexivity. Qed.

(** The validator accepts exactly the bodies that meet the rules. *)
Lemma validateRegistration_valid (b : Body) :
  valid (validateRegistration (data_of b)) = meets_rules b.
Proof.
  unfold validateRegistration, meets_rules. simpl.
  rewrite name_too_short_spec.
  rewrite <- validateEmail_valid, <- validatePassword_valid.
  unfold validateEmail, validatePassword.
  set (ee := match body_email b with
             | Some e => _ | None => _ end).
  set (pe := match body_password b with
             | Some p => _ | None => _ end).
  rewrite !result_of_valid. simpl errors.
  destruct ee as [| e1 ee]; destruct pe as [| p1 pe];
    destruct (name_ok (body_name b)); simpl; try reflexivity;
    rewrite result_of_valid; try reflexivity;
    destruct ee; reflexivity.
Qed.

Section WithLibraries.
Context `{JsonWebToken} `{Bcrypt}.



End WithLibraries.

Import Reference.



End RegisterFacts.

(** ** Login *)

Module LoginFacts.

Import BasicFacts Auth Prisma Api Login.

Section WithLibraries.
Context `{JsonWebToken} `{Bcrypt}.


End WithLibraries.

Import Reference.


End LoginFacts.

(** ** Refresh: rotation *)

Module RefreshFacts.

Import BasicFacts Auth Prisma Api Refresh.

Lemma find_none_not_in (token : string) (rows : list RefreshToken) :
  ~ List.In token (List.map rt_token rows) -> find_token token rows = None.
Proof.
  induction rows as [| r rows IH]; simpl; [reflexivity |].
  intros Hnin. destruct (String.eqb (rt_token r) token) eqn:E.
  - apply String.eqb_eq in E. exfalso. apply Hnin. left. exact E.
  - apply IH. intros Hin. apply Hnin. right. exact Hin.
Qed.

(** [token] is a unique column: once the row found for a token is
    deleted, no row carries that token. *)
Lemma deleted_token_is_gone (token : string) (row : RefreshToken)
    (rows : list RefreshToken) :
  List.NoDup (List.map rt_token rows) ->
  find_token token rows = Some row ->
  find_token token (without (rt_id row) rows) = None.
Proof.
  induction rows as [| r rows IH]; simpl; [discriminate |].
  intros Hnd Hfind. inversion Hnd as [| ? ? Hnotin Hnd']; subst.
  destruct (String.eqb (rt_token r) token) eqn:E.
  - injection Hfind as ->. rewrite String.eqb_refl. simpl.
    apply String.eqb_eq in E. subst token.
    apply find_filter_none. apply find_none_not_in. exact Hnotin.
  - destruct (negb (String.eqb (rt_id r) (rt_id row))); simpl.
    + rewrite E. apply IH; assumption.
    + apply IH; assumption.
Qed.

Lemma deleted_id_is_gone (id : string) (rows : list RefreshToken) :
  find_token_by_id id (without id rows) = None.
Proof.
  induction rows as [| r rows IH]; simpl; [reflexivity |].
  destruct (String.eqb (rt_id r) id) eqn:E; simpl; [exact IH |].
  rewrite E. exact IH.
Qed.

Lemma found_token_has_id (token : string) (row : RefreshToken)
    (rows : list RefreshToken) :
  find_token token rows = Some row ->
  exists r, find_token_by_id (rt_id row) rows = Some r.
Proof.
  intros Hf. apply List.find_some in Hf as [Hin _].
  destruct (find_token_by_id (rt_id row) rows) as [r |] eqn:E; [eauto |].
  exfalso. apply (List.find_none _ _ E) in Hin.
  rewrite String.eqb_refl in Hin. discriminate.
Qed.

Section WithJwt.
Context `{JsonWebToken}.

(** Tokens signed for the same payload within one clock second are the
    same string. *)
Lemma same_second_same_token (env : Env) (payload : TokenPayload) (now now' : Z) :
  clockTimestamp now = clockTimestamp now' ->
  generateRefreshToken env payload now = generateRefreshToken env payload now'.
Proof.
  intros Hs. unfold generateRefreshToken, jwt_sign. rewrite Hs. reflexivity.
Qed.

(** What a 200 answer of the uninterrupted handler tells. *)
Lemma POST_success (env : Env) (db : Db) (token : string) (now : Z) (id : string) :
  status (fst (POST env db (presenting token) now id)) = 200 ->
  exists row user,
    find_token token (refreshTokens db) = Some row
    /\ find_user_by_id (rt_userId row) (users db) = Some user
    /\ fst (POST env db (presenting token) now id)
       = rotated (new_tokens env user now) now
    /\ refreshTokens (snd (POST env db (presenting token) now id))
       = without (rt_id row) (refreshTokens db)
         ++ [new_row (new_tokens env user now) id now]
    /\ users (snd (POST env db (presenting token) now id)) = users db.
Proof.
  unfold POST, presenting. simpl body_refreshToken. cbv beta iota.
  destruct (negb (Js.truthy token)); [intros Hs; simpl in Hs; discriminate Hs |].
  destruct (verifyRefreshToken env token now) as [e | payload]; [intros Hs; simpl in Hs; discriminate Hs |].
  unfold refreshToken_findUnique.
  destruct (find_token token (refreshTokens db)) as [row |] eqn:Hrow;
    simpl option_map; cbv beta iota; [| intros Hs; simpl in Hs; discriminate Hs].
  destruct (rt_expiresAt row <? now); [intros Hs; simpl in Hs; discriminate Hs |].
  destruct (find_user_by_id (rt_userId row) (users db)) as [user |] eqn:Huser;
    [| intros Hs; simpl in Hs; discriminate Hs].
  unfold refreshToken_delete. simpl refreshTokens.
  destruct (find_token_by_id (rt_id row) (refreshTokens db));
    cbv beta iota zeta; [| intros Hs; simpl in Hs; discriminate Hs].
  unfold refreshToken_create. simpl refreshTokens.
  fold (without (rt_id row) (refreshTokens db)).
  destruct (find_token_by_id id (without (rt_id row) (refreshTokens db)));
    cbv beta iota zeta; [intros Hs; simpl in Hs; discriminate Hs |].
  destruct (find_token _ (without (rt_id row) (refreshTokens db)));
    cbv beta iota zeta; [intros Hs; simpl in Hs; discriminate Hs |].
  intros _. exists row, user.
  repeat split; first [exact Hrow | exact Huser | reflexivity].
Qed.

(** Rotation is single-use whenever the token it mints differs from the
    one presented: the old row is gone, so presenting the old token again
    is answered 401 at any later instant. *)
Lemma rotated_token_is_rejected
    (env : Env) (db : Db) (token : string) (now : Z) (id : string)
    (Hunique : List.NoDup (List.map rt_token (refreshTokens db)))
    (Hok : status (fst (POST env db (presenting token) now id)) = 200)
    (Hnew : forall data,
        body (fst (POST env db (presenting token) now id)) = success data ->
        refreshToken data <> token) :
  forall (now' : Z) (id' : string),
    fst (POST env (snd (POST env db (presenting token) now id))
           (presenting token) now' id')
    = invalid_or_expired now'.
Proof.
  intros now' id'.
  assert (Htruthy : Js.truthy token = true).
  { revert Hok. unfold POST, presenting. simpl body_refreshToken. cbv beta iota.
    destruct (Js.truthy token); [reflexivity |].
    intros Hs. simpl in Hs. discriminate Hs. }
  destruct (POST_success env db token now id Hok)
    as (row & user & Hrow & _ & Hresp & Hrows & Husers).
  assert (Hdiff : rot_refreshToken (new_tokens env user now) <> token).
  { apply (Hnew _ (f_equal body Hresp)). }
  destruct (POST env db (presenting token) now id) as [resp db'].
  simpl in Hrows, Husers |- *.
  unfold POST, presenting. simpl body_refreshToken. cbv beta iota.
  rewrite Htruthy. simpl negb. cbv iota.
  destruct (verifyRefreshToken env token now'); [reflexivity |].
  unfold refreshToken_findUnique. rewrite Hrows.
  unfold find_token.
  rewrite (find_app_none _ _ _ (deleted_token_is_gone token row _ Hunique Hrow)).
  - reflexivity.
  - simpl. apply String.eqb_neq. exact Hdiff.
Qed.

(** A rotation in the clock second in which the presented token was
    signed mints that same token: after the 200 answer the presented token
    is stored again, in the new row. *)
Lemma rotation_in_issuing_second_keeps_token
    (env : Env) (db : Db) (row : RefreshToken) (user : User)
    (issued now : Z) (id : string)
    (Hunique : List.NoDup (List.map rt_token (refreshTokens db)))
    (Hrow : find_token (generateRefreshToken env (payload_of user) issued)
              (refreshTokens db) = Some row)
    (Huser : find_user_by_id (rt_userId row) (users db) = Some user)
    (Hsecond : clockTimestamp issued = clockTimestamp now)
    (Hok : status (fst (POST env db
                          (presenting (generateRefreshToken env (payload_of user) issued))
                          now id)) = 200) :
  find_token (generateRefreshToken env (payload_of user) issued)
    (refreshTokens (snd (POST env db
                           (presenting (generateRefreshToken env (payload_of user) issued))
                           now id)))
  = Some (new_row (new_tokens env user now) id now).
Proof.
  destruct (POST_success env db _ now id Hok)
    as (row' & user' & Hrow' & Huser' & _ & Hrows & _).
  rewrite Hrow in Hrow'. injection Hrow' as <-.
  rewrite Huser in Huser'. injection Huser' as <-.
  rewrite Hrows. unfold find_token.
  rewrite (find_app_last _ _ _ (deleted_token_is_gone _ row _ Hunique Hrow)).
  simpl. unfold payload_of.
  rewrite (same_second_same_token env _ now issued (eq_sym Hsecond)).
  rewrite String.eqb_refl. reflexivity.
Qed.

(** A token signed in a later clock second than every stored token is
    not in the table. *)
Lemma later_token_is_fresh
    (env : Env) (rows : list RefreshToken) (payload : TokenPayload) (now : Z) :
  Forall (fun r => exists j, jwt_decode (rt_token r) = Some j
                             /\ jwt_iat j < clockTimestamp now) rows ->
  find_token (generateRefreshToken env payload now) rows = None.
Proof.
  intros Hall. apply find_none_not_in. intros Hin.
  apply List.in_map_iff in Hin as (r & Heq & Hr).
  apply (proj1 (List.Forall_forall _ _) Hall) in Hr as (j & Hj & Hlt).
  rewrite Heq in Hj. unfold generateRefreshToken, jwt_sign in Hj.
  rewrite jwt_decode_encode in Hj. injection Hj as <-. simpl in Hlt. lia.
Qed.

End WithJwt.

Import Reference.

(** C2, evaluated. Alice logs in at 0 ms and is given refresh token [T].
    She refreshes with [T] at 500 ms, within the same clock second: the
    handler answers 200, and the token it mints and stores is [T] again.
    Presenting [T] once more at 900 ms is answered 200, not 401. *)
Theorem rotation_within_one_second_keeps_token_valid :
  let alice := {| user_id := "u1"; user_email := "alice@example.com";
                  user_password := "salt$Passw0rd!"; user_name := "Alice";
                  user_role := "VIEWER"; user_createdAt := 0 |} in
  let db0 := {| users := [alice]; refreshTokens := []; queries := [] |} in
  let login :=
    Login.POST default_env db0
      {| Login.body_email := Some "alice@example.com";
         Login.body_password := Some "Passw0rd!" |} 0 "r1" in
  let T := generateRefreshToken default_env
             {| userId := "u1"; email := "alice@example.com"; role := "viewer" |} 0 in
  let first := POST default_env (snd login) (presenting T) 500 "r2" in
  let again := POST default_env (snd first) (presenting T) 900 "r3" in
  (exists data, body (fst login) = success data /\ refreshToken data = T)
  /\ status (fst first) = 200
  /\ (exists data, body (fst first) = success data /\ refreshToken data = T)
  /\ List.map rt_token (refreshTokens (snd first)) = [T]
  /\ status (fst again) = 200.
Proof.
  vm_compute. repeat split; eexists; split; reflexivity.
Qed.

End RefreshFacts.

(** ** Refresh: concurrent calls *)

Module ConcurrencyFacts.

Import BasicFacts Auth Prisma Api Refresh RefreshFacts.
Import Reference.


Section Rotation.
Context `{JsonWebToken}.
Variables (env : Env) (db0 : Db) (token : string) (row : RefreshToken) (user : User).

Local Abbreviation good_instant := (Rotation.good_instant env db0 token row user).
Local Abbreviation waiting := (Rotation.waiting token row user).
Local Abbreviation losing := (Rotation.losing token row user).
Local Abbreviation holding := (Rotation.holding env db0 token row user).
Local Abbreviation won := Rotation.won.
Local Abbreviation others_losing := (Rotation.others_losing token row user).
Local Abbreviation phase := (Rotation.phase env db0 token row user).
Local Abbreviation key_unused := (Rotation.key_unused db0).
Local Abbreviation invariant := (Rotation.invariant env db0 token row user).

Hypothesis Hunique : List.NoDup (List.map rt_token (refreshTokens db0)).
Hypothesis Hstored : find_token token (refreshTokens db0) = Some row.
Hypothesis Huser : find_user_by_id (rt_userId row) (users db0) = Some user.

Lemma good_instant_truthy (now : Z) : good_instant now -> Js.truthy token = true.
Proof.
  intros [[payload Hv] _]. destruct (Js.truthy token) eqn:Ht; [reflexivity |].
  apply falsy_empty in Ht. subst token.
  unfold verifyRefreshToken, jwt_verify in Hv. rewrite jwt_decode_empty in Hv.
  discriminate Hv.
Qed.

Lemma step_started (db1 : Db) (id : string) (now : Z) :
  good_instant now ->
  step_state env db1 (Started (presenting token)) id now
  = (Found (option_map
              (fun r => (r, find_user_by_id (rt_userId r) (users db1)))
              (find_token token (refreshTokens db1))),
     logged (RefreshTokenFindUnique token) db1).
Proof.
  intros Hg. pose proof (good_instant_truthy now Hg) as Ht.
  destruct Hg as [[payload Hv] _].
  unfold step_state, presenting. simpl body_refreshToken. cbv beta iota.
  rewrite Ht, Hv. reflexivity.
Qed.

Lemma step_found (db1 : Db) (id : string) (now : Z) :
  good_instant now ->
  step_state env db1 (Found (Some (row, Some user))) id now
  = match find_token_by_id (rt_id row) (refreshTokens db1) with
    | None =>
        (Finished (internal_error RecordNotFound now),
         logged (RefreshTokenDelete (rt_id row)) db1)
    | Some _ =>
        (Deleted (new_tokens env user now),
         {| users := users db1;
            refreshTokens := without (rt_id row) (refreshTokens db1);
            queries := queries db1 ++ [RefreshTokenDelete (rt_id row)] |})
    end.
Proof.
  intros (_ & Hexp & _). unfold step_state. rewrite Hexp.
  unfold refreshToken_delete.
  destruct (find_token_by_id (rt_id row) (refreshTokens db1)); reflexivity.
Qed.

(** A waiting call, resumed while the row is still there, either has
    found the row or has deleted it. *)
Lemma step_waiting (db1 : Db) (st : State) (id : string) (now : Z) :
  users db1 = users db0 ->
  refreshTokens db1 = refreshTokens db0 ->
  waiting st -> good_instant now ->
  users (snd (step_state env db1 st id now)) = users db0
  /\ ((waiting (fst (step_state env db1 st id now))
       /\ refreshTokens (snd (step_state env db1 st id now)) = refreshTokens db0)
      \/ (fst (step_state env db1 st id now) = Deleted (new_tokens env user now)
          /\ refreshTokens (snd (step_state env db1 st id now))
             = without (rt_id row) (refreshTokens db0))).
Proof.
  intros Hu Hr Hw Hg. destruct Hw.
  - rewrite (step_started db1 id now Hg), Hr, Hstored, Hu. simpl. rewrite Huser.
    split; [exact Hu |]. left. split; [constructor | exact Hr].
  - rewrite (step_found db1 id now Hg), Hr.
    destruct (found_token_has_id token row _ Hstored) as [r Hid]. rewrite Hid.
    simpl. split; [exact Hu |]. right. split; reflexivity.
Qed.

(** A losing call, resumed when neither the token nor the row's key is in
    the table, stays losing and leaves the table alone. *)
Lemma step_losing (db1 : Db) (st : State) (id : string) (now : Z) :
  users db1 = users db0 ->
  find_token token (refreshTokens db1) = None ->
  find_token_by_id (rt_id row) (refreshTokens db1) = None ->
  losing st -> good_instant now ->
  users (snd (step_state env db1 st id now)) = users db0
  /\ losing (fst (step_state env db1 st id now))
  /\ refreshTokens (snd (step_state env db1 st id now)) = refreshTokens db1.
Proof.
  intros Hu Htok Hid Hl Hg. destruct Hl as [st Hw | | now0 | e now0].
  - destruct Hw.
    + rewrite (step_started db1 id now Hg), Htok. simpl.
      split; [exact Hu | split; [apply Rotation.losing_missed | reflexivity]].
    + rewrite (step_found db1 id now Hg), Hid. simpl.
      split; [exact Hu | split; [apply Rotation.losing_500 | reflexivity]].
  - simpl. split; [exact Hu | split; [apply Rotation.losing_401 | reflexivity]].
  - simpl. split; [exact Hu | split; [apply Rotation.losing_401 | reflexivity]].
  - simpl. split; [exact Hu | split; [apply Rotation.losing_500 | reflexivity]].
Qed.

(** The holding call, resumed, inserts the new row and answers 200. *)
Lemma step_holding (db1 : Db) (id : string) (now0 now : Z) :
  users db1 = users db0 ->
  refreshTokens db1 = without (rt_id row) (refreshTokens db0) ->
  find_token_by_id id (refreshTokens db0) = None ->
  good_instant now0 ->
  users (snd (step_state env db1 (Deleted (new_tokens env user now0)) id now))
  = users db0
  /\ fst (step_state env db1 (Deleted (new_tokens env user now0)) id now)
     = Finished (rotated (new_tokens env user now0) now)
  /\ refreshTokens (snd (step_state env db1 (Deleted (new_tokens env user now0)) id now))
     = without (rt_id row) (refreshTokens db0)
       ++ [new_row (new_tokens env user now0) id now].
Proof.
  intros Hu Hr Hkey (_ & _ & Hfresh).
  unfold step_state, refreshToken_create. rewrite Hr.
  unfold find_token_by_id, find_token, without in *.
  rewrite (find_filter_none _ _ _ Hkey), (find_filter_none _ _ _ Hfresh).
  simpl. repeat split. exact Hu.
Qed.

Lemma token_row_has_key :
  exists r, find_token_by_id (rt_id row) (refreshTokens db0) = Some r.
Proof. exact (found_token_has_id token row _ Hstored). Qed.

Lemma losing_after_insert (i j : nat) (h : Handler) (hs : list Handler) :
  i <> j -> losing (h_state h) -> others_losing j hs ->
  others_losing j (<[i := h]> hs).
Proof.
  intros Hij Hl Hothers k hk Hk Hlook.
  destruct (decide (k = i)) as [-> | Hki].
  - destruct (hs !! i) as [old |] eqn:Hold.
    + rewrite list_lookup_insert_eq in Hlook by (eapply lookup_lt_Some; eauto).
      injection Hlook as <-. exact Hl.
    + rewrite list_insert_ge in Hlook by (apply lookup_ge_None; exact Hold).
      rewrite Hold in Hlook. discriminate.
  - rewrite list_lookup_insert_ne in Hlook by congruence.
    apply (Hothers k hk Hk Hlook).
Qed.

Lemma others_after_own_insert (i : nat) (h : Handler) (hs : list Handler) :
  others_losing i hs -> others_losing i (<[i := h]> hs).
Proof.
  intros Hothers k hk Hk Hlook.
  rewrite list_lookup_insert_ne in Hlook by congruence.
  apply (Hothers k hk Hk Hlook).
Qed.

(** Resuming any call at a good instant keeps the invariant. *)
Lemma resume_invariant (s : Server) (i : nat) (now : Z) :
  invariant s -> good_instant now -> invariant (resume env s i now).
Proof.
  intros (Hu & Hkeys & Hphase) Hg. unfold resume.
  destruct (handlers s !! i) as [h |] eqn:Hi;
    [| exact (conj Hu (conj Hkeys Hphase))].
  assert (Hlen : (i < List.length (handlers s))%nat)
    by (eapply lookup_lt_Some; eauto).
  assert (Hkey : key_unused h) by (eapply Forall_lookup_1; eauto).
  unfold step.
  destruct (step_state env (db s) (h_state h) (h_rowId h) now) as [st' db'] eqn:Hstep.
  set (h' := {| h_state := st'; h_rowId := h_rowId h |}).
  assert (Hkeys' : Forall key_unused (<[i := h']> (handlers s)))
    by (apply Forall_insert; [exact Hkeys | exact Hkey]).
  unfold invariant. simpl db. simpl handlers.
  destruct Hphase as [Hr Hall | i0 h0 Hr Hi0 Hhold Hothers
                     | i0 h0 new Hr Hnt Hni Hi0 Hwon Hothers].
  - (* the row is still there *)
    assert (Hw : waiting (h_state h)) by (eapply Forall_lookup_1 in Hall; eauto).
    destruct (step_waiting (db s) (h_state h) (h_rowId h) now Hu Hr Hw Hg)
      as [Hu' Hcases]. rewrite Hstep in Hu', Hcases. simpl in Hu', Hcases.
    split; [exact Hu' |]. split; [exact Hkeys' |].
    destruct Hcases as [[Hw' Hr'] | [Hd Hr']].
    + apply Rotation.phase_live; simpl; [exact Hr' |].
      apply Forall_insert; [exact Hall | exact Hw'].
    + apply (Rotation.phase_rotating env db0 token row user _ i h'); simpl.
      * exact Hr'.
      * apply list_lookup_insert_eq. exact Hlen.
      * exists now. split; [exact Hg | exact Hd].
      * apply others_after_own_insert.
        intros j hj _ Hj. apply Rotation.losing_waiting.
        eapply Forall_lookup_1 in Hall; eauto.
  - (* the row is deleted, the new one not yet inserted *)
    destruct (decide (i = i0)) as [-> | Hne].
    + rewrite Hi0 in Hi. injection Hi as ->.
      destruct Hhold as (now0 & Hg0 & Hst).
      pose proof (step_holding (db s) (h_rowId h) now0 now Hu Hr Hkey Hg0)
        as (Hu' & Hst' & Hr').
      rewrite <- Hst, Hstep in Hu', Hst', Hr'. simpl in Hu', Hst', Hr'.
      split; [exact Hu' |]. split; [exact Hkeys' |].
      apply (Rotation.phase_rotated env db0 token row user _ i0 h' (new_row (new_tokens env user now0) (h_rowId h) now));
        simpl.
      * exact Hr'.
      * intros E. destruct Hg0 as (_ & _ & Hfresh).
        unfold new_row in E. simpl in E. simpl in Hfresh.
        rewrite E, Hstored in Hfresh. discriminate.
      * intros E. destruct token_row_has_key as [r Hrk].
        unfold key_unused in Hkey. rewrite E, Hrk in Hkey. discriminate.
      * apply list_lookup_insert_eq. exact Hlen.
      * eexists _, _. exact Hst'.
      * apply others_after_own_insert. exact Hothers.
    + assert (Hl : losing (h_state h)) by (apply (Hothers i h Hne Hi)).
      assert (Htok : find_token token (refreshTokens (db s)) = None)
        by (rewrite Hr; apply deleted_token_is_gone; assumption).
      assert (Hid : find_token_by_id (rt_id row) (refreshTokens (db s)) = None)
        by (rewrite Hr; apply deleted_id_is_gone).
      destruct (step_losing (db s) (h_state h) (h_rowId h) now Hu Htok Hid Hl Hg)
        as (Hu' & Hl' & Hr').
      rewrite Hstep in Hu', Hl', Hr'. simpl in Hu', Hl', Hr'.
      split; [exact Hu' |]. split; [exact Hkeys' |].
      apply (Rotation.phase_rotating env db0 token row user _ i0 h0); simpl.
      * rewrite Hr'. exact Hr.
      * rewrite list_lookup_insert_ne by exact Hne. exact Hi0.
      * exact Hhold.
      * apply losing_after_insert; assumption.
  - (* the rotation is complete *)
    assert (Htok : find_token token (refreshTokens (db s)) = None).
    { rewrite Hr. apply find_app_none.
      - apply deleted_token_is_gone; assumption.
      - apply String.eqb_neq. exact Hnt. }
    assert (Hid : find_token_by_id (rt_id row) (refreshTokens (db s)) = None).
    { rewrite Hr. apply find_app_none.
      - apply deleted_id_is_gone.
      - apply String.eqb_neq. exact Hni. }
    destruct (decide (i = i0)) as [-> | Hne].
    + rewrite Hi0 in Hi. injection Hi as ->.
      destruct Hwon as (r & now0 & Hst).
      rewrite Hst in Hstep. simpl in Hstep. injection Hstep as <- <-.
      split; [exact Hu |]. split; [exact Hkeys' |].
      apply (Rotation.phase_rotated env db0 token row user _ i0 h' new); simpl; try assumption.
      * apply list_lookup_insert_eq. exact Hlen.
      * exists r, now0. reflexivity.
      * apply others_after_own_insert. exact Hothers.
    + assert (Hl : losing (h_state h)) by (apply (Hothers i h Hne Hi)).
      destruct (step_losing (db s) (h_state h) (h_rowId h) now Hu Htok Hid Hl Hg)
        as (Hu' & Hl' & Hr').
      rewrite Hstep in Hu', Hl', Hr'. simpl in Hu', Hl', Hr'.
      split; [exact Hu' |]. split; [exact Hkeys' |].
      apply (Rotation.phase_rotated env db0 token row user _ i0 h0 new); simpl; try assumption.
      * rewrite Hr'. exact Hr.
      * rewrite list_lookup_insert_ne by exact Hne. exact Hi0.
      * apply losing_after_insert; assumption.
Qed.

Lemma run_invariant (schedule : list (nat * Z)) :
  forall s : Server,
    invariant s ->
    Forall good_instant (List.map snd schedule) ->
    invariant (run env s schedule).
Proof.
  induction schedule as [| [i now] rest IH]; intros s Hinv Hgood; simpl.
  - exact Hinv.
  - simpl in Hgood. inversion Hgood as [| ? ? Hnow Hrest]; subst.
    apply IH; [| exact Hrest]. apply resume_invariant; assumption.
Qed.

Lemma start_invariant (rowIds : list string) :
  Forall (fun id => find_token_by_id id (refreshTokens db0) = None) rowIds ->
  invariant {| db := db0; handlers := concurrent_calls token rowIds |}.
Proof.
  intros Hkeys. split; [reflexivity |]. split.
  - simpl. unfold concurrent_calls. apply Forall_map.
    eapply Forall_impl; [exact Hkeys |]. intros id Hid. exact Hid.
  - apply Rotation.phase_live; [reflexivity |].
    simpl. unfold concurrent_calls. apply Forall_map.
    apply Forall_forall. intros id _. simpl. apply Rotation.waiting_started.
Qed.

End Rotation.

Section Progress.
Context `{JsonWebToken}.

Lemma resume_length (env : Env) (s : Server) (i : nat) (now : Z) :
  List.length (handlers (resume env s i now)) = List.length (handlers s).
Proof.
  unfold resume. destruct (handlers s !! i) as [h |]; [| reflexivity].
  destruct (step env (db s) h now) as [h' db']. simpl. apply length_insert.
Qed.

Lemma run_length (env : Env) (schedule : list (nat * Z)) :
  forall s : Server,
    List.length (handlers (run env s schedule)) = List.length (handlers s).
Proof.
  induction schedule as [| [i now] rest IH]; intros s; simpl; [reflexivity |].
  rewrite IH. apply resume_length.
Qed.

(** Each step brings a handler closer to its response. *)
Lemma step_rank (env : Env) (db1 : Db) (st : State) (id : string) (now : Z) :
  (rank (fst (step_state env db1 st id now)) <= pred (rank st))%nat.
Proof.
  destruct st as [b | [[r [u |]] |] | r | resp]; cbn [step_state].
  - destruct (body_refreshToken b) as [tok |]; [| simpl; lia].
    destruct (negb (Js.truthy tok)); [simpl; lia |].
    destruct (verifyRefreshToken env tok now); [simpl; lia |].
    destruct (refreshToken_findUnique db1 tok) as [found db2]. simpl. lia.
  - destruct (rt_expiresAt r <? now); [simpl; lia |].
    destruct (refreshToken_delete db1 (rt_id r)) as [[e | []] db2]; simpl; lia.
  - destruct (rt_expiresAt r <? now); simpl; lia.
  - simpl. lia.
  - destruct (refreshToken_create db1 _ _ _ id) as [[e | new] db2]; simpl; lia.
  - simpl. lia.
Qed.

(** After a schedule, a handler has at most its initial rank less the
    number of times it was resumed. *)
Lemma run_rank (env : Env) (schedule : list (nat * Z)) :
  forall (s : Server) (i : nat) (h : Handler),
    handlers s !! i = Some h ->
    exists h',
      handlers (run env s schedule) !! i = Some h'
      /\ (rank (h_state h') <= rank (h_state h) - resumed i schedule)%nat.
Proof.
  induction schedule as [| [j now] rest IH]; intros s i h Hi.
  - exists h. split; [exact Hi |]. unfold resumed. simpl. lia.
  - simpl run. unfold resumed. simpl List.filter.
    destruct (Nat.eqb_spec j i) as [-> | Hji].
    + unfold resume. rewrite Hi. unfold step.
      pose proof (step_rank env (db s) (h_state h) (h_rowId h) now) as Hrank.
      destruct (step_state env (db s) (h_state h) (h_rowId h) now) as [st' db'].
      simpl in Hrank.
      set (s' := {| db := db'; handlers := _ |}).
      assert (Hi' : handlers s' !! i = Some {| h_state := st'; h_rowId := h_rowId h |}).
      { apply list_lookup_insert_eq. eapply lookup_lt_Some. exact Hi. }
      destruct (IH s' i _ Hi') as (h' & Hlook & Hle).
      exists h'. split; [exact Hlook |].
      unfold resumed in Hle. simpl in Hle |- *. lia.
    + assert (Hi' : handlers (resume env s j now) !! i = Some h).
      { unfold resume. destruct (handlers s !! j) as [hj |]; [| exact Hi].
        destruct (step env (db s) hj now) as [hj' db']. simpl.
        rewrite list_lookup_insert_ne by exact Hji. exact Hi. }
      destruct (IH _ i h Hi') as (h' & Hlook & Hle).
      exists h'. split; [exact Hlook |]. exact Hle.
Qed.

(** A schedule that resumes every call at least three times leaves every
    call finished. *)
Lemma fair_schedule_finishes (env : Env) (token : string) (rowIds : list string)
    (db0 : Db) (schedule : list (nat * Z)) :
  (forall i, (i < List.length rowIds)%nat -> (3 <= resumed i schedule)%nat) ->
  forallb finished
    (handlers (run env {| db := db0; handlers := concurrent_calls token rowIds |}
                 schedule)) = true.
Proof.
  intros Hfair. apply forallb_forall. intros h' Hin.
  apply list_elem_of_In, list_elem_of_lookup in Hin as [i Hi'].
  assert (Hlt : (i < List.length rowIds)%nat).
  { apply lookup_lt_Some in Hi'. rewrite run_length in Hi'. simpl in Hi'.
    unfold concurrent_calls in Hi'. rewrite length_map in Hi'. exact Hi'. }
  destruct (lookup_lt_is_Some_2 (concurrent_calls token rowIds) i) as [h Hi].
  { unfold concurrent_calls. rewrite length_map. exact Hlt. }
  destruct (run_rank env schedule {| db := db0; handlers := concurrent_calls token rowIds |}
              i h Hi) as (h'' & Hlook & Hle).
  rewrite Hlook in Hi'. injection Hi' as ->.
  assert (Hstart : rank (h_state h) = 3%nat).
  { unfold concurrent_calls in Hi. rewrite list_lookup_fmap in Hi.
    destruct (rowIds !! i); [| discriminate Hi]. injection Hi as <-. reflexivity. }
  specialize (Hfair i Hlt). unfold finished. rewrite Hstart in Hle.
  destruct (h_state h'); simpl in Hle; first [reflexivity | lia].
Qed.

Lemma losing_finished_status (env : Env) (db0 : Db) (token : string)
    (row : RefreshToken) (user : User) (h : Handler) :
  Rotation.losing token row user (h_state h) -> finished h = true ->
  has_status 401 h || has_status 500 h = true.
Proof.
  unfold finished, has_status.
  intros Hl Hf. destruct Hl as [st Hw | | now | e now]; simpl in *.
  - destruct Hw; discriminate Hf.
  - discriminate Hf.
  - reflexivity.
  - reflexivity.
Qed.


End Progress.


End ConcurrencyFacts.

(** ** The scenario of the specification *)

Module ScenarioFacts.

Import Auth Prisma Api.
Import Reference.

(** Alice registers, logs in two seconds later, refreshes with the token
    of the login, and presents that token once more: 201 with role
    [viewer], 200 with another access token and the same permissions, 200
    with a new pair, and 401. *)
Example register_login_refresh_reuse :
  let db0 := {| users := []; refreshTokens := []; queries := [] |} in
  let registered :=
    Register.POST default_env db0
      {| Register.body_email := Some "alice@example.com";
         Register.body_password := Some "Passw0rd!";
         Register.body_name := Some "Alice";
         Register.body_role := None |} 0 "salt" "u1" "r1" in
  let logged_in :=
    Login.POST default_env (snd registered)
      {| Login.body_email := Some "alice@example.com";
         Login.body_password := Some "Passw0rd!" |} 2000 "r2" in
  exists at_register at_login,
    body (fst registered) = success at_register
    /\ body (fst logged_in) = success at_login
    /\ status (fst registered) = 201
    /\ au_role (user at_register) = "viewer"
    /\ status (fst logged_in) = 200
    /\ accessToken at_login <> accessToken at_register
    /\ au_permissions (user at_login) = au_permissions (user at_register)
    /\ let refreshed :=
         Refresh.POST default_env (snd logged_in)
           (Refresh.presenting (refreshToken at_login)) 5000 "r3" in
       let reused :=
         Refresh.POST default_env (snd refreshed)
           (Refresh.presenting (refreshToken at_login)) 9000 "r4" in
       status (fst refreshed) = 200
       /\ (exists pair, body (fst refreshed) = success pair
                        /\ refreshToken pair <> refreshToken at_login)
       /\ status (fst reused) = 401.
Proof.
  intros db0 registered logged_in.
  eexists. eexists.
  split; [vm_compute; reflexivity |].
  split; [vm_compute; reflexivity |].
  split; [vm_compute; reflexivity |].
  split; [vm_compute; reflexivity |].
  split; [vm_compute; reflexivity |].
  split; [apply String.eqb_neq; vm_compute; reflexivity |].
  split; [vm_compute; reflexivity |].
  split; [vm_compute; reflexivity |].
  split; [| vm_compute; reflexivity].
  eexists. split; [vm_compute; reflexivity |].
  apply String.eqb_neq. vm_compute. reflexivity.
Qed.

End ScenarioFacts.

(** ** Regular expressions *)

Module RegexFacts.

Import Shared RegexSemantics.

Lemma append_empty_r (s : string) : s +:+ "" = s.
Proof.
  induction s as [| c s IH]; [reflexivity |].
  rewrite Reference.append_cons, IH. reflexivity.
Qed.

Lemma append_is_empty (a b : string) : a +:+ b = "" -> a = "" /\ b = "".
Proof.
  destruct a as [| c a]; [rewrite Reference.append_nil; auto |].
  rewrite Reference.append_cons. discriminate.
Qed.

Lemma matches_nullable (r : regex) : matches r "" -> nullable r = true.
Proof.
  intros Hm. remember EmptyString as s eqn:Hs.
  induction Hm as [| p c Hp | r1 r2 s1 s2 H1 IH1 H2 IH2 | r1 r2 s H1 IH1
                  | r1 r2 s H2 IH2 | r | r s1 s2 H1 IH1 H2 IH2]; simpl.
  - reflexivity.
  - discriminate Hs.
  - apply append_is_empty in Hs as [-> ->]. rewrite IH1, IH2; reflexivity.
  - rewrite IH1 by exact Hs. reflexivity.
  - rewrite IH2 by exact Hs. apply orb_true_r.
  - reflexivity.
  - reflexivity.
Qed.

Lemma nullable_matches (r : regex) : nullable r = true -> matches r "".
Proof.
  induction r as [| | p | r1 IH1 r2 IH2 | r1 IH1 r2 IH2 | r IH]; simpl; intros Hn.
  - discriminate.
  - constructor.
  - discriminate.
  - apply andb_prop in Hn as [H1 H2].
    change EmptyString with ("" +:+ "")%string. apply matches_seq; auto.
  - apply orb_prop in Hn as [H1 | H2].
    + apply matches_alt_l; auto.
    + apply matches_alt_r; auto.
  - apply matches_star_nil.
Qed.

Lemma deriv_sound (c : ascii) (r : regex) :
  forall s, matches (deriv c r) s -> matches r (String c s).
Proof.
  induction r as [| | p | r1 IH1 r2 IH2 | r1 IH1 r2 IH2 | r IH]; simpl; intros s Hm.
  - inversion Hm.
  - inversion Hm.
  - destruct (p c) eqn:Hp; inversion Hm; subst. constructor. exact Hp.
  - destruct (nullable r1) eqn:Hn.
    + inversion Hm as [| | | ? ? ? Hl | ? ? ? Hr | |]; subst.
      * inversion Hl as [| | ? ? s1 s2 Ha Hb | | | |]; subst.
        rewrite <- Reference.append_cons. apply matches_seq; auto.
      * rewrite <- (Reference.append_nil (String c s)).
        apply matches_seq; [apply nullable_matches; exact Hn | auto].
    + inversion Hm as [| | ? ? s1 s2 Ha Hb | | | |]; subst.
      rewrite <- Reference.append_cons. apply matches_seq; auto.
  - inversion Hm; subst; [apply matches_alt_l | apply matches_alt_r]; auto.
  - inversion Hm as [| | ? ? s1 s2 Ha Hb | | | |]; subst.
    rewrite <- Reference.append_cons. apply matches_star_cons; auto.
Qed.

Lemma deriv_complete (c : ascii) (r : regex) (w : string) :
  matches r w -> forall s, w = String c s -> matches (deriv c r) s.
Proof.
  intros Hm.
  induction Hm as [| p c' Hp | r1 r2 s1 s2 H1 IH1 H2 IH2 | r1 r2 s' H1 IH1
                  | r1 r2 s' H2 IH2 | r | r s1 s2 H1 IH1 H2 IH2]; intros s Hw; simpl.
  - discriminate Hw.
  - injection Hw as -> <-. rewrite Hp. constructor.
  - destruct s1 as [| c1 s1].
    + rewrite Reference.append_nil in Hw.
      rewrite (matches_nullable r1 H1).
      apply matches_alt_r. apply IH2. exact Hw.
    + rewrite Reference.append_cons in Hw. injection Hw as -> <-.
      assert (Hs : matches (Seq (deriv c r1) r2) (s1 +:+ s2))
        by (apply matches_seq; [apply IH1; reflexivity | exact H2]).
      destruct (nullable r1); [apply matches_alt_l |]; exact Hs.
  - apply matches_alt_l. apply IH1. exact Hw.
  - apply matches_alt_r. apply IH2. exact Hw.
  - discriminate Hw.
  - destruct s1 as [| c1 s1].
    + rewrite Reference.append_nil in Hw. apply IH2 in Hw. exact Hw.
    + rewrite Reference.append_cons in Hw. injection Hw as -> <-.
      apply matches_seq; [apply IH1; reflexivity | exact H2].
Qed.

(** The matcher decides the denotation. *)
Lemma regex_test_matches (s : string) :
  forall r, regex_test r s = true <-> matches r s.
Proof.
  induction s as [| c s IH]; intros r; simpl.
  - split; [apply nullable_matches | apply matches_nullable].
  - rewrite IH. split.
    + apply deriv_sound.
    + intros Hm. apply (deriv_complete c r _ Hm). reflexivity.
Qed.

Lemma matches_seq_inv (r1 r2 : regex) (s : string) :
  matches (Seq r1 r2) s ->
  exists s1 s2, s = s1 +:+ s2 /\ matches r1 s1 /\ matches r2 s2.
Proof. intros Hm. inversion Hm; subst. eauto. Qed.

Lemma matches_class_inv (p : ascii -> bool) (s : string) :
  matches (Class p) s -> exists c, s = String c "" /\ p c = true.
Proof. intros Hm. inversion Hm; subst. eauto. Qed.

Lemma matches_star_class (p : ascii -> bool) (s : string) :
  matches (Star (Class p)) s <-> all_chars p s = true.
Proof.
  split.
  - intros Hm. remember (Star (Class p)) as r eqn:Hr.
    induction Hm as [| | | | | r' | r' s1 s2 H1 _ H2 IH2]; try discriminate Hr.
    + reflexivity.
    + injection Hr as ->. apply matches_class_inv in H1 as (c & -> & Hc).
      rewrite Reference.append_cons, Reference.append_nil. simpl.
      rewrite IH2 by reflexivity. rewrite Hc. reflexivity.
  - induction s as [| c s IH]; simpl; intros Ha.
    + apply matches_star_nil.
    + apply andb_prop in Ha as [Hc Hs].
      change (String c s) with (String c "" +:+ s).
      apply matches_star_cons; [constructor; exact Hc | auto].
Qed.

(** [[p]+] matches the non-empty strings over [p]. *)
Lemma matches_plus_class (p : ascii -> bool) (s : string) :
  matches (Plus (Class p)) s <-> word_of p s.
Proof.
  unfold Plus, word_of. split.
  - intros Hm. apply matches_seq_inv in Hm as (s1 & s2 & -> & H1 & H2).
    apply matches_class_inv in H1 as (c & -> & Hc).
    apply matches_star_class in H2.
    rewrite Reference.append_cons, Reference.append_nil. simpl.
    rewrite Hc, H2. split; [discriminate | reflexivity].
  - intros [Hne Ha]. destruct s as [| c s]; [contradiction |].
    simpl in Ha. apply andb_prop in Ha as [Hc Hs].
    change (String c s) with (String c "" +:+ s).
    apply matches_seq; [constructor; exact Hc | apply matches_star_class; exact Hs].
Qed.

End RegexFacts.

(** ** Slugs *)

Module SlugFacts.

Import Shared Utils Validators RegexSemantics SlugShape RegexFacts.

(** Settles a statement about one character by going through the
    character set. *)
Ltac each_char c :=
  destruct c as [b0 b1 b2 b3 b4 b5 b6 b7];
  destruct b0, b1, b2, b3, b4, b5, b6, b7;
  cbv; intros; solve [reflexivity | discriminate].

(** Unfolds the string functions one character, leaving the character
    classes folded. *)
Tactic Notation "unroll" :=
  cbn [hyphenated well_formed_from drop_leading_hyphens drop_trailing_hyphens
       hyphenate filter_string all_chars Js.exists_char Js.trimStart Js.trimEnd
       Js.map_string Js.toLowerCase negb andb orb].
Tactic Notation "unroll" "in" hyp(H) :=
  cbn [hyphenated well_formed_from drop_leading_hyphens drop_trailing_hyphens
       hyphenate filter_string all_chars Js.exists_char Js.trimStart Js.trimEnd
       Js.map_string Js.toLowerCase negb andb orb] in H.

Lemma lower_char_not_upper (c : ascii) : Js.is_upper (Js.lower_char c) = false.
Proof. each_char c. Qed.

Lemma lower_char_alnum (c : ascii) : is_slug_char (Js.lower_char c) = is_alnum c.
Proof. each_char c. Qed.

Lemma kept_char_is_slug_char (c : ascii) :
  Js.is_upper c = false -> is_kept c = true -> is_separator c = false ->
  is_slug_char c = true.
Proof. each_char c. Qed.

Lemma slug_char_facts (c : ascii) :
  is_slug_char c = true ->
  is_char "-" c = false /\ is_separator c = false /\ Js.is_space c = false
  /\ Js.is_upper c = false /\ is_kept c = true.
Proof.
  intros Hc. repeat split; revert Hc; each_char c.
Qed.

Lemma hyphen_facts (c : ascii) :
  is_char "-" c = true ->
  c = "-"%char /\ is_separator c = true /\ Js.is_space c = false
  /\ Js.is_upper c = false /\ is_kept c = true /\ is_slug_char c = false.
Proof.
  intros Hc. apply Ascii.eqb_eq in Hc. subst c. repeat split.
Qed.

Lemma separator_not_slug_char (c : ascii) :
  is_separator c = true -> is_slug_char c = false.
Proof. each_char c. Qed.

Lemma space_is_separator (c : ascii) : Js.is_space c = true -> is_separator c = true.
Proof. intros Hc. unfold is_separator. rewrite Hc. reflexivity. Qed.

Lemma dropped_symbol_not_slug_char (c : ascii) :
  is_kept c = false -> is_slug_char c = false.
Proof. each_char c. Qed.

(** *** The classes of the characters along [slugify] *)

Lemma toLowerCase_not_upper (s : string) :
  all_chars not_upper (Js.toLowerCase s) = true.
Proof.
  induction s as [| c s IH]; [reflexivity |].
  unroll. unfold not_upper at 1. rewrite lower_char_not_upper. exact IH.
Qed.

Lemma trimStart_all (p : ascii -> bool) (s : string) :
  all_chars p s = true -> all_chars p (Js.trimStart s) = true.
Proof.
  induction s as [| c s IH]; [reflexivity |].
  intros Ha. unroll. destruct (Js.is_space c); [| exact Ha].
  unroll in Ha. apply andb_prop in Ha as [_ Hs]. auto.
Qed.

Lemma trimEnd_all (p : ascii -> bool) (s : string) :
  all_chars p s = true -> all_chars p (Js.trimEnd s) = true.
Proof.
  induction s as [| c s IH]; [reflexivity |].
  intros Ha. unroll in Ha. apply andb_prop in Ha as [Hc Hs]. unroll.
  specialize (IH Hs).
  destruct (Js.trimEnd s) as [| c' t].
  - destruct (Js.is_space c); [reflexivity |]. unroll. rewrite Hc. reflexivity.
  - change (all_chars p (String c (String c' t)))
      with (p c && all_chars p (String c' t)).
    rewrite Hc, IH. reflexivity.
Qed.

Lemma trim_all (p : ascii -> bool) (s : string) :
  all_chars p s = true -> all_chars p (Js.trim s) = true.
Proof. intros Ha. unfold Js.trim. apply trimEnd_all, trimStart_all, Ha. Qed.

Lemma strip_symbols_plain (s : string) :
  all_chars not_upper s = true -> all_chars plain (strip_symbols s) = true.
Proof.
  unfold strip_symbols.
  induction s as [| c s IH]; [reflexivity |].
  intros Ha. unroll in Ha. apply andb_prop in Ha as [Hc Hs]. unroll.
  destruct (is_kept c) eqn:Hk; [| auto].
  unroll. unfold plain at 1. rewrite Hc, Hk, IH by exact Hs. reflexivity.
Qed.

Lemma hyphenate_hyphenated (s : string) :
  all_chars plain s = true ->
  forall b, hyphenated b (hyphenate b s) = true.
Proof.
  induction s as [| c s IH]; [reflexivity |].
  intros Ha b. unroll in Ha. apply andb_prop in Ha as [Hc Hs].
  unfold plain, not_upper in Hc. apply andb_prop in Hc as [Hu Hk].
  apply negb_true_iff in Hu. specialize (IH Hs). unroll.
  destruct (is_separator c) eqn:Hsep.
  - destruct b; [apply IH |]. unroll. apply IH.
  - unroll. rewrite (kept_char_is_slug_char c Hu Hk Hsep). apply IH.
Qed.

Lemma hyphenated_no_leading (s : string) :
  hyphenated true s = true -> drop_leading_hyphens s = s.
Proof.
  destruct s as [| c s]; [reflexivity |]. unroll.
  destruct (is_slug_char c) eqn:Hc.
  - destruct (slug_char_facts c Hc) as (-> & _). reflexivity.
  - destruct (is_char "-" c); discriminate.
Qed.

Lemma drop_leading_hyphenated (s : string) :
  hyphenated false s = true -> hyphenated true (drop_leading_hyphens s) = true.
Proof.
  destruct s as [| c s]; [reflexivity |]. unroll.
  destruct (is_slug_char c) eqn:Hc.
  - destruct (slug_char_facts c Hc) as (-> & _). unroll. rewrite Hc. auto.
  - destruct (is_char "-" c); [| discriminate]. unroll. intros Hs.
    rewrite (hyphenated_no_leading s Hs). exact Hs.
Qed.

(** Dropping the trailing hyphens of a hyphenated string leaves a
    well-formed slug, or nothing. *)
Lemma drop_trailing_well_formed (s : string) :
  (hyphenated false s = true ->
   well_formed_from false (drop_trailing_hyphens s) = true)
  /\ (hyphenated true s = true ->
      s = "" \/ well_formed_from true (drop_trailing_hyphens s) = true).
Proof.
  induction s as [| c s [IHf IHt]]; [split; auto |].
  cbn [hyphenated].
  destruct (is_slug_char c) eqn:Hc.
  - destruct (slug_char_facts c Hc) as (Hh & _).
    assert (Hd : drop_trailing_hyphens (String c s)
                 = String c (drop_trailing_hyphens s)).
    { unroll. rewrite Hh. destruct (drop_trailing_hyphens s); reflexivity. }
    rewrite Hd. unroll. rewrite Hc. split; [| right]; auto.
  - destruct (is_char "-" c) eqn:Hh; [| split; discriminate].
    split; [| discriminate]. unroll. intros Hs.
    destruct (IHt Hs) as [-> | Hw].
    + unroll. rewrite Hh. reflexivity.
    + unroll.
      destruct (drop_trailing_hyphens s) as [| c' t]; [discriminate Hw |].
      unroll. unroll in Hw. rewrite Hc, Hh. exact Hw.
Qed.

(** The result of [slugify] is empty or well formed. *)
Lemma slugify_shape (text : string) :
  slugify text = "" \/ well_formed (slugify text) = true.
Proof.
  unfold slugify, trim_hyphens.
  set (u := hyphenate false _).
  assert (Hu : hyphenated false u = true).
  { apply hyphenate_hyphenated, strip_symbols_plain, trim_all, toLowerCase_not_upper. }
  apply drop_leading_hyphenated in Hu.
  destruct (proj2 (drop_trailing_well_formed _) Hu) as [-> | Hw]; auto.
Qed.

(** *** Well-formed slugs and the regular expression of [validateSlug] *)

Lemma well_formed_split (s : string) :
  (well_formed_from false s = true ->
   exists w rest, s = w +:+ rest /\ all_chars is_slug_char w = true
                  /\ matches (Star hyphen_word) rest)
  /\ (well_formed_from true s = true ->
      exists w rest, s = w +:+ rest /\ word_of is_slug_char w
                     /\ matches (Star hyphen_word) rest).
Proof.
  induction s as [| c s [IHf IHt]].
  - split; [| discriminate]. intros _. exists ""%string, ""%string.
    repeat split. apply matches_star_nil.
  - unroll. destruct (is_slug_char c) eqn:Hc.
    + assert (Hboth : well_formed_from false s = true ->
                      exists w rest, String c s = w +:+ rest
                                     /\ word_of is_slug_char w
                                     /\ matches (Star hyphen_word) rest).
      { intros Hs. destruct (IHf Hs) as (w & rest & -> & Hw & Hrest).
        exists (String c w), rest. rewrite Reference.append_cons.
        repeat split; [discriminate | unroll; rewrite Hc; exact Hw | exact Hrest]. }
      split; intros Hs; destruct (Hboth Hs) as (w & rest & E & Hword & Hrest);
        exists w, rest; [destruct Hword as [_ Hw] |]; auto.
    + destruct (is_char "-" c) eqn:Hh; [| split; discriminate].
      split; [| discriminate]. unroll. intros Hs.
      destruct (IHt Hs) as (w & rest & -> & Hw & Hrest).
      destruct (hyphen_facts c Hh) as (-> & _).
      exists ""%string, (String "-" w +:+ rest). rewrite Reference.append_nil.
      split; [| split].
      * rewrite Reference.append_cons. reflexivity.
      * reflexivity.
      * apply matches_star_cons; [| exact Hrest].
        change (String "-" w) with (String "-" "" +:+ w).
        apply matches_seq; [constructor; reflexivity |].
        apply matches_plus_class. exact Hw.
Qed.

Lemma well_formed_matches (s : string) :
  well_formed s = true -> matches slugRegex s.
Proof.
  intros Hw. destruct (proj2 (well_formed_split s) Hw) as (w & rest & -> & Hword & Hrest).
  apply matches_seq; [apply matches_plus_class; exact Hword | exact Hrest].
Qed.

Lemma well_formed_append (w rest : string) :
  all_chars is_slug_char w = true ->
  well_formed_from false rest = true ->
  forall b, (b = true -> w <> "") -> well_formed_from b (w +:+ rest) = true.
Proof.
  induction w as [| c w IH]; intros Hw Hrest b Hb.
  - rewrite Reference.append_nil. destruct b; [| exact Hrest].
    exfalso. apply Hb; reflexivity.
  - unroll in Hw. apply andb_prop in Hw as [Hc Hw].
    rewrite Reference.append_cons. unroll. rewrite Hc.
    apply IH; [exact Hw | exact Hrest | discriminate].
Qed.

Lemma hyphen_words_well_formed (rest : string) :
  matches (Star hyphen_word) rest -> well_formed_from false rest = true.
Proof.
  intros Hm. remember (Star hyphen_word) as r eqn:Hr.
  induction Hm as [| | | | | r' | r' s1 s2 H1 _ H2 IH2]; try discriminate Hr.
  - reflexivity.
  - injection Hr as ->.
    apply matches_seq_inv in H1 as (h & w & -> & Hh & Hw).
    apply matches_class_inv in Hh as (c & -> & Hc).
    apply matches_plus_class in Hw as [Hne Hw].
    destruct (hyphen_facts c Hc) as (-> & _).
    rewrite !Reference.append_cons, Reference.append_nil. unroll.
    apply well_formed_append; auto.
Qed.

Lemma matches_well_formed (s : string) :
  matches slugRegex s -> well_formed s = true.
Proof.
  intros Hm. apply matches_seq_inv in Hm as (w & rest & -> & Hw & Hrest).
  apply matches_plus_class in Hw as [Hne Hw].
  apply well_formed_append; auto using hyphen_words_well_formed.
Qed.

(** The regular expression of [validateSlug] accepts the well-formed slugs. *)
Lemma slugRegex_well_formed (s : string) :
  regex_test slugRegex s = well_formed s.
Proof.
  destruct (well_formed s) eqn:Hw.
  - apply regex_test_matches, well_formed_matches, Hw.
  - destruct (regex_test slugRegex s) eqn:Ht; [| reflexivity].
    apply regex_test_matches, matches_well_formed in Ht. congruence.
Qed.

(** *** [slugify] on a well-formed slug *)

Lemma well_formed_chars (s : string) (b : bool) :
  well_formed_from b s = true ->
  all_chars (fun c => is_slug_char c || is_char "-" c) s = true.
Proof.
  revert b. induction s as [| c s IH]; [reflexivity |].
  intros b. unroll. destruct (is_slug_char c); unroll; [apply IH |].
  destruct (is_char "-" c); [| discriminate]. unroll.
  intros Hs. apply andb_prop in Hs as [_ Hs]. apply (IH true Hs).
Qed.

Lemma well_formed_hyphenated (s : string) (b : bool) :
  well_formed_from b s = true -> hyphenated b s = true.
Proof.
  revert b. induction s as [| c s IH]; [reflexivity |].
  intros b. unroll. destruct (is_slug_char c); [apply IH |].
  destruct (is_char "-" c); [| discriminate].
  intros Hs. apply andb_prop in Hs as [-> Hs]. unroll. apply (IH true Hs).
Qed.

Lemma slug_chars_lower (s : string) :
  all_chars (fun c => is_slug_char c || is_char "-" c) s = true ->
  Js.toLowerCase s = s.
Proof.
  induction s as [| c s IH]; [reflexivity |].
  unroll. intros Ha. apply andb_prop in Ha as [Hc Hs].
  rewrite (IH Hs). f_equal. unfold Js.lower_char.
  replace (Js.is_upper c) with false; [reflexivity |].
  symmetry. apply orb_prop in Hc as [Hc | Hc].
  - apply (slug_char_facts c Hc).
  - apply (hyphen_facts c Hc).
Qed.

Lemma slug_chars_trimEnd (s : string) :
  all_chars (fun c => is_slug_char c || is_char "-" c) s = true ->
  Js.trimEnd s = s.
Proof.
  induction s as [| c s IH]; [reflexivity |].
  unroll. intros Ha. apply andb_prop in Ha as [Hc Hs].
  rewrite (IH Hs).
  assert (Hsp : Js.is_space c = false).
  { apply orb_prop in Hc as [Hc | Hc].
    - apply (slug_char_facts c Hc).
    - apply (hyphen_facts c Hc). }
  rewrite Hsp. destruct s; reflexivity.
Qed.

Lemma slug_chars_trim (s : string) :
  all_chars (fun c => is_slug_char c || is_char "-" c) s = true ->
  Js.trim s = s.
Proof.
  intros Ha. unfold Js.trim.
  assert (Hs : Js.trimStart s = s).
  { destruct s as [| c s]; [reflexivity |]. unroll.
    unroll in Ha. apply andb_prop in Ha as [Hc _].
    replace (Js.is_space c) with false; [reflexivity |].
    symmetry. apply orb_prop in Hc as [Hc | Hc].
    - apply (slug_char_facts c Hc).
    - apply (hyphen_facts c Hc). }
  rewrite Hs. apply slug_chars_trimEnd, Ha.
Qed.

Lemma slug_chars_kept (s : string) :
  all_chars (fun c => is_slug_char c || is_char "-" c) s = true ->
  strip_symbols s = s.
Proof.
  unfold strip_symbols.
  induction s as [| c s IH]; [reflexivity |].
  unroll. intros Ha. apply andb_prop in Ha as [Hc Hs].
  rewrite (IH Hs).
  replace (is_kept c) with true; [reflexivity |].
  symmetry. apply orb_prop in Hc as [Hc | Hc].
  - apply (slug_char_facts c Hc).
  - apply (hyphen_facts c Hc).
Qed.

Lemma hyphenated_fixed (s : string) (b : bool) :
  hyphenated b s = true -> hyphenate b s = s.
Proof.
  revert b. induction s as [| c s IH]; [reflexivity |].
  intros b. unroll. destruct (is_slug_char c) eqn:Hc.
  - destruct (slug_char_facts c Hc) as (_ & -> & _).
    intros Hs. rewrite (IH false Hs). reflexivity.
  - destruct (is_char "-" c) eqn:Hh; [| discriminate].
    destruct (hyphen_facts c Hh) as (-> & _).
    intros Hs. apply andb_prop in Hs as [Hb Hs].
    apply negb_true_iff in Hb. subst b. unroll. rewrite (IH true Hs). reflexivity.
Qed.

Lemma well_formed_no_trailing (s : string) (b : bool) :
  well_formed_from b s = true -> drop_trailing_hyphens s = s.
Proof.
  revert b. induction s as [| c s IH]; [reflexivity |].
  intros b. unroll. destruct (is_slug_char c) eqn:Hc.
  - destruct (slug_char_facts c Hc) as (-> & _).
    intros Hs. rewrite (IH false Hs). destruct s; reflexivity.
  - destruct (is_char "-" c); [| discriminate].
    intros Hs. apply andb_prop in Hs as [_ Hs].
    rewrite (IH true Hs). destruct s; [discriminate Hs | reflexivity].
Qed.

Lemma slugify_well_formed (s : string) :
  well_formed s = true -> slugify s = s.
Proof.
  intros Hw. unfold well_formed in Hw.
  pose proof (well_formed_chars s true Hw) as Hc.
  unfold slugify, trim_hyphens.
  rewrite (slug_chars_lower s Hc), (slug_chars_trim s Hc), (slug_chars_kept s Hc).
  assert (Hh : hyphenated true s = true) by (apply well_formed_hyphenated, Hw).
  assert (Hf : hyphenated false s = true).
  { destruct s as [| c s]; [reflexivity |]. unroll in Hh; unroll.
    destruct (is_slug_char c); [exact Hh |].
    destruct (is_char "-" c); discriminate Hh. }
  rewrite (hyphenated_fixed s false Hf), (hyphenated_no_leading s Hh).
  apply (well_formed_no_trailing s true Hw).
Qed.

(** *** Which texts give an empty slug *)

Lemma exists_toLowerCase (s : string) :
  Js.exists_char is_slug_char (Js.toLowerCase s) = Js.exists_char is_alnum s.
Proof.
  induction s as [| c s IH]; [reflexivity |].
  unroll. rewrite lower_char_alnum, IH. reflexivity.
Qed.

Lemma exists_trimStart (s : string) :
  Js.exists_char is_slug_char (Js.trimStart s) = Js.exists_char is_slug_char s.
Proof.
  induction s as [| c s IH]; [reflexivity |].
  unroll. destruct (Js.is_space c) eqn:Hsp; [| reflexivity].
  rewrite (separator_not_slug_char c (space_is_separator c Hsp)). exact IH.
Qed.

Lemma exists_trimEnd (s : string) :
  Js.exists_char is_slug_char (Js.trimEnd s) = Js.exists_char is_slug_char s.
Proof.
  induction s as [| c s IH]; [reflexivity |].
  unroll. destruct (Js.trimEnd s) as [| c' t].
  - rewrite <- IH. unroll. destruct (Js.is_space c) eqn:Hsp; [| reflexivity].
    rewrite (separator_not_slug_char c (space_is_separator c Hsp)). reflexivity.
  - rewrite <- IH. reflexivity.
Qed.

Lemma exists_strip_symbols (s : string) :
  Js.exists_char is_slug_char (strip_symbols s) = Js.exists_char is_slug_char s.
Proof.
  unfold strip_symbols.
  induction s as [| c s IH]; [reflexivity |].
  unroll. destruct (is_kept c) eqn:Hk; unroll; rewrite IH; [reflexivity |].
  rewrite (dropped_symbol_not_slug_char c Hk). reflexivity.
Qed.

Lemma exists_hyphenate (s : string) (b : bool) :
  Js.exists_char is_slug_char (hyphenate b s) = Js.exists_char is_slug_char s.
Proof.
  revert b. induction s as [| c s IH]; [reflexivity |].
  intros b. unroll. destruct (is_separator c) eqn:Hsep.
  - rewrite (separator_not_slug_char c Hsep).
    destruct b; unroll; apply IH.
  - unroll. rewrite IH. reflexivity.
Qed.

Lemma exists_drop_leading (s : string) :
  Js.exists_char is_slug_char (drop_leading_hyphens s) = Js.exists_char is_slug_char s.
Proof.
  induction s as [| c s IH]; [reflexivity |].
  unroll. destruct (is_char "-" c) eqn:Hh; [| reflexivity].
  destruct (hyphen_facts c Hh) as (_ & _ & _ & _ & _ & ->). exact IH.
Qed.

Lemma exists_drop_trailing (s : string) :
  Js.exists_char is_slug_char (drop_trailing_hyphens s) = Js.exists_char is_slug_char s.
Proof.
  induction s as [| c s IH]; [reflexivity |].
  unroll. destruct (drop_trailing_hyphens s) as [| c' t].
  - rewrite <- IH. unroll. destruct (is_char "-" c) eqn:Hh; [| reflexivity].
    destruct (hyphen_facts c Hh) as (_ & _ & _ & _ & _ & ->). reflexivity.
  - rewrite <- IH. reflexivity.
Qed.

Lemma exists_slugify (text : string) :
  Js.exists_char is_slug_char (slugify text) = Js.exists_char is_alnum text.
Proof.
  unfold slugify, trim_hyphens, Js.trim.
  rewrite exists_drop_trailing, exists_drop_leading, exists_hyphenate,
    exists_strip_symbols, exists_trimEnd, exists_trimStart, exists_toLowerCase.
  reflexivity.
Qed.

Lemma well_formed_has_slug_char (s : string) :
  well_formed s = true -> Js.exists_char is_slug_char s = true.
Proof.
  destruct s as [| c s]; [discriminate |]. unfold well_formed. unroll.
  destruct (is_slug_char c); [reflexivity |].
  destruct (is_char "-" c); discriminate.
Qed.

End SlugFacts.

(** ** The slug of a new article *)

Module ContentFacts.

Import Shared Utils Validators ArticleValidation RegexSemantics SlugShape.
Import RegexFacts SlugFacts NumeralFacts Content.

Lemma append_cancel_l (a b c : string) : a +:+ b = a +:+ c -> b = c.
Proof.
  induction a as [| x a IH]; [auto |].
  rewrite !Reference.append_cons. intros E. injection E as E. auto.
Qed.

Lemma toString_inj (a b : Z) :
  0 <= a -> 0 <= b -> Js.toString a = Js.toString b -> a = b.
Proof.
  intros Ha Hb E.
  pose proof (parseInt_toString a Ha) as Pa.
  rewrite E, (parseInt_toString b Hb) in Pa. congruence.
Qed.

Lemma numbered_inj (base : string) (a b : Z) :
  0 <= a -> 0 <= b ->
  base +:+ "-" +:+ Js.toString a = base +:+ "-" +:+ Js.toString b -> a = b.
Proof.
  intros Ha Hb E. apply append_cancel_l in E.
  rewrite !Reference.append_cons, !Reference.append_nil in E.
  injection E as E. apply toString_inj; assumption.
Qed.

Lemma numbered_not_base (base : string) (k : Z) :
  base <> base +:+ "-" +:+ Js.toString k.
Proof.
  intros E. rewrite <- (append_empty_r base) in E at 1.
  apply append_cancel_l in E. discriminate E.
Qed.

Lemma candidates_from (n : nat) (base : string) :
  forall slug counter x,
    In x (candidates n base slug counter) ->
    x = slug \/ exists k, counter <= k /\ x = base +:+ "-" +:+ Js.toString k.
Proof.
  induction n as [| n IH]; intros slug counter x Hin; [destruct Hin |].
  destruct Hin as [<- | Hin]; [auto |].
  right. apply IH in Hin as [-> | (k & Hk & ->)].
  - exists counter. split; [lia | reflexivity].
  - exists k. split; [lia | reflexivity].
Qed.

Lemma candidates_NoDup (n : nat) (base : string) :
  forall slug counter,
    0 <= counter ->
    (forall k, counter <= k -> slug <> base +:+ "-" +:+ Js.toString k) ->
    List.NoDup (candidates n base slug counter).
Proof.
  induction n as [| n IH]; intros slug counter Hc Hslug; [constructor |].
  simpl. constructor.
  - intros Hin. apply candidates_from in Hin as [E | (k & Hk & E)].
    + apply (Hslug counter); [lia | exact E].
    + apply (Hslug k); [lia | exact E].
  - apply IH; [lia |]. intros k Hk E.
    apply numbered_inj in E; lia.
Qed.

Lemma candidates_length (n : nat) (base : string) :
  forall slug counter, List.length (candidates n base slug counter) = n.
Proof. induction n as [| n IH]; intros; simpl; [| rewrite IH]; reflexivity. Qed.

Lemma includes_In (l : list string) (x : string) :
  Js.includes l x = true <-> In x l.
Proof.
  unfold Js.includes. rewrite existsb_exists. split.
  - intros (y & Hy & E). apply String.eqb_eq in E. subst y. exact Hy.
  - intros Hin. exists x. split; [exact Hin | apply String.eqb_refl].
Qed.

Lemma ensure_unique_None (fuel : nat) (taken : list string) (base : string) :
  forall slug counter,
    ensure_unique fuel taken base slug counter = None ->
    incl (candidates fuel base slug counter) taken.
Proof.
  induction fuel as [| fuel IH]; intros slug counter Hn x Hin; [destruct Hin |].
  simpl in Hn. destruct (Js.includes taken slug) eqn:Hi; [| discriminate].
  destruct Hin as [<- | Hin].
  - apply includes_In. exact Hi.
  - apply (IH _ _ Hn). exact Hin.
Qed.

Lemma ensure_unique_Some (fuel : nat) (taken : list string) (base : string) :
  forall slug counter result,
    ensure_unique fuel taken base slug counter = Some result ->
    ~ In result taken
    /\ (~ In slug taken -> result = slug)
    /\ (result = slug
        \/ exists k, counter <= k /\ result = base +:+ "-" +:+ Js.toString k).
Proof.
  induction fuel as [| fuel IH]; intros slug counter result Hs; [discriminate |].
  simpl in Hs. destruct (Js.includes taken slug) eqn:Hi.
  - apply IH in Hs as (Hfree & _ & Hshape). split; [exact Hfree |]. split.
    + intros Hn. exfalso. apply Hn. apply includes_In. exact Hi.
    + right. destruct Hshape as [-> | (k & Hk & ->)].
      * exists counter. split; [lia | reflexivity].
      * exists k. split; [lia | reflexivity].
  - injection Hs as <-. split; [| auto].
    intros Hin. apply includes_In in Hin. congruence.
Qed.

Lemma ensure_unique_more_fuel (fuel : nat) (taken : list string) (base : string) :
  forall slug counter result,
    ensure_unique fuel taken base slug counter = Some result ->
    forall more, ensure_unique (fuel + more) taken base slug counter = Some result.
Proof.
  induction fuel as [| fuel IH]; intros slug counter result Hs more; [discriminate |].
  simpl in Hs |- *. destruct (Js.includes taken slug); [auto | exact Hs].
Qed.

(** The loop ends within one round more than there are articles. *)
Lemma ensure_unique_ends (taken : list string) (base : string) :
  exists result,
    ensure_unique (S (List.length taken)) taken base base 1 = Some result.
Proof.
  destruct (ensure_unique (S (List.length taken)) taken base base 1) as [r |] eqn:E;
    [eauto |].
  exfalso. apply ensure_unique_None in E.
  assert (Hnd : List.NoDup (candidates (S (List.length taken)) base base 1)).
  { apply candidates_NoDup; [lia |]. intros k _. apply numbered_not_base. }
  pose proof (List.NoDup_incl_length Hnd E) as Hlen.
  rewrite candidates_length in Hlen. lia.
Qed.

Lemma string_of_uint_digits (d : uint) :
  all_chars Js.is_digit (NilEmpty.string_of_uint d) = true.
Proof. induction d; simpl; auto. Qed.

Lemma toString_digits (k : Z) :
  0 <= k -> word_of Js.is_digit (Js.toString k).
Proof.
  intros Hk.
  assert (Hs : word_of Js.is_digit (NilZero.string_of_uint (N.to_uint (Z.to_N k)))).
  { pose proof (to_uint_nonnil (Z.to_N k)) as Hnn.
    destruct (N.to_uint (Z.to_N k)) eqn:E; try contradiction;
      (split; [discriminate | simpl; apply string_of_uint_digits]). }
  unfold Js.toString. destruct k; try exact Hs. lia.
Qed.

Lemma all_chars_weaken (p q : ascii -> bool) (s : string) :
  (forall c, p c = true -> q c = true) ->
  all_chars p s = true -> all_chars q s = true.
Proof.
  intros Hpq. induction s as [| c s IH]; [reflexivity |].
  simpl. intros Ha. apply andb_prop in Ha as [Hc Hs].
  rewrite (Hpq c Hc), (IH Hs). reflexivity.
Qed.

Lemma well_formed_from_append (s t : string) :
  well_formed_from false t = true ->
  forall b, well_formed_from b s = true -> well_formed_from b (s +:+ t) = true.
Proof.
  intros Ht. induction s as [| c s IH]; intros b Hs.
  - destruct b; [discriminate Hs | exact Ht].
  - rewrite Reference.append_cons. unroll. unroll in Hs.
    destruct (is_slug_char c); [auto |].
    destruct (is_char "-" c); [| discriminate Hs].
    apply andb_prop in Hs as [-> Hs]. simpl. auto.
Qed.

(** A well-formed slug followed by a hyphen and a counter is well formed. *)
Lemma numbered_well_formed (base : string) (k : Z) :
  well_formed base = true -> 0 <= k ->
  well_formed (base +:+ "-" +:+ Js.toString k) = true.
Proof.
  intros Hb Hk. unfold well_formed. apply well_formed_from_append; [| exact Hb].
  rewrite Reference.append_cons, Reference.append_nil. unroll.
  destruct (toString_digits k Hk) as [Hne Hd].
  rewrite <- (append_empty_r (Js.toString k)).
  apply well_formed_append; [| reflexivity | auto].
  apply (all_chars_weaken Js.is_digit); [| exact Hd].
  intros c Hc. unfold is_slug_char. rewrite Hc. apply orb_true_r.
Qed.

End ContentFacts.

(** ** Articles *)

Module ArticleFacts.

Import BasicFacts Shared Utils Validators ArticleValidation RegexSemantics SlugShape.
Import RegexFacts SlugFacts NumeralFacts Content ContentFacts ArticleRules.

Lemma trimStart_empty (s : string) :
  Js.trimStart s = "" <-> Js.exists_char is_visible s = false.
Proof.
  induction s as [| c s IH]; [split; reflexivity |].
  simpl. unfold is_visible at 1. destruct (Js.is_space c); simpl; [exact IH |].
  split; discriminate.
Qed.

Lemma trimStart_visible (s : string) :
  match Js.trimStart s with
  | String c _ => Js.is_space c = false
  | EmptyString => True
  end.
Proof.
  induction s as [| c s IH]; [exact I |].
  simpl. destruct (Js.is_space c) eqn:Hc; [exact IH | exact Hc].
Qed.

Lemma trim_empty (s : string) :
  Js.trim s = "" <-> Js.exists_char is_visible s = false.
Proof.
  rewrite <- trimStart_empty. unfold Js.trim.
  pose proof (trimStart_visible s) as Hv.
  destruct (Js.trimStart s) as [| c r]; [split; reflexivity |].
  simpl. rewrite Hv. split; [| discriminate].
  destruct (Js.trimEnd r); discriminate.
Qed.

Lemma length_zero (s : string) : (Js.length s =? 0) = String.eqb s "".
Proof. destruct s; reflexivity. Qed.

(** [!s || s.trim().length === 0] holds when [s] has no visible character. *)
Lemma blank_spec (s : string) :
  negb (Js.truthy s) || (Js.length (Js.trim s) =? 0)
  = negb (Js.exists_char is_visible s).
Proof.
  rewrite length_zero.
  destruct (Js.exists_char is_visible s) eqn:Hv.
  - destruct s as [| c s]; [discriminate Hv |].
    destruct (String.eqb (Js.trim (String c s)) "") eqn:E; [| reflexivity].
    apply String.eqb_eq, trim_empty in E. congruence.
  - apply trim_empty in Hv. rewrite Hv. apply orb_true_r.
Qed.

Lemma validateTitle_valid (title : option string) :
  valid (validateTitle title) = title_ok title.
Proof.
  destruct title as [t |]; [| reflexivity].
  unfold validateTitle, title_ok. rewrite blank_spec.
  rewrite (Z.leb_antisym (Js.length t) 3), (Z.leb_antisym 200 (Js.length t)).
  destruct (Js.exists_char is_visible t), (Js.length t <? 3), (200 <? Js.length t);
    reflexivity.
Qed.

Lemma validateContent_valid (content : option string) :
  valid (validateContent content) = content_ok content.
Proof.
  destruct content as [c |]; [| reflexivity].
  unfold validateContent, content_ok. rewrite blank_spec.
  rewrite (Z.leb_antisym (Js.length c) 10).
  destruct (Js.exists_char is_visible c), (Js.length c <? 10); reflexivity.
Qed.

Lemma validateSlug_valid (s : string) :
  valid (validateSlug (Some s))
  = negb (String.eqb s "") && well_formed s && (Js.length s <=? 100).
Proof.
  unfold validateSlug, Js.truthy. rewrite slugRegex_well_formed.
  rewrite (Z.leb_antisym 100 (Js.length s)).
  destruct (String.eqb s ""), (well_formed s), (100 <? Js.length s); reflexivity.
Qed.

Lemma result_of_app (a b : list string) :
  valid (result_of (a ++ b)) = valid (result_of a) && valid (result_of b).
Proof. destruct a, b; reflexivity. Qed.

(** The errors of a validator are added whether or not it is valid: a
    valid result has none. *)
Lemma keep_errors (acc errs : list string) :
  (if negb (valid (result_of errs)) then acc ++ errors (result_of errs) else acc)
  = acc ++ errs.
Proof. destruct errs; simpl; [rewrite app_nil_r |]; reflexivity. Qed.

Lemma keep_first_errors (errs : list string) :
  (if negb (valid (result_of errs)) then errors (result_of errs) else []) = errs.
Proof. destruct errs; reflexivity. Qed.

Lemma validateArticle_valid (data : ArticleData) :
  valid (validateArticle data)
  = title_ok (art_title data) && content_ok (art_content data)
    && slug_ok (art_slug data).
Proof.
  rewrite <- validateTitle_valid, <- validateContent_valid.
  unfold validateArticle, validateTitle, validateContent.
  rewrite keep_first_errors, keep_errors.
  destruct (art_slug data) as [s |]; cbn [Js.truthy_opt slug_ok]; cbv iota.
  - destruct (Js.truthy s) eqn:Ht.
    + pose proof (validateSlug_valid s) as Hs.
      unfold validateSlug in Hs |- *. rewrite keep_errors, !result_of_app, Hs.
      unfold Js.truthy in Ht. apply negb_true_iff in Ht. rewrite Ht.
      cbn [negb andb orb]. reflexivity.
    + apply falsy_empty in Ht. subst s. rewrite result_of_app, andb_true_r.
      reflexivity.
  - rewrite result_of_app, andb_true_r. reflexivity.
Qed.

(** X1. An article is accepted exactly when its title has a visible
    character and 3 to 200 characters in all (spaces included), its content
    has a visible character and at least 10 characters in all, and its
    slug, when one is given, consists of lower-case letters and digits in
    groups separated by single hyphens and has at most 100 characters. An
    empty slug counts as not given. *)
Theorem validateArticle_accepts_exactly_the_rules (data : ArticleData) :
  valid (validateArticle data)
  = title_ok (art_title data) && content_ok (art_content data)
    && slug_ok (art_slug data)
  /\ (valid (validateArticle data) = true <-> errors (validateArticle data) = []).
Proof.
  split; [apply validateArticle_valid |].
  unfold validateArticle. set (errs := if Js.truthy_opt _ then _ else _).
  destruct errs; simpl; split; intros E; (reflexivity || discriminate E).
Qed.

(** X2. The result of [slugify] is empty or has the format [validateSlug]
    asks for: of the three errors of [validateSlug], the one about the
    characters of the slug never applies to it. *)
Theorem slugify_result_has_slug_format (text : string) :
  (slugify text = "" \/ regex_test slugRegex (slugify text) = true)
  /\ errors (validateSlug (Some (slugify text)))
     = if String.eqb (slugify text) "" then ["Slug is required"]
       else if 100 <? Js.length (slugify text)
            then ["Slug must not exceed 100 characters"]
            else [].
Proof.
  assert (Hshape : slugify text = "" \/ regex_test slugRegex (slugify text) = true).
  { destruct (slugify_shape text) as [He | Hw]; [left; exact He | right].
    rewrite slugRegex_well_formed. exact Hw. }
  split; [exact Hshape |].
  unfold validateSlug, Js.truthy.
  destruct Hshape as [-> | ->]; [reflexivity |].
  destruct (String.eqb (slugify text) ""); reflexivity.
Qed.

(** X3. [slugify] changes neither its own results nor any slug that
    [validateSlug] accepts. *)
Theorem slugify_keeps_valid_slugs (text slug : string) :
  slugify (slugify text) = slugify text
  /\ (valid (validateSlug (Some slug)) = true -> slugify slug = slug).
Proof.
  split.
  - destruct (slugify_shape text) as [-> | Hw]; [reflexivity |].
    apply slugify_well_formed. exact Hw.
  - rewrite validateSlug_valid. intros Hv.
    apply andb_prop in Hv as [Hv _]. apply andb_prop in Hv as [_ Hw].
    apply slugify_well_formed. exact Hw.
Qed.


(** X5. Creating an article always ends with a slug no article has yet:
    for an authenticated request whose title and content pass validation,
    the loop ends within one round more than there are articles, and more
    rounds do not change its result; the slug is the base slug
    ([body.slug], or [slugify(title)] when the body has none) if that is
    free, and else the base slug followed by a hyphen and a counter. When
    the slug is derived from a title with a letter or digit, it has the
    format [validateSlug] asks for. *)
Theorem new_article_gets_unused_slug
    (taken : list string) (userId : string) (b : Body)
    (Huser : userId <> "")
    (Hvalid : valid (validateArticle {| art_title := body_title b;
                                        art_content := body_content b;
                                        art_slug := None |}) = true) :
  exists title slug,
    body_title b = Some title
    /\ POST_slug (S (List.length taken)) taken (Some userId) b = SlugChosen slug
    /\ (forall more,
          POST_slug (S (List.length taken) + more) taken (Some userId) b
          = SlugChosen slug)
    /\ ~ In slug taken
    /\ (~ In (baseSlug_of b title) taken -> slug = baseSlug_of b title)
    /\ (slug = baseSlug_of b title
        \/ exists k, 1 <= k
                     /\ slug = baseSlug_of b title +:+ "-" +:+ Js.toString k)
    /\ (Js.truthy_opt (body_slug b) = false ->
        Js.exists_char is_alnum title = true ->
        regex_test slugRegex slug = true).
Proof.
  assert (Htitle : exists title, body_title b = Some title).
  { rewrite validateArticle_valid in Hvalid. simpl in Hvalid.
    destruct (body_title b) as [title |]; [eauto | discriminate Hvalid]. }
  destruct Htitle as [title Htitle]. exists title.
  destruct (ensure_unique_ends taken (baseSlug_of b title)) as [slug Hslug].
  exists slug.
  assert (Hpost : forall more,
             POST_slug (S (List.length taken) + more) taken (Some userId) b
             = SlugChosen slug).
  { intros more. unfold POST_slug.
    simpl Js.truthy_opt. rewrite (truthy_nonempty userId Huser).
    rewrite Hvalid, Htitle. cbn [negb].
    rewrite (ensure_unique_more_fuel _ _ _ _ _ _ Hslug more). reflexivity. }
  destruct (ensure_unique_Some _ _ _ _ _ _ Hslug) as (Hfree & Hbase & Hshape).
  split; [exact Htitle |]. split.
  { rewrite <- (Hpost 0%nat). rewrite Nat.add_0_r. reflexivity. }
  split; [exact Hpost |]. split; [exact Hfree |]. split; [exact Hbase |].
  split; [exact Hshape |].
  intros Hnone Halnum. rewrite slugRegex_well_formed.
  assert (Hb : baseSlug_of b title = slugify title).
  { unfold baseSlug_of. destruct (body_slug b) as [s |]; [| reflexivity].
    simpl in Hnone. rewrite Hnone. reflexivity. }
  assert (Hw : well_formed (baseSlug_of b title) = true).
  { rewrite Hb. destruct (slugify_shape title) as [He | Hw]; [| exact Hw].
    rewrite <- exists_slugify, He in Halnum. discriminate Halnum. }
  destruct Hshape as [-> | (k & Hk & ->)]; [exact Hw |].
  apply numbered_well_formed; [exact Hw | lia].
Qed.

(** The third article with the title of [hello_world]. *)
Lemma new_article_gets_unused_slug_witness :
  valid (validateArticle {| art_title := body_title Examples.hello_world;
                            art_content := body_content Examples.hello_world;
                            art_slug := None |}) = true
  /\ exists slug,
       POST_slug 3 Examples.taken_slugs (Some "u1") Examples.hello_world
       = SlugChosen slug
       /\ ~ In slug Examples.taken_slugs
       /\ regex_test slugRegex slug = true.
Proof.
  assert (Huser : "u1"%string <> ""%string) by discriminate.
  assert (Hvalid :
            valid (validateArticle
                     {| art_title := body_title Examples.hello_world;
                        art_content := body_content Examples.hello_world;
                        art_slug := None |}) = true) by reflexivity.
  split; [exact Hvalid |].
  destruct (new_article_gets_unused_slug Examples.taken_slugs "u1"
              Examples.hello_world Huser Hvalid)
    as (title & slug & Htitle & Hpost & _ & Hfree & _ & _ & Hformat).
  exists slug. split; [exact Hpost |]. split; [exact Hfree |].
  injection Htitle as <-. apply Hformat; reflexivity.
Defined.

End ArticleFacts.

(** ** Tokens *)

Module TokenFacts.

Import BasicFacts Auth MiddlewareFacts.

Lemma prefix_split (p s : string) :
  String.prefix p s = true ->
  s = p +:+ String.substring (String.length p) (String.length s - String.length p) s.
Proof.
  revert s. induction p as [| a p IH]; intros s Hp.
  - rewrite Reference.append_nil. simpl. rewrite Nat.sub_0_r, substring_all.
    reflexivity.
  - destruct s as [| b s]; [discriminate Hp |]. simpl in Hp.
    destruct (ascii_dec a b) as [<- | _]; [| discriminate Hp].
    rewrite Reference.append_cons. simpl. f_equal. apply IH. exact Hp.
Qed.

Lemma extractToken_Some (h : option string) (token : string) :
  extractToken h = Some token -> h = Some ("Bearer " +:+ token).
Proof.
  destruct h as [s |]; [| discriminate]. unfold extractToken.
  destruct (Js.truthy s); simpl; [| discriminate].
  destruct (Js.startsWith s "Bearer ") eqn:Hp; simpl; [| discriminate].
  intros E. injection E as <-. f_equal.
  apply (prefix_split "Bearer " s Hp).
Qed.

(** X6. [extractToken] yields a token exactly for a header that consists
    of [Bearer ], with the space, followed by the token; the token is all
    that follows, and it is empty for the header [Bearer ] alone. *)
Theorem extractToken_returns_what_follows_bearer (h : option string) (token : string) :
  extractToken h = Some token <-> h = Some ("Bearer " +:+ token).
Proof.
  split; [apply extractToken_Some |]. intros ->. apply extractToken_bearer.
Qed.

Lemma clock_before (now k : Z) : clockTimestamp now < k <-> now < 1000 * k.
Proof.
  unfold clockTimestamp. split; intros Hlt.
  - destruct (Z_lt_le_dec now (1000 * k)) as [Hl | Hg]; [exact Hl |].
    apply (Z.div_le_lower_bound now 1000 k) in Hg; lia.
  - apply Z.div_lt_upper_bound; lia.
Qed.

Section WithJwt.
Context `{JsonWebToken}.

Lemma jwt_verify_sign (payload : TokenPayload) (secret secret' : string)
    (expiresIn issued now : Z) :
  jwt_verify (jwt_sign payload secret expiresIn issued) secret' now
  = if String.eqb secret secret' then
      if clockTimestamp issued + expiresIn <=? clockTimestamp now
      then inl TokenExpiredError else inr payload
    else inl JsonWebTokenError.
Proof. unfold jwt_verify, jwt_sign. rewrite jwt_decode_encode. reflexivity. Qed.

(** X7. A token is accepted from the instant it is signed until its
    expiry, and refused as expired from then on, whatever its payload: an
    access token signed at [issued] verifies, to the payload it was signed
    for, exactly at the instants before second
    [floor(issued / 1000) + JWT_ACCESS_EXPIRY] of the clock; the same holds
    for refresh tokens and [JWT_REFRESH_EXPIRY]. *)
Theorem token_is_accepted_until_its_expiry
    (env : Env) (payload : TokenPayload) (issued now : Z) :
  let access := generateAccessToken env payload issued in
  let refresh := generateRefreshToken env payload issued in
  let access_end := 1000 * (clockTimestamp issued + JWT_ACCESS_EXPIRY env) in
  let refresh_end := 1000 * (clockTimestamp issued + JWT_REFRESH_EXPIRY env) in
  (now < access_end <-> verifyAccessToken env access now = inr payload)
  /\ (access_end <= now <-> verifyAccessToken env access now = inl TokenExpiredError)
  /\ (now < refresh_end <-> verifyRefreshToken env refresh now = inr payload)
  /\ (refresh_end <= now
      <-> verifyRefreshToken env refresh now = inl TokenExpiredError).
Proof.
  intros access refresh access_end refresh_end.
  subst access refresh access_end refresh_end.
  unfold verifyAccessToken, verifyRefreshToken, generateAccessToken,
    generateRefreshToken.
  rewrite !jwt_verify_sign, !String.eqb_refl.
  pose proof (clock_before now (clockTimestamp issued + JWT_ACCESS_EXPIRY env)) as Ha.
  pose proof (clock_before now (clockTimestamp issued + JWT_REFRESH_EXPIRY env)) as Hr.
  destruct (Z.leb_spec (clockTimestamp issued + JWT_ACCESS_EXPIRY env)
              (clockTimestamp now));
    destruct (Z.leb_spec (clockTimestamp issued + JWT_REFRESH_EXPIRY env)
                (clockTimestamp now));
    repeat split; intros; try reflexivity; try discriminate; lia.
Qed.

(** X8. The two kinds of token are not interchangeable when the two
    secrets differ: a refresh token never verifies as an access token, nor
    an access token as a refresh token, at any instant. *)
Theorem token_kinds_are_not_interchangeable
    (env : Env) (payload : TokenPayload) (issued now : Z)
    (Hsecrets : JWT_ACCESS_SECRET env <> JWT_REFRESH_SECRET env) :
  verifyAccessToken env (generateRefreshToken env payload issued) now
  = inl JsonWebTokenError
  /\ verifyRefreshToken env (generateAccessToken env payload issued) now
     = inl JsonWebTokenError.
Proof.
  unfold verifyAccessToken, verifyRefreshToken, generateAccessToken,
    generateRefreshToken.
  rewrite !jwt_verify_sign.
  apply String.eqb_neq in Hsecrets as Hne. rewrite Hne.
  rewrite String.eqb_sym in Hne. rewrite Hne. split; reflexivity.
Qed.

End WithJwt.

Import Reference.

(** The tokens of the default configuration. *)
Lemma token_kinds_are_not_interchangeable_witness :
  let payload := {| userId := "u1"; email := "alice@example.com"; role := "viewer" |} in
  JWT_ACCESS_SECRET default_env <> JWT_REFRESH_SECRET default_env
  /\ verifyAccessToken default_env (generateRefreshToken default_env payload 0) 1000
     = inl JsonWebTokenError
  /\ verifyRefreshToken default_env (generateAccessToken default_env payload 0) 1000
     = inl JsonWebTokenError.
Proof.
  intros payload.
  assert (Hsecrets : JWT_ACCESS_SECRET default_env <> JWT_REFRESH_SECRET default_env)
    by discriminate.
  split; [exact Hsecrets |].
  apply (token_kinds_are_not_interchangeable default_env payload 0 1000 Hsecrets).
Defined.

End TokenFacts.

(** ** Roles and permissions *)

Module RoleFacts.

Import BasicFacts Auth Shared.

Lemma lower_upper_char (c : ascii) :
  Js.lower_char (Js.upper_char c) = Js.lower_char c.
Proof. SlugFacts.each_char c. Qed.

Lemma lower_lower_char (c : ascii) :
  Js.lower_char (Js.lower_char c) = Js.lower_char c.
Proof. SlugFacts.each_char c. Qed.

Lemma toLowerCase_toUpperCase (s : string) :
  Js.toLowerCase (Js.toUpperCase s) = Js.toLowerCase s.
Proof.
  unfold Js.toLowerCase, Js.toUpperCase.
  induction s as [| c s IH]; [reflexivity |].
  cbn [Js.map_string]. rewrite lower_upper_char, IH. reflexivity.
Qed.

Lemma toLowerCase_idempotent (s : string) :
  Js.toLowerCase (Js.toLowerCase s) = Js.toLowerCase s.
Proof.
  unfold Js.toLowerCase.
  induction s as [| c s IH]; [reflexivity |].
  cbn [Js.map_string]. rewrite lower_lower_char, IH. reflexivity.
Qed.

Lemma getPermissions_toLowerCase (role : string) :
  getPermissions (Js.toLowerCase role) = getPermissions role.
Proof. unfold getPermissions. rewrite toLowerCase_idempotent. reflexivity. Qed.


(** X10. The permissions a login response lists are the ones the permission
    check uses: when [getPermissions] gives a list for a role,
    [hasPermission] on the lower-case role grants a permission exactly when
    the list holds ["*"] or an entry that matches it; when [getPermissions]
    gives a value inherited from [Object.prototype], [hasPermission]
    throws. *)
Theorem listed_permissions_are_the_checked_ones (role permission : string) :
  match getPermissions role with
  | PermissionList l =>
      hasPermission (Js.toLowerCase role) permission
      = Some (Js.includes l "*" || Js.some (permission_matches permission) l)
  | PrototypeValue _ =>
      hasPermission (Js.toLowerCase role) permission = None
  end.
Proof.
  unfold getPermissions, hasPermission.
  change rolePermissionsTable with permissions.
  destruct (Js.get permissions (Js.toLowerCase role)) as [l | k |]; try reflexivity.
  destruct (Js.includes l "*"); reflexivity.
Qed.

End RoleFacts.

(** ** Cached values *)

Module CacheFacts.

Import BasicFacts Redis CacheHelpers.

Lemma get_after_set (cache : Cache) (key val : string) (ttl : option Z)
    (stored now : Z) :
  get (set cache key val ttl stored) key now
  = if stored + lifetime ttl * 1000 <? now
    then (None, delete key (set cache key val ttl stored))
    else (Some val, set cache key val ttl stored).
Proof.
  unfold get, set, lifetime. rewrite lookup_insert_eq. simpl.
  destruct ttl as [s |]; [destruct (s =? 0) |]; reflexivity.
Qed.

Lemma get_after_del (cache : Cache) (key : string) (now : Z) :
  get (del cache key) key now = (None, del cache key).
Proof. unfold get, del. rewrite lookup_delete_eq. reflexivity. Qed.

Section WithJson.
Context {T : Type} `{Json T}.

Lemma getCached_miss (cache : Cache) (key : string) (x : T) (ttl : option Z)
    (now stored : Z) :
  fst (get cache key now) = None ->
  getCached cache key x ttl now stored
  = {| fetch_result := Some x;
       fetch_cache := set (snd (get cache key now)) key (stringify x)
                        (Some (match ttl with Some s => s | None => 3600 end)) stored;
       fetcher_called := true |}.
Proof.
  intros Hmiss. unfold getCached.
  destruct (get cache key now) as [cached cache1]. simpl in Hmiss. subst cached.
  reflexivity.
Qed.

Lemma lifetime_default (ttl : option Z) :
  lifetime (Some (match ttl with Some s => s | None => 3600 end)) = lifetime ttl.
Proof. destruct ttl; reflexivity. Qed.

(** X11. [getCached] serves what it has fetched until the entry expires.
    After a call that finds nothing under the key, fetches [x] and stores
    it at the instant [stored], a second call up to [ttl] seconds after
    [stored] returns [x] without calling its fetcher and leaves the cache as
    it is, whatever its fetcher would return; a call after that fetches
    anew, and so does any call after [invalidateCache(key)]. A [ttl] of
    zero stands for an hour. *)
Theorem getCached_serves_stored_value_until_expiry
    (cache : Cache) (key : string) (x y : T) (ttl : option Z)
    (looked stored now now' : Z)
    (Hmiss : fst (get cache key looked) = None) :
  let first := getCached cache key x ttl looked stored in
  let again := getCached (fetch_cache first) key y ttl now now' in
  let after_invalidation :=
    getCached (invalidateCache (fetch_cache first) key) key y ttl now now' in
  fetch_result first = Some x
  /\ fetcher_called first = true
  /\ (now <= stored + lifetime ttl * 1000 ->
      fetch_result again = Some x
      /\ fetcher_called again = false
      /\ fetch_cache again = fetch_cache first)
  /\ (stored + lifetime ttl * 1000 < now ->
      fetch_result again = Some y /\ fetcher_called again = true)
  /\ fetch_result after_invalidation = Some y
  /\ fetcher_called after_invalidation = true.
Proof.
  intros first again after_invalidation.
  subst again after_invalidation first.
  rewrite (getCached_miss cache key x ttl looked stored Hmiss).
  cbn [fetch_result fetch_cache fetcher_called].
  split; [reflexivity |]. split; [reflexivity |].
  set (cache1 := snd (get cache key looked)).
  split; [| split].
  - intros Hlive. unfold getCached at 1 2 3.
    rewrite get_after_set, lifetime_default.
    replace (stored + lifetime ttl * 1000 <? now) with false
      by (symmetry; apply Z.ltb_ge; lia).
    rewrite stringify_truthy. cbn [fetch_result fetch_cache fetcher_called].
    rewrite parse_stringify. repeat split.
  - intros Hdead. unfold getCached at 1 2.
    rewrite get_after_set, lifetime_default.
    replace (stored + lifetime ttl * 1000 <? now) with true
      by (symmetry; apply Z.ltb_lt; lia).
    split; reflexivity.
  - unfold getCached, invalidateCache. rewrite get_after_del. split; reflexivity.
Qed.

End WithJson.

(** A page cached for a minute: served from the cache after 30 s, fetched
    again after 61 s. *)
Lemma getCached_serves_stored_value_until_expiry_witness :
  let first := getCached ∅ "page:home" "first"%string (Some 60) 0 0 in
  fst (get ∅ "page:home" 0) = None
  /\ fetch_result (getCached (fetch_cache first) "page:home" "second"%string
                     (Some 60) 30000 30000) = Some "first"%string
  /\ fetch_result (getCached (fetch_cache first) "page:home" "second"%string
                     (Some 60) 61000 61000) = Some "second"%string.
Proof.
  intros first.
  assert (Hmiss : fst (get (∅ : Cache) "page:home" 0) = None) by reflexivity.
  split; [exact Hmiss |].
  pose proof (getCached_serves_stored_value_until_expiry
                ∅ "page:home" "first"%string "second"%string (Some 60)
                0 0 30000 30000 Hmiss) as (_ & _ & Hlive & _).
  pose proof (getCached_serves_stored_value_until_expiry
                ∅ "page:home" "first"%string "second"%string (Some 60)
                0 0 61000 61000 Hmiss) as (_ & _ & _ & Hdead & _).
  split.
  - apply Hlive. vm_compute. discriminate.
  - apply Hdead. reflexivity.
Defined.

End CacheFacts.

(** ** Quotas *)

Module TrafficFacts.

Import BasicFacts Redis NumeralFacts RateLimitFacts Traffic.

Lemma rate_key_inj (identifier identifier' : string) (t t' : LimitType) :
  rate_key identifier t = rate_key identifier' t' ->
  identifier = identifier' /\ t = t'.
Proof.
  unfold rate_key. intros E. apply ContentFacts.append_cancel_l in E.
  destruct t, t'; vm_compute in E; try discriminate E;
    (split; [congruence | reflexivity]).
Qed.

Lemma get_other (cache : Cache) (key key' : string) (now : Z) :
  key' <> key -> snd (get cache key now) !! key' = cache !! key'.
Proof.
  intros Hne. unfold get. destruct (cache !! key) as [item |]; [| reflexivity].
  destruct (expiry item <? now); [| reflexivity].
  simpl. apply lookup_delete_ne. congruence.
Qed.

(** [checkLimit] writes the entry of its own bucket only. *)
Lemma checkLimit_other (cache : Cache) (identifier : string) (t : LimitType)
    (now : Z) (key' : string) :
  key' <> rate_key identifier t ->
  snd (checkLimit cache identifier t now) !! key' = cache !! key'.
Proof.
  intros Hne. unfold checkLimit, incr.
  pose proof (get_other cache (rate_key identifier t) key' now Hne) as Hg.
  destruct (get cache (rate_key identifier t) now) as [current cache1].
  simpl in Hg. set (newValue := number_toString _).
  assert (Hs : set cache1 (rate_key identifier t) newValue None now !! key'
               = cache !! key').
  { unfold set. rewrite lookup_insert_ne by congruence. exact Hg. }
  destruct (Js.parseInt newValue) as [[| [p | p |] | p] |]; simpl; try exact Hs.
  unfold expire. destruct (set _ _ _ _ _ !! rate_key identifier t); [| exact Hs].
  rewrite lookup_insert_ne by congruence. exact Hs.
Qed.

(** The answer of [checkLimit] depends on the entry of its bucket only. *)
Lemma checkLimit_local (cache cache' : Cache) (identifier : string)
    (t : LimitType) (now : Z) :
  cache !! rate_key identifier t = cache' !! rate_key identifier t ->
  fst (checkLimit cache identifier t now) = fst (checkLimit cache' identifier t now).
Proof.
  intros E. unfold checkLimit, incr.
  assert (Hg : fst (get cache (rate_key identifier t) now)
               = fst (get cache' (rate_key identifier t) now)).
  { unfold get. rewrite E. destruct (cache' !! rate_key identifier t) as [item |];
      [destruct (expiry item <? now) |]; reflexivity. }
  destruct (get cache (rate_key identifier t) now) as [current cache1].
  destruct (get cache' (rate_key identifier t) now) as [current' cache1'].
  simpl in Hg. subst current'. reflexivity.
Qed.

Lemma serve_all_other (reqs : list Request) (identifier : string) (t : LimitType) :
  Forall (other_bucket identifier t) reqs ->
  forall cache, serve_all cache reqs !! rate_key identifier t
                = cache !! rate_key identifier t.
Proof.
  induction 1 as [| r reqs Hr _ IH]; intros cache; [reflexivity |].
  simpl. rewrite IH. apply checkLimit_other.
  intros E. apply rate_key_inj in E as [E1 E2].
  destruct Hr as [Hr | Hr]; apply Hr; congruence.
Qed.

(** X12. The quota of a client is its own: calls of [checkLimit] for other
    buckets (another identifier, or the same identifier with another type)
    change neither the answer of the client's next call nor the entry of
    its bucket, however many they are and whenever they come. *)
Theorem other_buckets_do_not_touch_a_quota
    (cache : Cache) (others : list Request) (identifier : string)
    (t : LimitType) (now : Z)
    (Hothers : Forall (other_bucket identifier t) others) :
  fst (checkLimit (serve_all cache others) identifier t now)
  = fst (checkLimit cache identifier t now)
  /\ serve_all cache others !! rate_key identifier t
     = cache !! rate_key identifier t.
Proof.
  pose proof (serve_all_other others identifier t Hothers cache) as E.
  split; [apply checkLimit_local |]; exact E.
Qed.

(** One client's quota after three calls of its neighbours. *)
Lemma other_buckets_do_not_touch_a_quota_witness :
  let others :=
    [ {| req_identifier := "198.51.100.1"; req_type := anonymous; req_time := 10 |};
      {| req_identifier := "203.0.113.7"; req_type := authenticated; req_time := 20 |};
      {| req_identifier := "198.51.100.1"; req_type := anonymous; req_time := 30 |} ] in
  Forall (other_bucket "203.0.113.7" anonymous) others
  /\ fst (checkLimit (serve_all saturated others) "203.0.113.7" anonymous 1000)
     = fst (checkLimit saturated "203.0.113.7" anonymous 1000).
Proof.
  intros others.
  assert (Hothers : Forall (other_bucket "203.0.113.7" anonymous) others).
  { repeat apply List.Forall_cons; try apply List.Forall_nil;
      (left; discriminate) || (right; discriminate). }
  split; [exact Hothers |].
  apply (other_buckets_do_not_touch_a_quota saturated others "203.0.113.7"
           anonymous 1000 Hothers).
Defined.

(** Requests that keep coming within the hour after the one before: the
    count goes on. *)
Lemma serve_paced (times : list Z) :
  forall (cache : Cache) (identifier : string) (t : LimitType) (n e : Z),
    cache !! rate_key identifier t = Some {| value := Js.toString n; expiry := e |} ->
    0 <= n ->
    paced e times = true ->
    forall (k : nat) (r : LimitResult),
      nth_error (fst (serve cache identifier t times)) k = Some r ->
      exists now, r = result_of_count t (n + Z.of_nat (S k)) now.
Proof.
  induction times as [| now rest IH]; intros cache identifier t n e E Hn Hp k r Hk.
  - destruct k; discriminate Hk.
  - simpl in Hp. apply andb_prop in Hp as [Hnow Hrest]. apply Z.leb_le in Hnow.
    simpl in Hk.
    rewrite (checkLimit_live cache identifier t n e now E Hn Hnow) in Hk.
    destruct (serve (<[rate_key identifier t := counted (n + 1) now]> cache)
                identifier t rest) as [rs cache2] eqn:Es.
    destruct k as [| k]; simpl in Hk.
    + injection Hk as <-. exists now. f_equal; lia.
    + assert (Hk' : nth_error
                      (fst (serve (<[rate_key identifier t := counted (n + 1) now]> cache)
                              identifier t rest)) k = Some r)
        by (rewrite Es; exact Hk).
      destruct (IH _ identifier t (n + 1) (now + hour_ms)
                  (lookup_insert_eq _ _ _) ltac:(lia) Hrest k r Hk')
        as [now' Hr].
      exists now'. rewrite Hr. f_equal; lia.
Qed.

(** X13. A client that has used up its quota and keeps calling is never
    let in again: as long as each call comes at most an hour after the one
    before, every call counts, none is allowed and the remaining quota
    stays 0. Each call moves the end of the window an hour past itself. *)
Theorem exhausted_client_is_not_readmitted_while_it_retries
    (cache : Cache) (identifier : string) (t : LimitType) (n e : Z)
    (times : list Z)
    (Hentry : cache !! rate_key identifier t
              = Some {| value := Js.toString n; expiry := e |})
    (Hexhausted : limits t <= n)
    (Hpaced : paced e times = true) :
  Forall (fun r => allowed r = false /\ remaining r = Some 0)
    (fst (serve cache identifier t times)).
Proof.
  apply List.Forall_forall. intros r Hin.
  apply List.In_nth_error in Hin as [k Hk].
  assert (Hn : 0 <= n) by (destruct t; simpl in Hexhausted; lia).
  destruct (serve_paced times cache identifier t n e Hentry Hn Hpaced k r Hk)
    as [now ->].
  simpl. split.
  - apply Z.leb_gt. lia.
  - f_equal. lia.
Qed.

(** The client of [saturated] calling every 59 minutes for a day. *)
Lemma exhausted_client_is_not_readmitted_while_it_retries_witness :
  let times := List.map (fun i => Z.of_nat i * 3540000) (seq 1 24) in
  saturated !! rate_key "203.0.113.7" anonymous
  = Some {| value := Js.toString 100; expiry := 3600000 |}
  /\ paced 3600000 times = true
  /\ Forall (fun r => allowed r = false /\ remaining r = Some 0)
       (fst (serve saturated "203.0.113.7" anonymous times)).
Proof.
  intros times.
  assert (Hentry : saturated !! rate_key "203.0.113.7" anonymous
                   = Some {| value := Js.toString 100; expiry := 3600000 |})
    by reflexivity.
  assert (Hpaced : paced 3600000 times = true) by reflexivity.
  split; [exact Hentry |]. split; [exact Hpaced |].
  apply (exhausted_client_is_not_readmitted_while_it_retries saturated "203.0.113.7"
           anonymous 100 3600000 times Hentry); [simpl; lia | exact Hpaced].
Defined.

Lemma checkLimit_entry (cache : Cache) (identifier : string) (t : LimitType)
    (now : Z) :
  exists item,
    snd (checkLimit cache identifier t now) !! rate_key identifier t = Some item
    /\ expiry item = now + hour_ms.
Proof.
  pose proof (checkLimit_sets_expiry cache identifier t now) as He.
  destruct (snd (checkLimit cache identifier t now) !! rate_key identifier t)
    as [item |]; [| discriminate He].
  exists item. split; [reflexivity |]. simpl in He. congruence.
Qed.

Lemma checkLimit_resetAt (cache : Cache) (identifier : string) (t : LimitType)
    (now : Z) :
  resetAt (fst (checkLimit cache identifier t now)) = now + hour_ms.
Proof.
  unfold checkLimit. destruct (incr cache (rate_key identifier t) now).
  reflexivity.
Qed.

(** X14. A client is let in again once it has stayed away until after the
    [resetAt] of its last call: the first call after that instant counts as
    request 1 of a new window and is allowed, whatever the count was. At
    [resetAt] itself the old entry is still live. *)
Theorem quota_is_restored_after_resetAt
    (cache : Cache) (identifier : string) (t : LimitType) (last now : Z) :
  let answered := checkLimit cache identifier t last in
  let next := checkLimit (snd answered) identifier t now in
  resetAt (fst answered) = last + hour_ms
  /\ (resetAt (fst answered) < now ->
      fst next = result_of_count t 1 now
      /\ allowed (fst next) = true
      /\ remaining (fst next) = Some (limits t - 1))
  /\ (now <= resetAt (fst answered) ->
      fst (get (snd answered) (rate_key identifier t) now) <> None).
Proof.
  intros answered next. subst next.
  assert (Hreset : resetAt (fst answered) = last + hour_ms)
    by apply checkLimit_resetAt.
  rewrite Hreset. split; [reflexivity |].
  destruct (checkLimit_entry cache identifier t last) as (item & Hitem & Hexp).
  fold answered in Hitem.
  split.
  - intros Hlate.
    assert (Hfresh : fst (get (snd answered) (rate_key identifier t) now) = None).
    { unfold get. rewrite Hitem.
      replace (expiry item <? now) with true by (symmetry; apply Z.ltb_lt; lia).
      reflexivity. }
    rewrite (checkLimit_fresh _ _ _ _ Hfresh). simpl.
    split; [reflexivity |]. split; [destruct t; reflexivity |].
    f_equal. destruct t; reflexivity.
  - intros Hearly. unfold get. rewrite Hitem.
    replace (expiry item <? now) with false by (symmetry; apply Z.ltb_ge; lia).
    discriminate.
Qed.

End TrafficFacts.

(** ** Requests that pass the middleware *)

Module GatewayFacts.

Import BasicFacts Auth Redis Middleware MiddlewareFacts TokenFacts Shared.

Lemma with_user_lookup (payload : TokenPayload) (h : gmap string string) :
  with_user payload h !! "x-user-id" = Some (userId payload)
  /\ with_user payload h !! "x-user-email" = Some (email payload)
  /\ with_user payload h !! "x-user-role" = Some (role payload).
Proof.
  unfold with_user. repeat split.
  - rewrite !lookup_insert_ne by discriminate. apply lookup_insert_eq.
  - rewrite lookup_insert_ne by discriminate. apply lookup_insert_eq.
  - apply lookup_insert_eq.
Qed.

(** Who may publish, by the permission table. *)
Lemma publish_permission (userRole : string) :
  hasPermission userRole "content:publish" = Some true
  <-> userRole = "admin" \/ userRole = "editor".
Proof.
  unfold hasPermission, Js.get, rolePermissionsTable. cbn [Js.get_own].
  destruct (String.eqb "admin" userRole) eqn:Ea.
  { apply String.eqb_eq in Ea. subst userRole. split; [auto | reflexivity]. }
  destruct (String.eqb "editor" userRole) eqn:Ee.
  { apply String.eqb_eq in Ee. subst userRole. split; [auto | reflexivity]. }
  apply String.eqb_neq in Ea, Ee.
  assert (Hno : ~ (userRole = "admin" \/ userRole = "editor"))
    by (intros [-> | ->]; congruence).
  destruct (String.eqb "author" userRole);
    [split; [discriminate | intros Hr; destruct (Hno Hr)] |].
  destruct (String.eqb "viewer" userRole);
    [split; [discriminate | intros Hr; destruct (Hno Hr)] |].
  destruct (Js.includes Js.object_prototype_keys userRole);
    split; try discriminate; intros Hr; destruct (Hno Hr).
Qed.

Section WithJwt.
Context `{JsonWebToken}.

Lemma forwarded_is_verified (env : Env) (cache : Cache) (req : NextRequest)
    (now : Z) (h : option (gmap string string)) :
  Js.startsWith (pathname req) "/api" = true ->
  is_public (pathname req) = false ->
  response (middleware env cache req now) = next h ->
  exists token payload,
    headers req !! "authorization" = Some ("Bearer " +:+ token)
    /\ verifyAccessToken env token now = inr payload
    /\ h = Some (with_user payload (headers req)).
Proof.
  intros Hapi Hprivate. unfold middleware. rewrite Hprivate, Hapi.
  destruct (checkLimit cache (identifier_of req) _ now) as [rateLimit cache1].
  destruct (allowed rateLimit); simpl negb; cbv iota; [| discriminate].
  destruct (extractToken (headers req !! "authorization")) as [token |] eqn:He;
    [| discriminate].
  apply extractToken_Some in He.
  destruct (negb (Js.truthy token)); [discriminate |].
  destruct (verifyAccessToken env token now) as [e | payload] eqn:Hv;
    [discriminate |].
  simpl. intros E. injection E as <-. eauto.
Qed.



End WithJwt.

Import Reference Examples.

Lemma forged_is_forwarded :
  exists forwarded,
    response (middleware default_env ∅ forged 1000) = next (Some forwarded).
Proof. eexists. vm_compute. reflexivity. Qed.



End GatewayFacts.

(** ** Sessions: what the handlers do to the tables *)

Module SessionFacts.

Import BasicFacts Auth Prisma Api Sessions RefreshFacts TokenFacts RoleFacts.

Section WithLibraries.
Context `{JsonWebToken} `{Bcrypt}.

(** Settles the case of a handler that has answered with an error and
    left the tables alone. *)
Ltac failed :=
  split; [discriminate | split; [eexists; reflexivity | split; reflexivity]].

(** The two ways a login ends: without a trace in the tables, or with one
    more session row. *)
Lemma login_cases (env : Env) (db : Db) (b : Login.Body) (now : Z) (id : string) :
  let out := Login.POST env db b now id in
  (status (fst out) <> 200
   /\ (exists e, body (fst out) = failure e)
   /\ users (snd out) = users db
   /\ refreshTokens (snd out) = refreshTokens db)
  \/ exists email password user,
       Login.body_email b = Some email
       /\ Login.body_password b = Some password
       /\ Js.truthy email = true
       /\ Js.truthy password = true
       /\ find_user_by_email email (users db) = Some user
       /\ verifyPassword password (user_password user) = true
       /\ find_token (generateRefreshToken env (Refresh.payload_of user) now)
            (refreshTokens db) = None
       /\ fst out = ok (session_of env user now) 200 now
       /\ users (snd out) = users db
       /\ refreshTokens (snd out) = refreshTokens db ++ [session_row env user id now].
Proof.
  intros out. subst out. unfold Login.POST.
  destruct (Login.body_email b) as [email |]; [| left; failed].
  destruct (Login.body_password b) as [password |];
    [| left; failed].
  destruct (Js.truthy email) eqn:Hte; [| left; failed].
  destruct (Js.truthy password) eqn:Htp; [| left; failed].
  cbn [negb orb]. unfold user_findUnique.
  destruct (find_user_by_email email (users db)) as [user |] eqn:Hu;
    [| left; failed].
  destruct (verifyPassword password (user_password user)) eqn:Hp;
    [| left; failed].
  cbn [negb]. unfold refreshToken_create. cbn [refreshTokens logged].
  destruct (find_token_by_id id (refreshTokens db));
    [left; failed |].
  change {| userId := user_id user; email := user_email user;
            role := Js.toLowerCase (user_role user) |}
    with (Refresh.payload_of user).
  destruct (find_token (generateRefreshToken env (Refresh.payload_of user) now)
              (refreshTokens db)) eqn:Ht;
    [left; failed |].
  right. exists email, password, user. repeat split; assumption.
Qed.

(** X17. A login never touches the user table, and writes the session
    table only when it succeeds: every answer other than 200 leaves the
    sessions as they are, and a 200 adds exactly one row, for the user of
    the e-mail address, holding the refresh token of the response and
    expiring seven days later. No row is removed or replaced. *)
Theorem login_adds_one_session_or_nothing
    (env : Env) (db : Db) (b : Login.Body) (now : Z) (id : string) :
  let out := Login.POST env db b now id in
  users (snd out) = users db
  /\ (status (fst out) <> 200 -> refreshTokens (snd out) = refreshTokens db)
  /\ (status (fst out) = 200 ->
      exists email user data row,
        Login.body_email b = Some email
        /\ find_user_by_email email (users db) = Some user
        /\ body (fst out) = success data
        /\ au_id (Api.user data) = user_id user
        /\ refreshTokens (snd out) = refreshTokens db ++ [row]
        /\ rt_id row = id
        /\ rt_token row = refreshToken data
        /\ rt_userId row = user_id user
        /\ rt_expiresAt row = now + seven_days_ms).
Proof.
  intros out.
  destruct (login_cases env db b now id)
    as [(Hs & _ & Hu & Hr)
       | (email & password & user & He & _ & _ & _ & Hu & _ & _ & Ho & Hus & Hr)];
    fold out in Hs, Hu, Hr || fold out in Ho, Hus, Hr.
  - split; [exact Hu |]. split; [intros _; exact Hr | intros E; contradiction].
  - split; [exact Hus |]. split.
    + intros Hn. rewrite Ho in Hn. contradiction Hn. reflexivity.
    + intros _. exists email, user, (session_of env user now),
        (session_row env user id now).
      rewrite Ho. repeat split; assumption.
Qed.

(** X18. A second login of the same user within the clock second of a
    successful one fails: the refresh token it mints is the one the first
    login stored, the insert violates the uniqueness of the session row,
    and the answer is 500, with the tables left as the first login left
    them. *)
Theorem second_login_in_the_same_second_fails
    (env : Env) (db : Db) (b : Login.Body) (now now' : Z) (id id' : string)
    (Hfirst : status (fst (Login.POST env db b now id)) = 200)
    (Hsecond : clockTimestamp now' = clockTimestamp now) :
  let first := Login.POST env db b now id in
  let second := Login.POST env (snd first) b now' id' in
  status (fst second) = 500
  /\ (exists target,
        fst second = Login.internal_error (UniqueConstraintFailed target) now')
  /\ users (snd second) = users (snd first)
  /\ refreshTokens (snd second) = refreshTokens (snd first).
Proof.
  intros first second.
  destruct (login_cases env db b now id)
    as [(Hs & _) | (email & password & user & He & Hp & Hte & Htp & Hu & Hv & Ht
                    & Ho & Hus & Hr)];
    [contradiction |].
  fold first in Ho, Hus, Hr.
  subst second. unfold Login.POST. rewrite He, Hp, Hte, Htp. cbn [negb orb].
  unfold user_findUnique. rewrite Hus, Hu, Hv. cbn [negb].
  unfold refreshToken_create. cbn [refreshTokens logged users].
  change {| userId := user_id user; email := user_email user;
            role := Js.toLowerCase (user_role user) |}
    with (Refresh.payload_of user).
  rewrite (same_second_same_token env _ now' now Hsecond).
  destruct (find_token_by_id id' (refreshTokens (snd first))).
  - split; [reflexivity |]. split; [eexists; reflexivity |].
    split; [exact Hus | reflexivity].
  - assert (Hfound : find_token (generateRefreshToken env (Refresh.payload_of user) now)
                       (refreshTokens (snd first))
                     = Some (session_row env user id now)).
    { rewrite Hr. unfold find_token in *. rewrite (find_app_last _ _ _ Ht).
      cbn [session_row rt_token]. rewrite String.eqb_refl. reflexivity. }
    rewrite Hfound.
    split; [reflexivity |]. split; [eexists; reflexivity |].
    split; [exact Hus | reflexivity].
Qed.

(** X19. A refresh that is answered 400 or 401 changes no table: the users
    and the sessions, the presented one included, are as before. *)
Theorem rejected_refresh_changes_no_table
    (env : Env) (db : Db) (b : Refresh.Body) (now : Z) (id : string)
    (Hrejected : status (fst (Refresh.POST env db b now id)) = 400
                 \/ status (fst (Refresh.POST env db b now id)) = 401) :
  users (snd (Refresh.POST env db b now id)) = users db
  /\ refreshTokens (snd (Refresh.POST env db b now id)) = refreshTokens db.
Proof.
  revert Hrejected. unfold Refresh.POST.
  destruct (Refresh.body_refreshToken b) as [token |]; [| split; reflexivity].
  destruct (negb (Js.truthy token)); [split; reflexivity |].
  destruct (verifyRefreshToken env token now); [split; reflexivity |].
  unfold refreshToken_findUnique.
  destruct (find_token token (refreshTokens db)) as [row |];
    cbn [option_map]; cbv beta iota; [| split; reflexivity].
  destruct (rt_expiresAt row <? now); [split; reflexivity |].
  destruct (find_user_by_id (rt_userId row) (users db)) as [user |];
    [| split; reflexivity].
  unfold refreshToken_delete. cbn [refreshTokens logged].
  destruct (find_token_by_id (rt_id row) (refreshTokens db));
    cbv beta iota zeta; [| split; reflexivity].
  unfold refreshToken_create. cbn [refreshTokens logged].
  destruct (find_token_by_id id _); cbv beta iota zeta;
    [intros [Hs | Hs]; discriminate Hs |].
  destruct (find_token _ _); cbv beta iota zeta;
    intros [Hs | Hs]; discriminate Hs.
Qed.

(** X20. A refresh issues its tokens for the account as the database holds
    it, not as the presented token describes it: after a 200, both new
    tokens verify to the id, e-mail address and lower-cased role of the
    user joined to the stored row, and the response lists that role and its
    permissions. *)
Theorem refresh_issues_tokens_for_the_stored_account
    (env : Env) (db : Db) (token : string) (now : Z) (id : string)
    (Haccess : 0 < JWT_ACCESS_EXPIRY env)
    (Hrefresh : 0 < JWT_REFRESH_EXPIRY env)
    (Hok : status (fst (Refresh.POST env db (Refresh.presenting token) now id)) = 200) :
  exists row user data,
    find_token token (refreshTokens db) = Some row
    /\ find_user_by_id (rt_userId row) (users db) = Some user
    /\ body (fst (Refresh.POST env db (Refresh.presenting token) now id)) = success data
    /\ verifyAccessToken env (accessToken data) now = inr (Refresh.payload_of user)
    /\ verifyRefreshToken env (refreshToken data) now = inr (Refresh.payload_of user)
    /\ au_id (Api.user data) = user_id user
    /\ au_email (Api.user data) = user_email user
    /\ au_role (Api.user data) = Js.toLowerCase (user_role user)
    /\ au_permissions (Api.user data) = getPermissions (user_role user).
Proof.
  destruct (POST_success env db token now id Hok)
    as (row & user & Hrow & Huser & Hresp & _ & _).
  exists row, user. eexists. split; [exact Hrow |]. split; [exact Huser |].
  split; [rewrite Hresp; reflexivity |].
  cbn [accessToken refreshToken Api.user au_id au_email au_role au_permissions
       Refresh.new_tokens Refresh.rot_accessToken Refresh.rot_refreshToken
       Refresh.rot_user].
  unfold verifyAccessToken, verifyRefreshToken, generateAccessToken,
    generateRefreshToken.
  rewrite !jwt_verify_sign, !String.eqb_refl.
  replace (clockTimestamp now + JWT_ACCESS_EXPIRY env <=? clockTimestamp now)
    with false by (symmetry; apply Z.leb_gt; lia).
  replace (clockTimestamp now + JWT_REFRESH_EXPIRY env <=? clockTimestamp now)
    with false by (symmetry; apply Z.leb_gt; lia).
  repeat split. apply getPermissions_toLowerCase.
Qed.

End WithLibraries.

Import Reference Examples.

(** [alice] logs in twice within one second. *)
Lemma second_login_in_the_same_second_fails_witness :
  status (fst (Login.POST default_env only_alice alice_login 0 "r1")) = 200
  /\ clockTimestamp 900 = clockTimestamp 0
  /\ status (fst (Login.POST default_env
                    (snd (Login.POST default_env only_alice alice_login 0 "r1"))
                    alice_login 900 "r2")) = 500.
Proof.
  assert (Hfirst : status (fst (Login.POST default_env only_alice alice_login 0 "r1"))
                   = 200) by (vm_compute; reflexivity).
  split; [exact Hfirst |]. split; [reflexivity |].
  apply (second_login_in_the_same_second_fails default_env only_alice alice_login
           0 900 "r1" "r2" Hfirst eq_refl).
Defined.

(** A refresh token that verifies and is not stored. *)
Lemma rejected_refresh_changes_no_table_witness :
  let token := refreshToken alice_session in
  status (fst (Refresh.POST default_env only_alice (Refresh.presenting token) 1000 "r1"))
  = 401
  /\ refreshTokens
       (snd (Refresh.POST default_env only_alice (Refresh.presenting token) 1000 "r1"))
     = refreshTokens only_alice.
Proof.
  intros token.
  assert (H401 : status (fst (Refresh.POST default_env only_alice
                                (Refresh.presenting token) 1000 "r1")) = 401)
    by (vm_compute; reflexivity).
  split; [exact H401 |].
  apply (rejected_refresh_changes_no_table default_env only_alice
           (Refresh.presenting token) 1000 "r1" (or_intror H401)).
Defined.

(** [alice] refreshes a session of her time as a viewer after her
    promotion: the new access token carries the role [editor]. *)
Lemma refresh_issues_tokens_for_the_stored_account_witness :
  let token := refreshToken alice_session in
  0 < JWT_ACCESS_EXPIRY default_env
  /\ status (fst (Refresh.POST default_env promoted (Refresh.presenting token) 5000 "r2"))
     = 200
  /\ (role <$> (jwt_payload <$> jwt_decode token)) = Some "viewer"
  /\ exists data,
       body (fst (Refresh.POST default_env promoted (Refresh.presenting token) 5000 "r2"))
       = success data
       /\ au_role (Api.user data) = "editor"
       /\ (role <$> (jwt_payload <$> jwt_decode (accessToken data))) = Some "editor".
Proof.
  intros token.
  assert (Haccess : 0 < JWT_ACCESS_EXPIRY default_env) by reflexivity.
  assert (Hrefresh : 0 < JWT_REFRESH_EXPIRY default_env) by reflexivity.
  assert (Hok : status (fst (Refresh.POST default_env promoted
                               (Refresh.presenting token) 5000 "r2")) = 200)
    by (vm_compute; reflexivity).
  split; [exact Haccess |]. split; [exact Hok |].
  split; [vm_compute; reflexivity |].
  destruct (refresh_issues_tokens_for_the_stored_account default_env promoted token
              5000 "r2" Haccess Hrefresh Hok)
    as (row & account & data & _ & Haccount & Hbody & _ & _ & _ & _ & Hrole & _).
  exists data. split; [exact Hbody |].
  assert (Hstored : role <$> (jwt_payload <$> jwt_decode (accessToken data))
                    = Some (au_role (Api.user data))).
  { assert (Hdata : success data
                    = body (fst (Refresh.POST default_env promoted
                                   (Refresh.presenting token) 5000 "r2")))
      by (symmetry; exact Hbody).
    vm_compute in Hdata. injection Hdata as ->. vm_compute. reflexivity. }
  assert (Heditor : au_role (Api.user data) = "editor").
  { assert (Hdata : success data
                    = body (fst (Refresh.POST default_env promoted
                                   (Refresh.presenting token) 5000 "r2")))
      by (symmetry; exact Hbody).
    vm_compute in Hdata. injection Hdata as ->. reflexivity. }
  split; [exact Heditor |]. rewrite Hstored, Heditor. reflexivity.
Defined.

End SessionFacts.

(** ** Text utilities and the e-mail format *)

Module TextFacts.

Import BasicFacts PermissionFacts Shared Utils Validators RegexSemantics RegexFacts.
Import ArticleRules ArticleFacts.

Lemma trimStart_length (s : string) :
  (String.length (Js.trimStart s) <= String.length s)%nat.
Proof.
  induction s as [| c s IH]; [reflexivity |].
  simpl. destruct (Js.is_space c); simpl; lia.
Qed.

Lemma trimEnd_length (s : string) :
  (String.length (Js.trimEnd s) <= String.length s)%nat.
Proof.
  induction s as [| c s IH]; [reflexivity |].
  simpl. destruct (Js.trimEnd s) as [| c' t].
  - destruct (Js.is_space c); simpl; lia.
  - simpl in *. lia.
Qed.

Lemma trim_length (s : string) : Js.length (Js.trim s) <= Js.length s.
Proof.
  unfold Js.length, Js.trim.
  pose proof (trimEnd_length (Js.trimStart s)). pose proof (trimStart_length s). lia.
Qed.

Lemma substring_length (n : nat) (s : string) :
  (String.length (String.substring 0 n s) <= n)%nat.
Proof.
  revert s. induction n as [| n IH]; intros s.
  - destruct s; simpl; lia.
  - destruct s as [| c s]; simpl; [lia |]. specialize (IH s). lia.
Qed.

Lemma endsWith_append (a p : string) : Js.endsWith (a +:+ p) p = true.
Proof.
  unfold Js.endsWith, Js.substring_from. rewrite append_length.
  replace (String.length a + String.length p - String.length p)%nat
    with (String.length a) by lia.
  replace (String.length a + String.length p - String.length a)%nat
    with (String.length p) by lia.
  rewrite substring_suffix, String.eqb_refl.
  replace (String.length p <=? String.length a + String.length p)%nat with true
    by (symmetry; apply Nat.leb_le; lia).
  reflexivity.
Qed.

(** X21. [truncate] returns a text that fits unchanged; a longer text is
    cut and ends with the three dots, and the result has at most three
    characters more than the length asked for (a negative length counts
    as 0). *)
Theorem truncate_adds_at_most_three_characters (text : string) (length : Z) :
  (Js.length text <= length -> truncate text length = text)
  /\ (length < Js.length text -> Js.endsWith (truncate text length) "..." = true)
  /\ Js.length (truncate text length) <= Z.max 0 length + 3.
Proof.
  unfold truncate.
  destruct (Z.leb_spec (Js.length text) length) as [Hfit | Hlong].
  - split; [reflexivity |]. split; [lia |]. lia.
  - split; [lia |]. split; [intros _; apply endsWith_append |].
    pose proof (trim_length (String.substring 0 (Z.to_nat length) text)) as Ht.
    pose proof (substring_length (Z.to_nat length) text) as Hs.
    unfold Js.length in *. rewrite append_length. simpl String.length. lia.
Qed.

Lemma whitespace_runs_nonneg (s : string) (b : bool) : 0 <= whitespace_runs b s.
Proof.
  revert b. induction s as [| c s IH]; intros b; simpl; [lia |].
  destruct (Js.is_space c); [| apply IH].
  specialize (IH true). destruct b; lia.
Qed.

(** X22. The reading time is the number of pieces of the trimmed content
    divided by 200, rounded up; it is at least one minute for every
    content, and one minute for a content that is empty or blank. *)
Theorem reading_time_is_at_least_one_minute (content : string) :
  let words := split_length (Js.trim content) in
  1 <= calculateReadingTime content
  /\ 200 * (calculateReadingTime content - 1) < words
  /\ words <= 200 * calculateReadingTime content
  /\ (Js.exists_char is_visible content = false -> calculateReadingTime content = 1).
Proof.
  intros words.
  assert (Hw : 1 <= words).
  { subst words. unfold split_length.
    pose proof (whitespace_runs_nonneg (Js.trim content) false). lia. }
  assert (Hceil : 200 * (calculateReadingTime content - 1) < words
                  /\ words <= 200 * calculateReadingTime content).
  { unfold calculateReadingTime, ceil_div. fold words.
    pose proof (Z.div_mod (- words) 200 ltac:(lia)) as Hd.
    pose proof (Z.mod_pos_bound (- words) 200 ltac:(lia)) as Hm. lia. }
  split; [lia |]. split; [apply Hceil |]. split; [apply Hceil |].
  intros Hblank. apply trim_empty in Hblank.
  unfold calculateReadingTime. rewrite Hblank. reflexivity.
Qed.

(** X23. [validateEmail] accepts exactly the addresses of the form
    [local@domain.tld] in which each of the three parts is non-empty and
    holds neither whitespace nor [@]; the parts may hold further dots. *)
Theorem validateEmail_accepts_local_at_domain_dot_tld (address : string) :
  valid (validateEmail (Some address)) = true
  <-> exists local domain tld,
        address = local +:+ "@" +:+ domain +:+ "." +:+ tld
        /\ word_of not_space_or_at local
        /\ word_of not_space_or_at domain
        /\ word_of not_space_or_at tld.
Proof.
  rewrite RegisterFacts.validateEmail_valid. unfold Register.email_ok.
  rewrite regex_test_matches. unfold emailRegex. split.
  - intros Hm.
    apply matches_seq_inv in Hm as (l & r1 & -> & Hl & Hm).
    apply matches_seq_inv in Hm as (a & r2 & -> & Ha & Hm).
    apply matches_seq_inv in Hm as (d & r3 & -> & Hd & Hm).
    apply matches_seq_inv in Hm as (p & t & -> & Hp & Ht).
    apply matches_class_inv in Ha as (ca & -> & Hca).
    apply matches_class_inv in Hp as (cp & -> & Hcp).
    apply Ascii.eqb_eq in Hca, Hcp. subst ca cp.
    apply matches_plus_class in Hl, Hd, Ht.
    exists l, d, t. repeat split; assumption || apply Hl || apply Hd || apply Ht.
  - intros (l & d & t & -> & Hl & Hd & Ht).
    apply matches_plus_class in Hl, Hd, Ht.
    repeat (apply matches_seq; [assumption || (constructor; reflexivity) |]).
    exact Ht.
Qed.

End TextFacts.

(** ** From registration and login to the protected routes *)

Module JourneyFacts.

Import BasicFacts Auth Redis Middleware Prisma Api Shared Validation Sessions.
Import MiddlewareFacts RegisterFacts TokenFacts RoleFacts GatewayFacts SessionFacts
  TextFacts.

Section WithLibraries.
Context `{JsonWebToken} `{Bcrypt}.

(** A signed token is not the empty string. *)
Lemma jwt_sign_truthy (payload : TokenPayload) (secret : string) (expiresIn now : Z) :
  Js.truthy (jwt_sign payload secret expiresIn now) = true.
Proof.
  apply truthy_nonempty. intros E.
  pose proof (jwt_decode_encode
                {| jwt_secret := secret; jwt_payload := payload;
                   jwt_iat := clockTimestamp now;
                   jwt_exp := clockTimestamp now + expiresIn |}) as Hd.
  unfold jwt_sign in E. rewrite E, jwt_decode_empty in Hd. discriminate Hd.
Qed.

Lemma bearer_truthy (token : string) : Js.truthy ("Bearer " +:+ token) = true.
Proof. reflexivity. Qed.


(** What a registration that is answered 201 has done. *)
Lemma register_created (env : Env) (db : Db) (b : Register.Body) (now : Z)
    (salt userRowId tokenRowId : string) :
  status (fst (Register.POST env db b now salt userRowId tokenRowId)) = 201 ->
  exists email password name,
    Register.body_email b = Some email
    /\ Register.body_password b = Some password
    /\ Register.body_name b = Some name
    /\ Register.meets_rules b = true
    /\ find_user_by_email email (users db) = None
    /\ let account :=
         {| user_id := userRowId; user_email := email;
            user_password := hashPassword password salt; user_name := name;
            user_role := Js.toUpperCase (Register.requested_role b);
            user_createdAt := now |} in
       fst (Register.POST env db b now salt userRowId tokenRowId)
       = ok (session_of env account now) 201 now
       /\ users (snd (Register.POST env db b now salt userRowId tokenRowId))
          = users db ++ [account]
       /\ refreshTokens (snd (Register.POST env db b now salt userRowId tokenRowId))
          = refreshTokens db ++ [session_row env account tokenRowId now].
Proof.
  unfold Register.POST. fold (Register.data_of b).
  rewrite validateRegistration_valid.
  destruct (Register.meets_rules b) eqn:Hm; cbn [negb];
    [| intros Hs; discriminate Hs].
  destruct (Register.body_email b) as [email |]; [| intros Hs; discriminate Hs].
  destruct (Register.body_password b) as [password |];
    [| intros Hs; discriminate Hs].
  destruct (Register.body_name b) as [name |]; [| intros Hs; discriminate Hs].
  unfold user_findUnique.
  destruct (find_user_by_email email (users db)) eqn:Hnew;
    [intros Hs; discriminate Hs |].
  unfold user_create. cbn [users logged]. rewrite Hnew.
  destruct (find_user_by_id userRowId (users db)); [intros Hs; discriminate Hs |].
  cbv beta iota zeta. cbn [user_id user_email user_role].
  unfold refreshToken_create. cbn [refreshTokens logged].
  destruct (find_token_by_id tokenRowId (refreshTokens db));
    [intros Hs; discriminate Hs |].
  destruct (find_token _ (refreshTokens db)); [intros Hs; discriminate Hs |].
  intros _. exists email, password, name. repeat split. exact Hnew.
Qed.

Lemma meets_rules_truthy (b : Register.Body) (email password : string) :
  Register.meets_rules b = true ->
  Register.body_email b = Some email ->
  Register.body_password b = Some password ->
  Js.truthy email = true /\ Js.truthy password = true.
Proof.
  unfold Register.meets_rules. intros Hm He Hp. rewrite He, Hp in Hm.
  apply andb_prop in Hm as [Hm _]. apply andb_prop in Hm as [Hemail Hpassword].
  split.
  - destruct email; [discriminate Hemail | reflexivity].
  - destruct password; [discriminate Hpassword | reflexivity].
Qed.


(** X26. Registration refuses an e-mail address that is registered
    already: for a body that passes validation, the answer is 409, and no
    user and no session is added. *)
Theorem register_refuses_a_known_email
    (env : Env) (db : Db) (b : Register.Body) (now : Z)
    (salt userRowId tokenRowId email : string) (existing : User)
    (Hvalid : Register.meets_rules b = true)
    (Hemail : Register.body_email b = Some email)
    (Hknown : find_user_by_email email (users db) = Some existing) :
  let out := Register.POST env db b now salt userRowId tokenRowId in
  fst out = fail "Conflict" "User with this email already exists" 409 NoDetails now
  /\ users (snd out) = users db
  /\ refreshTokens (snd out) = refreshTokens db.
Proof.
  intros out. subst out. unfold Register.POST. fold (Register.data_of b).
  rewrite validateRegistration_valid, Hvalid, Hemail. cbn [negb].
  unfold Register.meets_rules in Hvalid.
  destruct (Register.body_password b) as [password |];
    [| rewrite andb_false_r in Hvalid; discriminate Hvalid].
  destruct (Register.body_name b) as [name |];
    [| rewrite andb_false_r in Hvalid; discriminate Hvalid].
  unfold user_findUnique. rewrite Hknown. repeat split.
Qed.

End WithLibraries.

Import Reference Examples.


(** [Reference.bcrypt] accepts a password against its own hash. *)
Lemma reference_compare (password : string) (cost : Z) (salt : string) :
  bcrypt_compare password (bcrypt_hash password cost salt) = true.
Proof. apply (endsWith_append salt ("$" +:+ password)). Qed.


(** The address of [alice] is asked for a second time. *)
Lemma register_refuses_a_known_email_witness :
  let out := Register.POST default_env only_alice alice_again 1000 "salt" "u2" "r1" in
  Register.meets_rules alice_again = true
  /\ status (fst out) = 409
  /\ users (snd out) = [alice].
Proof.
  intros out.
  assert (Hvalid : Register.meets_rules alice_again = true) by reflexivity.
  split; [exact Hvalid |].
  pose proof (register_refuses_a_known_email default_env only_alice alice_again 1000
                "salt" "u2" "r1" "alice@example.com" alice Hvalid eq_refl eq_refl)
    as (Hout & Husers & _).
  fold out in Hout, Husers. split; [rewrite Hout; reflexivity | exact Husers].
Defined.

End JourneyFacts.
